(** * Hierarchical sampling for active learning: the sampler of
    [HierarchicalSampler.py], embedded and verified.

    The Python objects are embedded as follows.
    - [self.nodes], a dict from node id to a mutable [Node] object, is an
      arena: a finite map from ids to node records.  A reference to a [Node]
      (the fields [left], [right], [parent], the entries of [subtree_leaves])
      is the id of that node, which is the key it is stored under.
    - Python's floats are kept behind an interface ([Arith]); the sampler is
      written once over that interface.  Two implementations are given: IEEE
      binary64 (the kernel's primitive floats), on which the sampler runs, and
      the real numbers extended with infinities, on which the exact identities
      of the weights and of the estimates are proved.
    - Exceptions and non-termination are outcomes ([res]).
    - The random draws of [np.random.choice] and [random.choice] are read from
      a tape of naturals, one entry per draw. *)

From Stdlib Require Import ZArith Lia List Bool PrimFloat Uint63 Reals Lra.
From stdpp Require Import base option list gmap sets fin_maps.

Set Default Proof Using "Type".

(** ** Outcomes *)

Inductive exn :=
| KeyError | AttributeError | ValueError | AssertionError
| ZeroDivisionError | RecursionError | StopIteration | IndexError.

(** [Diverge]: the loop was still running when its budget was used up. *)
Inductive res (A : Type) :=
| Ok (a : A)
| Raise (e : exn)
| Diverge.
Arguments Ok {A} a.
Arguments Raise {A} e.
Arguments Diverge {A}.

#[global] Instance res_ret : MRet res := @Ok.
#[global] Instance res_bind : MBind res := λ A B f m,
  match m with Ok a => f a | Raise e => Raise e | Diverge => Diverge end.

Definition of_option {A} (e : exn) (o : option A) : res A :=
  match o with Some a => Ok a | None => Raise e end.

(** [for x in xs: st = body(st, x)], stopping at the first exception. *)
Fixpoint for_each {S X} (body : S → X → res S) (xs : list X) (st : S) : res S :=
  match xs with
  | [] => Ok st
  | x :: xs => st' ← body st x; for_each body xs st'
  end.

(** ** Float arithmetic, as an interface *)

Class Arith := {
  F : Type;
  of_nat : nat → F;              (* an int used where a float is expected *)
  fadd : F → F → F;
  fsub : F → F → F;
  fmul : F → F → F;
  fdiv : F → F → F;
  fsqrt : F → F;                 (* [x ** 0.5] *)
  fltb : F → F → bool;           (* [x < y] *)
  finf : F;                      (* [float('inf')] *)
  ftwo : F                       (* the literal [2.0] *)
}.

Declare Scope py_scope.
Delimit Scope py_scope with py.
Infix "+" := fadd : py_scope.
Infix "-" := fsub : py_scope.
Infix "*" := fmul : py_scope.
Infix "/" := fdiv : py_scope.
Infix "<?" := fltb : py_scope.

Section WithArith.
Context {A : Arith}.

Definition f0 : F := of_nat 0.
Definition f1 : F := of_nat 1.

(** Python's two-argument [max] and [min]: the first argument is kept unless
    the second is strictly greater (smaller). *)
Definition py_max (a b : F) : F := if (a <? b)%py then b else a.
Definition py_min (a b : F) : F := if (b <? a)%py then b else a.

End WithArith.

(** ** Tree nodes *)

Module Node.
Section Rec.
Context {A : Arith}.

Record t := mk {
  id : nat;
  left : option nat;
  right : option nat;
  parent : option nat;
  is_leaf : bool;
  weight : F;
  subtree_leaves : list nat;
  class_to_instances : gmap Z nat;
  num_revealed : nat
}.

(** [Node(node_id)] *)
Definition new (node_id : nat) : t :=
  mk node_id None None None true f0 [] ∅ 0.

Definition set_left (v : option nat) (n : t) : t :=
  mk (id n) v (right n) (parent n) (is_leaf n) (weight n)
     (subtree_leaves n) (class_to_instances n) (num_revealed n).
Definition set_right (v : option nat) (n : t) : t :=
  mk (id n) (left n) v (parent n) (is_leaf n) (weight n)
     (subtree_leaves n) (class_to_instances n) (num_revealed n).
Definition set_parent (v : option nat) (n : t) : t :=
  mk (id n) (left n) (right n) v (is_leaf n) (weight n)
     (subtree_leaves n) (class_to_instances n) (num_revealed n).
Definition set_is_leaf (v : bool) (n : t) : t :=
  mk (id n) (left n) (right n) (parent n) v (weight n)
     (subtree_leaves n) (class_to_instances n) (num_revealed n).
Definition set_weight (v : F) (n : t) : t :=
  mk (id n) (left n) (right n) (parent n) (is_leaf n) v
     (subtree_leaves n) (class_to_instances n) (num_revealed n).
Definition set_subtree_leaves (v : list nat) (n : t) : t :=
  mk (id n) (left n) (right n) (parent n) (is_leaf n) (weight n)
     v (class_to_instances n) (num_revealed n).
Definition set_counts (c : gmap Z nat) (k : nat) (n : t) : t :=
  mk (id n) (left n) (right n) (parent n) (is_leaf n) (weight n)
     (subtree_leaves n) c k.

End Rec.
Arguments t : clear implicits.
End Node.

Section Tree.
Context {A : Arith}.
Implicit Types (nodes : gmap nat (Node.t A)) (nd : Node.t A).

(** ** [_construct_tree] *)

Definition findNode nodes (idx : nat) : Node.t A :=
  default (Node.new idx) (nodes !! idx).

(** One row [c] of [clustering.children_]; [ii] is the counter of new ids.
    The three nodes are distinct objects when the three ids differ, as they
    do in a merge sequence. *)
Definition merge nodes (ii : nat) (c : nat * nat) : gmap nat (Node.t A) :=
  let '(left_id, right_id) := c in
  let node_id := ii in
  let left := findNode nodes left_id in
  let right := findNode nodes right_id in
  let node := findNode nodes node_id in
  let left := Node.set_parent (Some node_id) left in
  let right := Node.set_parent (Some node_id) right in
  let node := Node.set_left (Some left_id) node in
  let node := Node.set_right (Some right_id) node in
  <[right_id := right]> (<[left_id := left]> (<[node_id := node]> nodes)).

Fixpoint merges nodes (ii : nat) (children_ : list (nat * nat)) : gmap nat (Node.t A) :=
  match children_ with
  | [] => nodes
  | c :: cs => merges (merge nodes ii c) (S ii) cs
  end.

Definition mark_leaf nd : Node.t A :=
  if bool_decide (is_Some (Node.left nd) ∨ is_Some (Node.right nd))
  then Node.set_is_leaf false nd else nd.

(** Returns [(self.root, self.nodes)]; [n] is the number of points. *)
Definition _construct_tree (n : nat) (children_ : list (nat * nat))
  : res (nat * gmap nat (Node.t A)) :=
  let nodes := merges ∅ n children_ in
  root ← of_option StopIteration
         (fst <$> List.find (λ kv, bool_decide (Node.parent (snd kv) = None))
                            (map_to_list nodes));
  Ok (root, mark_leaf <$> nodes).

(** ** [_get_upward_path] *)

(** [self.nodes[cur].parent.id] *)
Definition parent_id nodes (cur : nat) : res nat :=
  nd ← of_option KeyError (nodes !! cur);
  of_option AttributeError (Node.parent nd).

(** The [while cur != v_id] loop.  [cur] and [parent] only ever hold ids read
    from a [parent] field, so the test [cur is None] of the source is never
    true and its [raise] is not reached; when reading the parent fails the
    bare [except] keeps the previous value of [parent]. *)
Fixpoint upward_loop (fuel : nat) nodes (v_id : nat)
    (trail : list nat) (cur parent : nat) : res (list nat) :=
  if decide (cur = v_id) then Ok trail else
  match fuel with
  | 0 => Diverge
  | S fuel =>
      let cur := parent in
      let parent := match parent_id nodes cur with Ok p => p | _ => parent end in
      let trail := trail ++ [cur] in
      upward_loop fuel nodes v_id trail cur parent
  end.

Definition _get_upward_path (fuel : nat) nodes (z_id v_id : nat) : res (list nat) :=
  parent ← parent_id nodes z_id;
  upward_loop fuel nodes v_id [z_id] z_id parent.

(** ** [update_counts] *)

(** [node.class_to_instances[z_label] += 1; node.num_revealed += 1] on a
    [defaultdict(int)]. *)
Definition count_one (z_label : Z) nd : Node.t A :=
  let c := Node.class_to_instances nd in
  Node.set_counts (<[z_label := S (default 0 (c !! z_label))]> c)
                  (S (Node.num_revealed nd)) nd.

Definition count_at (z_label : Z) nodes (node_id : nat) : res (gmap nat (Node.t A)) :=
  nd ← of_option KeyError (nodes !! node_id);
  Ok (<[node_id := count_one z_label nd]> nodes).

Definition update_counts (fuel : nat) nodes (z_label : Z) (z_id v_id : nat)
  : res (gmap nat (Node.t A)) :=
  path ← _get_upward_path fuel nodes z_id v_id;
  for_each (count_at z_label) path nodes.

(** A sequence of calls [update_counts(z_label, z_id, v_id)]. *)
Definition update_counts_seq (fuel : nat) nodes (calls : list (Z * nat * nat))
  : res (gmap nat (Node.t A)) :=
  for_each (λ nodes '(z_label, z_id, v_id),
              update_counts fuel nodes z_label z_id v_id) calls nodes.

(** [sum(d.values())] *)
Definition sum_values (d : gmap Z nat) : nat :=
  map_fold (λ _ c acc, c + acc) 0 d.

(** The keys of a dict, in the order the map enumerates them. *)
Definition keys `{Countable K} {V} (d : gmap K V) : list K := (map_to_list d).*1.

(** ** [_compute_weights] *)

(** [visit] of [reverse_topological_process]; the state is the [visited] set
    and the arena, whose nodes the visit mutates.  [fuel] bounds the depth of
    the recursion, as the interpreter's recursion limit does. *)
Fixpoint visit_leaves (fuel : nat) (node_id : nat)
    (st : gset nat * gmap nat (Node.t A)) : res (gset nat * gmap nat (Node.t A)) :=
  match fuel with
  | 0 => Raise RecursionError
  | S fuel =>
      let visited := st.1 ∪ {[node_id]} in
      let nodes := st.2 in
      node ← of_option KeyError (nodes !! node_id);
      st ← (if Node.is_leaf node then
              Ok (visited,
                  <[node_id := Node.set_subtree_leaves
                                 (Node.subtree_leaves node ++ [node_id]) node]> nodes)
            else
              st ← match Node.left node with
                   | Some l => if decide (l ∈ visited) then Ok (visited, nodes)
                               else visit_leaves fuel l (visited, nodes)
                   | None => Ok (visited, nodes)
                   end;
              st ← match Node.right node with
                   | Some r => if decide (r ∈ st.1) then Ok st
                               else visit_leaves fuel r st
                   | None => Ok st
                   end;
              l ← of_option AttributeError (Node.left node);
              lnode ← of_option KeyError (st.2 !! l);
              node ← of_option KeyError (st.2 !! node_id);
              let nodes := <[node_id := Node.set_subtree_leaves
                               (Node.subtree_leaves node ++ Node.subtree_leaves lnode)
                               node]> (st.2) in
              r ← of_option AttributeError (Node.right node);
              rnode ← of_option KeyError (nodes !! r);
              node ← of_option KeyError (nodes !! node_id);
              Ok (st.1,
                  <[node_id := Node.set_subtree_leaves
                                 (Node.subtree_leaves node ++ Node.subtree_leaves rnode)
                                 node]> nodes));
      node ← of_option KeyError (st.2 !! node_id);
      Ok (st.1, <[node_id := Node.set_weight
                               (of_nat (length (Node.subtree_leaves node))) node]> (st.2))
  end.

Definition visit_unvisited
    (visit : nat → gset nat * gmap nat (Node.t A) → res (gset nat * gmap nat (Node.t A)))
    (st : gset nat * gmap nat (Node.t A)) (node_id : nat) :=
  if decide (node_id ∈ st.1) then Ok st else visit node_id st.

Definition reverse_topological_process (fuel : nat) nodes : res (gmap nat (Node.t A)) :=
  st ← for_each (visit_unvisited (visit_leaves fuel)) (keys nodes) (∅, nodes);
  Ok (st.2).

(** [node.weight /= n; assert node.weight < n] *)
Definition normalize (num_leaves : nat) nodes (node_id : nat) : res (gmap nat (Node.t A)) :=
  node ← of_option KeyError (nodes !! node_id);
  if decide (num_leaves = 0) then Raise ZeroDivisionError else
  let n := (f1 * of_nat num_leaves)%py in
  let w := (Node.weight node / n)%py in
  if (w <? n)%py then Ok (<[node_id := Node.set_weight w node]> nodes)
  else Raise AssertionError.

Definition _compute_weights (fuel : nat) (num_leaves : nat) nodes
  : res (gmap nat (Node.t A)) :=
  nodes ← reverse_topological_process fuel nodes;
  for_each (normalize num_leaves) (keys nodes) nodes.

End Tree.

(** ** The sampler object *)

(** One cell of the tape of random draws: what one turn of the loop of
    [sample] reads.  [d_select] is the draw of [np.random.choice] in
    [_select]; [d_reveal] and [d_return] are the two draws of
    [random.choice] in [_pick_sample_id_from_node], in program order.  A draw
    [d] from a sequence of length [n] stands for its element of index
    [d mod n]. *)
Record draws := Draws { d_select : nat; d_reveal : nat; d_return : nat }.

Module HS.
Section Rec.
Context {A : Arith}.

Record t := mk {
  X_train : list (list F);
  X_unlabeled : list (list F);
  X_merged : list (list F);
  y_merged : list Z;
  root : nat;
  nodes : gmap nat (Node.t A);
  num_leaves : nat;
  pruning : gmap nat Z;
  labels : gset Z;
  revealed : gset nat;
  admissible_set : gset (nat * Z);
  beta : F;
  tuning_phase : bool
}.

Definition set_nodes (v : gmap nat (Node.t A)) (s : t) : t :=
  mk (X_train s) (X_unlabeled s) (X_merged s) (y_merged s) (root s) v
     (num_leaves s) (pruning s) (labels s) (revealed s) (admissible_set s)
     (beta s) (tuning_phase s).
Definition set_pruning (v : gmap nat Z) (s : t) : t :=
  mk (X_train s) (X_unlabeled s) (X_merged s) (y_merged s) (root s) (nodes s)
     (num_leaves s) v (labels s) (revealed s) (admissible_set s)
     (beta s) (tuning_phase s).
Definition set_revealed (v : gset nat) (s : t) : t :=
  mk (X_train s) (X_unlabeled s) (X_merged s) (y_merged s) (root s) (nodes s)
     (num_leaves s) (pruning s) (labels s) v (admissible_set s)
     (beta s) (tuning_phase s).
Definition set_admissible_set (v : gset (nat * Z)) (s : t) : t :=
  mk (X_train s) (X_unlabeled s) (X_merged s) (y_merged s) (root s) (nodes s)
     (num_leaves s) (pruning s) (labels s) (revealed s) v
     (beta s) (tuning_phase s).
Definition set_tuning_phase (v : bool) (s : t) : t :=
  mk (X_train s) (X_unlabeled s) (X_merged s) (y_merged s) (root s) (nodes s)
     (num_leaves s) (pruning s) (labels s) (revealed s) (admissible_set s)
     (beta s) v.

End Rec.
Arguments t : clear implicits.
End HS.

Section Sampler.
Context {A : Arith}.
Implicit Types (self : HS.t A) (nodes : gmap nat (Node.t A)) (nd : Node.t A).

(** ** [_is_unlabeled] *)

Definition _is_unlabeled self (node_id : nat) : res bool :=
  if decide (node_id < length (HS.X_train self) + length (HS.X_unlabeled self))
  then Ok (bool_decide (length (HS.X_train self) ≤ node_id))
  else Raise AssertionError.

(** ** [_select] *)

(** [random.choice(seq)] and the choice of [np.random.choice(seq, p=...)]. *)
Definition choice {X} (seq : list X) (d : nat) : option X :=
  seq !! (d mod length seq).

(** [method_1].  The weights are read (a missing node is a [KeyError]);
    how likely each key is drawn is not represented, only that [d] names the
    key drawn.  [np.random.choice] also refuses probabilities that do not
    sum to one within its tolerance; that test on floats is left out. *)
Definition _select self (d : nat) : res nat :=
  let pruning := keys (HS.pruning self) in
  _ ← for_each (λ ws node_id,
                  nd ← of_option KeyError (HS.nodes self !! node_id);
                  Ok (ws ++ [Node.weight nd])) pruning [];
  of_option ValueError (choice pruning d).

(** ** [_pick_sample_id_from_node] *)

(** The [for leaf in ...subtree_leaves] loop: [inl id] when the loop returns
    a labeled leaf from inside, [inr sample_ids] when it runs to its end. *)
Fixpoint scan_leaves self (leaves : list nat) (sample_ids : list nat)
  : res (nat + list nat) :=
  match leaves with
  | [] => Ok (inr sample_ids)
  | sample_id :: leaves =>
      if decide (sample_id ∈ HS.revealed self) then scan_leaves self leaves sample_ids
      else
        unlabeled ← _is_unlabeled self sample_id;
        if negb unlabeled then
          if HS.tuning_phase self then Ok (inl sample_id) else Raise AssertionError
        else scan_leaves self leaves (sample_ids ++ [sample_id])
  end.

Definition reveal (sample_id : nat) self : HS.t A :=
  HS.set_revealed (HS.revealed self ∪ {[sample_id]}) self.

Definition _pick_sample_id_from_node self (node_id : nat) (d : draws)
  : res (HS.t A * option nat) :=
  nd ← of_option KeyError (HS.nodes self !! node_id);
  r ← scan_leaves self (Node.subtree_leaves nd) [];
  match r with
  | inl sample_id => Ok (reveal sample_id self, Some sample_id)
  | inr sample_ids =>
      if HS.tuning_phase self || bool_decide (length sample_ids = 0)
      then Ok (self, None)
      else
        unlabeled_id ← of_option IndexError (choice sample_ids (d_reveal d));
        let self := reveal unlabeled_id self in
        z ← of_option IndexError (choice sample_ids (d_return d));
        Ok (self, Some z)
  end.

(** ** [_update] *)

(** A dict filled by a loop over [ks]. *)
Definition dict_of `{Countable K} {V} (entry : K → res V) (ks : list K)
  : res (gmap K V) :=
  for_each (λ d k, v ← entry k; Ok (<[k := v]> d)) ks ∅.

Definition vl_keys self : list (nat * Z) :=
  node_id ← keys (HS.nodes self); label ← elements (HS.labels self);
  [(node_id, label)].

Definition p_vl_entry self (vl : nat * Z) : res F :=
  nd ← of_option KeyError (HS.nodes self !! vl.1);
  match Node.class_to_instances nd !! vl.2 with
  | Some class_revealed_count =>
      if decide (Node.num_revealed nd = 0) then Raise ZeroDivisionError
      else Ok (of_nat class_revealed_count / (f1 * of_nat (Node.num_revealed nd)))%py
  | None => Ok f0
  end.

Definition delta_entry self (p_vl : gmap (nat * Z) F) (vl : nat * Z) : res F :=
  nd ← of_option KeyError (HS.nodes self !! vl.1);
  let n_v := Node.num_revealed nd in
  if decide (0 < n_v) then
    p ← of_option KeyError (p_vl !! vl);
    Ok (f1 / of_nat n_v + fsqrt (p * (f1 - p) / of_nat n_v))%py
  else Ok f0.

Definition p_LB self (p_vl delta : gmap (nat * Z) F) (vl : nat * Z) : res F :=
  nd ← of_option KeyError (HS.nodes self !! vl.1);
  if decide (size (Node.class_to_instances nd) = 0) then Ok f0 else
  p ← of_option KeyError (p_vl !! vl);
  d ← of_option KeyError (delta !! vl);
  Ok (py_max (p - d)%py f0).

Definition p_UB self (p_vl delta : gmap (nat * Z) F) (vl : nat * Z) : res F :=
  nd ← of_option KeyError (HS.nodes self !! vl.1);
  if decide (size (Node.class_to_instances nd) = 0) then Ok f1 else
  p ← of_option KeyError (p_vl !! vl);
  d ← of_option KeyError (delta !! vl);
  Ok (py_min (p + d)%py f1).

Definition is_admissible self (p_vl_LB p_vl_UB : gmap (nat * Z) F)
    (v_id : nat) (label : Z) : res bool :=
  lb ← of_option KeyError (p_vl_LB !! (v_id, label));
  min_other ← for_each (λ min_other lp,
                 if decide (lp ≠ label) then
                   ub ← of_option KeyError (p_vl_UB !! (v_id, lp));
                   Ok (py_min min_other (f1 - ub)%py)
                 else Ok min_other)
               (elements (HS.labels self)) finf;
  Ok ((f1 - lb) <? (HS.beta self * min_other))%py.

Definition admit_pairs self (p_vl_LB p_vl_UB : gmap (nat * Z) F)
    (update_nodes : list nat) (update_labels : list Z) : res (HS.t A) :=
  for_each (λ self node_id,
    for_each (λ self label,
      a ← is_admissible self p_vl_LB p_vl_UB node_id label;
      if (a : bool)
      then Ok (HS.set_admissible_set (HS.admissible_set self ∪ {[(node_id, label)]}) self)
      else Ok self) update_labels self) update_nodes self.

(** [min(iterable, key=...)]: the first item with the least key. *)
Fixpoint min_by (key : Z → res F) (best : Z) (kbest : F) (ls : list Z) : res Z :=
  match ls with
  | [] => Ok best
  | l :: ls =>
      k ← key l;
      if (k <? kbest)%py then min_by key l k ls else min_by key best kbest ls
  end.

Definition py_min_key (key : Z → res F) (ls : list Z) : res Z :=
  match ls with
  | [] => Raise ValueError
  | l :: ls => k ← key l; min_by key l k ls
  end.

(** The state of [bottom_up_compute]: [visited], [epsilon_tilda_vl], [s_v]. *)
Record bu_state := BU {
  bu_visited : gset nat;
  epsilon_tilda_vl : gmap (nat * Z) F;
  s_v : gmap nat (F * gmap nat Z)
}.

(** The loop over the labels in [visit]: fills [epsilon_tilda_vl] and
    computes [has_admissible]. *)
Definition epsilon_loop self (p_vl : gmap (nat * Z) F) (node_id : nat)
    (eps : gmap (nat * Z) F) : res (bool * gmap (nat * Z) F) :=
  for_each (λ '(has_admissible, eps) label,
    let vl := (node_id, label) in
    if decide (vl ∈ HS.admissible_set self) then
      p ← of_option KeyError (p_vl !! vl);
      Ok (true, <[vl := (f1 - p)%py]> eps)
    else Ok (has_admissible, <[vl := f1]> eps))
  (elements (HS.labels self)) (false, eps).

(** One child's share in [visit]: [children_score += child.weight / w_v *
    child_score; children_pruning.update(child_pruning)]. *)
Definition add_child self (s : gmap nat (F * gmap nat Z)) (w_v : F)
    (child : option nat) (acc : F * gmap nat Z) : res (F * gmap nat Z) :=
  match child with
  | None => Ok acc
  | Some child_id =>
      '(child_score, child_pruning) ← of_option KeyError (s !! child_id);
      cnode ← of_option KeyError (HS.nodes self !! child_id);
      Ok ((acc.1 + Node.weight cnode / w_v * child_score)%py,
          child_pruning ∪ acc.2)
  end.

Fixpoint visit_scores (fuel : nat) self (p_vl : gmap (nat * Z) F)
    (node_id : nat) (st : bu_state) : res bu_state :=
  match fuel with
  | 0 => Raise RecursionError
  | S fuel =>
      let st := BU (bu_visited st ∪ {[node_id]}) (epsilon_tilda_vl st) (s_v st) in
      node ← of_option KeyError (HS.nodes self !! node_id);
      st ← match Node.left node with
           | Some l => if decide (l ∈ bu_visited st) then Ok st
                       else visit_scores fuel self p_vl l st
           | None => Ok st
           end;
      st ← match Node.right node with
           | Some r => if decide (r ∈ bu_visited st) then Ok st
                       else visit_scores fuel self p_vl r st
           | None => Ok st
           end;
      '(has_admissible, eps) ← epsilon_loop self p_vl node_id (epsilon_tilda_vl st);
      best_label ← py_min_key (λ l, of_option KeyError (eps !! (node_id, l)))
                              (elements (HS.labels self));
      best_score ← of_option KeyError (eps !! (node_id, best_label));
      let s := <[node_id := (best_score, {[node_id := best_label]})]> (s_v st) in
      if has_admissible && negb (Node.is_leaf node) then
        let w_v := Node.weight node in
        acc ← add_child self s w_v (Node.left node) (f0, ∅);
        '(children_score, children_pruning) ← add_child self s w_v (Node.right node) acc;
        if (children_score <? best_score)%py
        then Ok (BU (bu_visited st) eps
                    (<[node_id := (children_score, children_pruning)]> s))
        else Ok (BU (bu_visited st) eps s)
      else Ok (BU (bu_visited st) eps s)
  end.

Definition bottom_up_compute (fuel : nat) self (p_vl : gmap (nat * Z) F)
  : res bu_state :=
  for_each (λ st node_id,
              if decide (node_id ∈ bu_visited st) then Ok st
              else visit_scores fuel self p_vl node_id st)
           (keys (HS.nodes self)) (BU ∅ ∅ ∅).

(** [del self.pruning[v_id]; self.pruning.update(PL_prime)] *)
Definition rewrite_entry (s : gmap nat (F * gmap nat Z))
    (pruning : gmap nat Z) (v_id : nat) : res (gmap nat Z) :=
  '(score, PL_prime) ← of_option KeyError (s !! v_id);
  if decide (v_id ∈ dom pruning)
  then Ok (PL_prime ∪ delete v_id pruning)
  else Raise KeyError.

(** The four dicts [p_vl], [delta], [p_vl_LB], [p_vl_UB] that [_update]
    starts with. *)
Record estimates := Estimates {
  e_p_vl : gmap (nat * Z) F;
  e_delta : gmap (nat * Z) F;
  e_p_vl_LB : gmap (nat * Z) F;
  e_p_vl_UB : gmap (nat * Z) F
}.

Definition estimate self : res estimates :=
  p_vl ← dict_of (p_vl_entry self) (vl_keys self);
  delta ← dict_of (delta_entry self p_vl) (keys p_vl);
  p_vl_LB ← dict_of (p_LB self p_vl delta) (keys p_vl);
  p_vl_UB ← dict_of (p_UB self p_vl delta) (keys p_vl);
  Ok (Estimates p_vl delta p_vl_LB p_vl_UB).

Definition _update (fuel : nat) self (update_nodes : list nat)
    (update_labels : list Z) : res (HS.t A) :=
  '(Estimates p_vl delta p_vl_LB p_vl_UB) ← estimate self;
  self ← admit_pairs self p_vl_LB p_vl_UB update_nodes update_labels;
  st ← bottom_up_compute fuel self p_vl;
  let original_pruning := keys (HS.pruning self) in
  pruning ← for_each (rewrite_entry (s_v st)) original_pruning (HS.pruning self);
  Ok (HS.set_pruning pruning self).

(** ** [sample] *)

(** The [while True] loop, one tape cell per turn; it ends with the id
    [z_id] of the point picked.  With the tape used up and no point found it
    is still running. *)
Fixpoint sample_loop (fuel : nat) self (tape : list draws)
  : res (HS.t A * nat * list draws) :=
  match tape with
  | [] => Diverge
  | d :: tape =>
      v_id ← _select self (d_select d);
      '(self, z) ← _pick_sample_id_from_node self v_id d;
      match z with
      | None => sample_loop fuel self tape
      | Some z_id =>
          z_label ← of_option IndexError (HS.y_merged self !! z_id);
          nodes ← update_counts fuel (HS.nodes self) z_label z_id v_id;
          let self := HS.set_nodes nodes self in
          path ← _get_upward_path fuel (HS.nodes self) z_id v_id;
          self ← _update fuel self path [z_label];
          Ok (self, z_id, tape)
      end
  end.

(** Returns the sampler, what [sample()] returns and the rest of the tape. *)
Definition sample (fuel : nat) self (tape : list draws)
  : res (HS.t A * option (list F * Z) * list draws) :=
  '(self, z_id, tape) ← sample_loop fuel self tape;
  if HS.tuning_phase self then Ok (self, None, tape)
  else
    x ← of_option IndexError (HS.X_merged self !! z_id);
    y ← of_option IndexError (HS.y_merged self !! z_id);
    Ok (self, Some (x, y), tape).

(** ** [__init__] *)

(** [for _ in range(k): self.sample()] *)
Fixpoint sample_times (fuel : nat) (k : nat) self (tape : list draws)
  : res (HS.t A * list draws) :=
  match k with
  | 0 => Ok (self, tape)
  | S k =>
      '(self, _, tape) ← sample fuel self tape;
      sample_times fuel k self tape
  end.

(** The state in which the tuning phase starts. *)
Definition before_tuning (fuel : nat) (X_train : list (list F)) (y_train : list Z)
    (X_unlabeled : list (list F)) (y_unlabeled : list Z)
    (n_leaves_ : nat) (children_ : list (nat * nat)) : res (HS.t A) :=
  let X_merged := X_train ++ X_unlabeled in
  let y_merged := y_train ++ y_unlabeled in
  let num_leaves := n_leaves_ in
  if decide (num_leaves = length X_merged) then
    '(root, nodes) ← _construct_tree (length X_merged) children_;
    nodes ← _compute_weights fuel num_leaves nodes;
    Ok (HS.mk X_train X_unlabeled X_merged y_merged root nodes num_leaves
              {[root := (-1)%Z]} (list_to_set y_merged) ∅ ∅ ftwo true)
  else Raise AssertionError.

(** The clustering is the pair [(n_leaves_, children_)] that
    [AgglomerativeClustering().fit(X_merged)] answers with.  The base class
    [Sampler] keeps the four arrays. *)
Definition __init__ (fuel : nat) (X_train : list (list F)) (y_train : list Z)
    (X_unlabeled : list (list F)) (y_unlabeled : list Z)
    (n_leaves_ : nat) (children_ : list (nat * nat)) (tape : list draws)
  : res (HS.t A * list draws) :=
  self ← before_tuning fuel X_train y_train X_unlabeled y_unlabeled n_leaves_ children_;
  '(self, tape) ← sample_times fuel (length X_train) self tape;
  Ok (HS.set_tuning_phase false self, tape).

End Sampler.

(** ** IEEE binary64 *)

Definition float_of_nat (n : nat) : float :=
  PrimFloat.of_uint63 (Uint63.of_Z (Z.of_nat n)).

Definition float_arith : Arith := {|
  F := float;
  of_nat := float_of_nat;
  fadd := PrimFloat.add;
  fsub := PrimFloat.sub;
  fmul := PrimFloat.mul;
  fdiv := PrimFloat.div;
  fsqrt := PrimFloat.sqrt;
  fltb := PrimFloat.ltb;
  finf := PrimFloat.infinity;
  ftwo := 2%float
|}.


(** ** Real arithmetic with infinities *)

Inductive ereal := Fin (r : R) | PInf | NInf | NaN.

Definition Rsign (r : R) : comparison :=
  if Rlt_dec 0 r then Gt else if Rlt_dec r 0 then Lt else Eq.

Definition eneg (x : ereal) : ereal :=
  match x with Fin r => Fin (- r) | PInf => NInf | NInf => PInf | NaN => NaN end.

Definition eadd (x y : ereal) : ereal :=
  match x, y with
  | NaN, _ | _, NaN => NaN
  | Fin a, Fin b => Fin (a + b)
  | PInf, NInf | NInf, PInf => NaN
  | PInf, _ | _, PInf => PInf
  | NInf, _ | _, NInf => NInf
  end.

Definition esigned (c : comparison) (x : ereal) : ereal :=
  match c with Gt => x | Lt => eneg x | Eq => NaN end.

Definition emul (x y : ereal) : ereal :=
  match x, y with
  | NaN, _ | _, NaN => NaN
  | Fin a, Fin b => Fin (a * b)
  | Fin a, inf => esigned (Rsign a) inf
  | inf, Fin b => esigned (Rsign b) inf
  | PInf, PInf | NInf, NInf => PInf
  | PInf, NInf | NInf, PInf => NInf
  end.

(** A finite quotient by zero, which Python refuses, is [NaN] here. *)
Definition ediv (x y : ereal) : ereal :=
  match x, y with
  | NaN, _ | _, NaN => NaN
  | Fin a, Fin b => match Rsign b with Eq => NaN | _ => Fin (a / b) end
  | Fin a, _ => Fin 0
  | inf, Fin b => match Rsign b with Eq => inf | c => esigned c inf end
  | _, _ => NaN
  end.

Definition esqrt (x : ereal) : ereal :=
  match x with
  | Fin a => if Rlt_dec a 0 then NaN else Fin (sqrt a)
  | PInf => PInf
  | _ => NaN
  end.

Definition eltb (x y : ereal) : bool :=
  match x, y with
  | NaN, _ | _, NaN => false
  | Fin a, Fin b => if Rlt_dec a b then true else false
  | _, NInf | PInf, _ => false
  | NInf, _ | _, PInf => true
  end.

Arguments eneg : simpl never.
Arguments eadd : simpl never.
Arguments emul : simpl never.
Arguments ediv : simpl never.
Arguments esqrt : simpl never.
Arguments eltb : simpl never.

Definition real_arith : Arith := {|
  F := ereal;
  of_nat := λ n, Fin (INR n);
  fadd := eadd;
  fsub := λ x y, eadd x (eneg y);
  fmul := emul;
  fdiv := ediv;
  fsqrt := esqrt;
  fltb := eltb;
  finf := PInf;
  ftwo := Fin 2
|}.

(** ** The tree that an arena holds *)

(** The shape of a cluster tree: a point, or a merge of two subtrees, each
    with its id. *)
Inductive tree :=
| Leaf (i : nat)
| Br (i : nat) (l r : tree).

#[global] Instance tree_eq_dec : EqDecision tree.
Proof. solve_decision. Defined.

Definition tid (t : tree) : nat :=
  match t with Leaf i => i | Br i _ _ => i end.

Fixpoint ids (t : tree) : list nat :=
  match t with
  | Leaf i => [i]
  | Br i l r => i :: ids l ++ ids r
  end.

Fixpoint leaves (t : tree) : list nat :=
  match t with
  | Leaf i => [i]
  | Br _ l r => leaves l ++ leaves r
  end.

Fixpoint height (t : tree) : nat :=
  match t with
  | Leaf _ => 0
  | Br _ l r => S (Nat.max (height l) (height r))
  end.

Fixpoint subtrees (t : tree) : list tree :=
  t :: match t with
       | Leaf _ => []
       | Br _ l r => subtrees l ++ subtrees r
       end.

(** The ids from [z] up to the root of [t], both included. *)
Fixpoint up (t : tree) (z : nat) : option (list nat) :=
  if decide (tid t = z) then Some [z] else
  match t with
  | Leaf _ => None
  | Br i l r =>
      match up l z with
      | Some p => Some (p ++ [i])
      | None => (λ p, p ++ [i]) <$> up r z
      end
  end.

(** [cut t K]: the ids [K] cut [t] across, each branch from the root to a
    leaf meeting [K] once. *)
Inductive cut : tree → gset nat → Prop :=
| cut_here t : cut t {[tid t]}
| cut_below i l r Kl Kr : cut l Kl → cut r Kr → cut (Br i l r) (Kl ∪ Kr).

(** [z] is a leaf of the subtree of the node [v] of [t]. *)
Definition covers (t : tree) (v z : nat) : Prop :=
  ∃ s, s ∈ subtrees t ∧ tid s = v ∧ z ∈ leaves s.

(** [w] is a node of the subtree of the node [v] of [t]: [v] is [w] or above. *)
Definition above (t : tree) (v w : nat) : Prop :=
  ∃ s, s ∈ subtrees t ∧ tid s = v ∧ w ∈ ids s.

(** The keys [K] are an antichain of nodes of [t] whose subtrees partition
    the leaves: every leaf is covered by exactly one key. *)
Definition partitions (t : tree) (K : gset nat) : Prop :=
  (∀ v, v ∈ K → v ∈ ids t) ∧
  (∀ v w, v ∈ K → w ∈ K → above t v w → v = w) ∧
  (∀ z, z ∈ leaves t → ∃ v, v ∈ K ∧ covers t v z ∧
                         ∀ w, w ∈ K → covers t w z → w = v).

Section Shape.
Context {A : Arith}.

(** [shape nodes par t]: the arena [nodes] holds [t], linked as
    [_construct_tree] links it, below the parent [par]. *)
Fixpoint shape (nodes : gmap nat (Node.t A)) (par : option nat) (t : tree) : Prop :=
  ∃ nd, nodes !! tid t = Some nd ∧ Node.id nd = tid t ∧ Node.parent nd = par ∧
    match t with
    | Leaf _ => Node.left nd = None ∧ Node.right nd = None ∧ Node.is_leaf nd = true
    | Br i l r =>
        Node.left nd = Some (tid l) ∧ Node.right nd = Some (tid r) ∧
        Node.is_leaf nd = false ∧
        shape nodes (Some i) l ∧ shape nodes (Some i) r
    end.

(** The arena is the tree [t] and nothing else. *)
Definition holds (nodes : gmap nat (Node.t A)) (t : tree) : Prop :=
  NoDup (ids t) ∧ shape nodes None t ∧ dom nodes = list_to_set (ids t).

(** The counters of a node agree: [num_revealed] is the sum of the counts,
    and a label is a key of [class_to_instances] once it was counted. *)
Definition counted (nd : Node.t A) : Prop :=
  Node.num_revealed nd = sum_values (Node.class_to_instances nd) ∧
  ∀ l c, Node.class_to_instances nd !! l = Some c → 0 < c.

Definition all_counted (nodes : gmap nat (Node.t A)) : Prop :=
  ∀ i nd, nodes !! i = Some nd → counted nd.

(** [chain nodes par p]: each id of [p] is followed by the id of its
    parent, and the parent of the last one is [par]. *)
Inductive chain (nodes : gmap nat (Node.t A)) (par : option nat) : list nat → Prop :=
| chain_last c nd :
    nodes !! c = Some nd → Node.parent nd = par → chain nodes par [c]
| chain_cons c c' p :
    parent_id nodes c = Ok c' → chain nodes par (c' :: p) →
    chain nodes par (c :: c' :: p).

(** What a call may change of the sampler besides [nodes] and [pruning]:
    the two sets, and only by adding to them. *)
Definition grows (self self' : HS.t A) : Prop :=
  HS.X_train self' = HS.X_train self ∧
  HS.X_unlabeled self' = HS.X_unlabeled self ∧
  HS.X_merged self' = HS.X_merged self ∧
  HS.y_merged self' = HS.y_merged self ∧
  HS.root self' = HS.root self ∧
  HS.num_leaves self' = HS.num_leaves self ∧
  HS.labels self' = HS.labels self ∧
  HS.beta self' = HS.beta self ∧
  HS.tuning_phase self' = HS.tuning_phase self ∧
  HS.revealed self ⊆ HS.revealed self' ∧
  HS.admissible_set self ⊆ HS.admissible_set self'.

(** The links of a node, which no call changes after [_construct_tree]. *)
Definition links (nd : Node.t A) : nat * option nat * option nat * option nat * bool :=
  (Node.id nd, Node.left nd, Node.right nd, Node.parent nd, Node.is_leaf nd).

(** What [_compute_weights] leaves of a node as it was. *)
Definition frame (nd : Node.t A) :=
  (links nd, Node.class_to_instances nd, Node.num_revealed nd).

(** [visiting nodes0 t E st]: the state [st] of
    [reverse_topological_process], started on the arena [nodes0] of the tree
    [t], while the visits of the nodes [E] are under way.  A node visited
    and not under way has its leaves and its count of them; the others have
    no leaf yet. *)
Definition visiting (nodes0 : gmap nat (Node.t A)) (t : tree) (E : gset nat)
    (st : gset nat * gmap nat (Node.t A)) : Prop :=
  frame <$> st.2 = frame <$> nodes0 ∧
  (∀ s nd, s ∈ subtrees t → tid s ∈ st.1 → tid s ∉ E → st.2 !! tid s = Some nd →
     Node.subtree_leaves nd = leaves s ∧
     Node.weight nd = of_nat (length (leaves s))) ∧
  (∀ v nd, st.2 !! v = Some nd → v ∉ st.1 ∨ v ∈ E → Node.subtree_leaves nd = []).

(** [node.weight /= n] *)
Definition normalized (num_leaves : nat) (nd : Node.t A) : Node.t A :=
  Node.set_weight (Node.weight nd / (f1 * of_nat num_leaves))%py nd.

(** Every entry of [s_v] for a node of [t] holds a cut of its subtree. *)
Definition good_scores (t : tree) (s : gmap nat (F * gmap nat Z)) : Prop :=
  ∀ s', s' ∈ subtrees t → ∀ sc P, s !! tid s' = Some (sc, P) → cut s' (dom P).

(** A node as [Node(node_id)] makes it, but for its links. *)
Definition pristine (nd : Node.t A) : Prop :=
  Node.subtree_leaves nd = [] ∧ Node.class_to_instances nd = ∅ ∧
  Node.num_revealed nd = 0.

(** The arena that [_construct_tree] builds from [n] points and the merges
    [children_]. *)
Definition constructed (n : nat) (children_ : list (nat * nat)) : gmap nat (Node.t A) :=
  mark_leaf <$> merges ∅ n children_.

(** The samplers that a run reaches over the tree [t] that the clustering
    describes: the one in which the tuning phase starts, then the one after
    each call of [sample], and the one that leaves the tuning phase once the
    labeled points are revealed. *)
Inductive reachable (fuel : nat) (t : tree) : HS.t A → Prop :=
| reach_start X_train y_train X_unlabeled y_unlabeled n_leaves_ children_ self :
    before_tuning fuel X_train y_train X_unlabeled y_unlabeled n_leaves_ children_
      = Ok self →
    holds (constructed (length (X_train ++ X_unlabeled)) children_) t →
    height t < fuel →
    reachable fuel t self
| reach_sample self tape self' r tape' :
    reachable fuel t self →
    sample fuel self tape = Ok (self', r, tape') →
    reachable fuel t self'
| reach_active self :
    reachable fuel t self →
    (∀ i, i < length (HS.X_train self) → i ∈ HS.revealed self) →
    reachable fuel t (HS.set_tuning_phase false self).

(** What every reachable sampler satisfies. *)
Definition sound (fuel : nat) (t : tree) (self : HS.t A) : Prop :=
  height t < fuel ∧
  holds (HS.nodes self) t ∧
  (∀ s nd, s ∈ subtrees t → HS.nodes self !! tid s = Some nd →
     Node.subtree_leaves nd = leaves s) ∧
  all_counted (HS.nodes self) ∧
  cut t (dom (HS.pruning self)) ∧
  HS.labels self = list_to_set (HS.y_merged self) ∧
  (∀ v l, (v, l) ∈ HS.admissible_set self → v ∈ ids t ∧ l ∈ HS.labels self) ∧
  (HS.tuning_phase self = false →
   ∀ i, i < length (HS.X_train self) → i ∈ HS.revealed self).

(** Two points merged: ids 0 and 1 below the root 2. *)
Definition two_points : gmap nat (Node.t A) :=
  mark_leaf <$> merges ∅ 2 [(0, 1)].

End Shape.

(** ** The estimates, in the words of the specification *)

Section Formulas.
Implicit Types (nd : Node.t real_arith).

(** [count(node, label)] *)
Definition count_of nd (label : Z) : nat :=
  default 0 (Node.class_to_instances nd !! label).

(** The empirical estimate: [count / num_revealed] when
    [num_revealed > 0], else 0. *)
Definition estimate_p nd (label : Z) : R :=
  if decide (0 < Node.num_revealed nd)
  then (INR (count_of nd label) / INR (Node.num_revealed nd))%R
  else 0%R.

(** The confidence radius: [1/n + sqrt(p(1-p)/n)] when [n > 0], else 0. *)
Definition radius nd (label : Z) : R :=
  let n := Node.num_revealed nd in
  let p := estimate_p nd label in
  if decide (0 < n) then (1 / INR n + sqrt (p * (1 - p) / INR n))%R else 0%R.

(** The bounds: [max(p - delta, 0)] and [min(p + delta, 1)], and 0 and 1 on
    a node that observed nothing. *)
Definition lower_bound nd (label : Z) : R :=
  if decide (Node.num_revealed nd = 0) then 0%R
  else Rmax (estimate_p nd label - radius nd label) 0.

Definition upper_bound nd (label : Z) : R :=
  if decide (Node.num_revealed nd = 0) then 1%R
  else Rmin (estimate_p nd label + radius nd label) 1.

End Formulas.

(** ** Runs on IEEE floats *)

Definition no_sampler : HS.t float_arith :=
  @HS.mk float_arith [] [] [] [] 0 ∅ 0 ∅ ∅ ∅ ∅ 2%float true.

(** The sampler of an outcome ([no_sampler] when there is none). *)
Definition sampler_of {X} (r : res (HS.t float_arith * X)) : HS.t float_arith :=
  match r with Ok (self, _) => self | _ => no_sampler end.

(** Two unlabeled points and no labeled one. *)
Definition demo2 : HS.t float_arith := Eval vm_compute in
  sampler_of (__init__ (A:=float_arith) 5 [] [] [[0%float]; [1%float]]
                       [10%Z; 20%Z] 2 [(0, 1)] []).

Definition demo2_sampled : HS.t float_arith := Eval vm_compute in
  sampler_of (sample_times 5 1 demo2 [Draws 0 0 1]).

(** Two labeled and two unlabeled points, as in the scenario of the
    specification: merges (0,1)->4, (2,3)->5, (4,5)->6. *)
Definition demo4_tape : list draws := [Draws 0 0 0; Draws 0 0 0].

Definition demo4 : HS.t float_arith := Eval vm_compute in
  sampler_of (__init__ (A:=float_arith) 5 [[0%float]; [1%float]] [0%Z; 0%Z]
                       [[2%float]; [3%float]] [1%Z; 1%Z]
                       4 [(0, 1); (2, 3); (4, 5)] demo4_tape).




Definition demo2_root : Node.t float_arith := Eval vm_compute in
  default (Node.new 2) (HS.nodes demo2 !! 2).

(** The sampler of two unlabeled points as its tuning phase starts. *)
Definition demo2_start : HS.t float_arith := Eval vm_compute in
  match before_tuning (A:=float_arith) 5 [] [] [[0%float]; [1%float]]
                      [10%Z; 20%Z] 2 [(0, 1)] with
  | Ok self => self
  | _ => no_sampler
  end.

Definition demo2_updated : HS.t float_arith := Eval vm_compute in
  match _update 5 demo2 [0; 2] [10%Z] with Ok self => self | _ => no_sampler end.

Definition demo4_root : Node.t float_arith := Eval vm_compute in
  default (Node.new 6) (HS.nodes demo4 !! 6).

(** ** The tree that a merge list describes *)

(** One row of [children_] read as a step on a forest: the two children,
    each a root of the forest or an id not seen yet (a point), become the
    subtrees of the new root [ii].  A row that names an id twice, or an id
    that is already below a root, describes no tree. *)
Definition graft (f : gmap nat tree) (seen : gset nat) (ii : nat) (c : nat * nat)
  : option (gmap nat tree * gset nat) :=
  let '(l, r) := c in
  if decide (l ≠ r ∧ l ≠ ii ∧ r ≠ ii ∧ ii ∉ seen ∧
             (l ∈ seen → l ∈ dom f) ∧ (r ∈ seen → r ∈ dom f))
  then Some (<[ii := Br ii (default (Leaf l) (f !! l)) (default (Leaf r) (f !! r))]>
               (delete r (delete l f)),
             seen ∪ {[l; r; ii]})
  else None.

Fixpoint grafts (f : gmap nat tree) (seen : gset nat) (ii : nat)
    (children_ : list (nat * nat)) : option (gmap nat tree) :=
  match children_ with
  | [] => Some f
  | c :: cs =>
      match graft f seen ii c with
      | Some (f, seen) => grafts f seen (S ii) cs
      | None => None
      end
  end.

(** The tree of the merges [children_] over [n] points, when they leave one
    root. *)
Definition tree_of (n : nat) (children_ : list (nat * nat)) : option tree :=
  match grafts ∅ ∅ n children_ with
  | Some f => match map_to_list f with [(_, t)] => Some t | _ => None end
  | None => None
  end.





(** [demo4] after two calls of [sample], which reveal its two unlabeled
    points: the pruning has split into the keys 4 and 5. *)
Definition demo4_split : HS.t float_arith := Eval vm_compute in
  sampler_of (sample_times 5 2 demo4 [Draws 0 0 0; Draws 0 0 0]).

Definition demo4_tree : tree :=
  Br 6 (Br 4 (Leaf 0) (Leaf 1)) (Br 5 (Leaf 2) (Leaf 3)).

(** A sampler in real arithmetic whose one node counted the label 10 twice
    and the label 20 once. *)
Definition counted_node : Node.t real_arith :=
  @Node.mk real_arith 0 None None None true (Fin 1) [0]
           {[10%Z := 2; 20%Z := 1]} 3.

Definition counted_real : HS.t real_arith :=
  @HS.mk real_arith [] [] [] [] 0 {[0 := counted_node]} 1 {[0 := 10%Z]}
         {[10%Z; 20%Z]} ∅ ∅ (Fin 2) false.

(** ** Predicates on the state of a run *)

Section Progress.
Context {A : Arith}.

(** A point that [_pick_sample_id_from_node] may pick: not revealed yet,
    labeled in the tuning phase and unlabeled after it. *)
Definition eligible (self : HS.t A) (z : nat) : Prop :=
  z ∉ HS.revealed self ∧
  z < length (HS.X_train self) + length (HS.X_unlabeled self) ∧
  if HS.tuning_phase self then z < length (HS.X_train self)
  else length (HS.X_train self) ≤ z.

(** [scoring t E st]: the state [st] of [bottom_up_compute] over the tree
    [t] while the visits of the nodes [E] are under way: a node visited and
    not under way has its entry in [s_v]. *)
Definition scoring (t : tree) (E : gset nat) (st : bu_state (A:=A)) : Prop :=
  ∀ s, s ∈ subtrees t → tid s ∈ bu_visited st → tid s ∉ E →
       is_Some (s_v st !! tid s).

(** Every leaf of the tree is the index of a point of the arrays. *)
Definition indexed (t : tree) (self : HS.t A) : Prop :=
  ∀ z, z ∈ leaves t →
    z < length (HS.X_train self) + length (HS.X_unlabeled self) ∧
    z < length (HS.X_merged self) ∧ z < length (HS.y_merged self).

(** Every pruning kept in [s_v] gives its nodes labels of the problem. *)
Definition labelled (self : HS.t A) (s : gmap nat (F * gmap nat Z)) : Prop :=
  ∀ v sc P w lab, s !! v = Some (sc, P) → P !! w = Some lab → lab ∈ HS.labels self.

(** What counting a label leaves of a node. *)
Definition structure (nd : Node.t A) :=
  (links nd, Node.weight nd, Node.subtree_leaves nd).

(** [grown nodes f seen]: the arena [nodes] after some merges holds the
    forest [f], whose trees are apart and cover the ids [seen] of the
    arena. *)
Definition grown (nodes : gmap nat (Node.t A)) (f : gmap nat tree)
    (seen : gset nat) : Prop :=
  dom nodes = seen ∧
  (∀ i t, f !! i = Some t →
     tid t = i ∧ NoDup (ids t) ∧ shape (mark_leaf <$> nodes) None t ∧
     ∀ w, w ∈ ids t → w ∈ seen) ∧
  (∀ i j t t' w, f !! i = Some t → f !! j = Some t' →
     w ∈ ids t → w ∈ ids t' → i = j) ∧
  (∀ w, w ∈ seen → ∃ i t, f !! i = Some t ∧ w ∈ ids t).

End Progress.

(** * [MarginSampling.py] *)

(** The fields of a [MarginSampler] that [sample] reads and writes.
    [sample_indices] is the result of [np.argsort(self.margins)], made once
    by [__init__] from the posteriors of a fitted model. *)
Module MarginSampler.
Section Rec.
Context {A : Arith}.

Record t := mk {
  X_unlabeled : list (list F);
  y_unlabeled : list Z;
  sample_indices : list nat;
  num_sampled : nat
}.

Definition set_num_sampled (v : nat) (s : t) : t :=
  mk (X_unlabeled s) (y_unlabeled s) (sample_indices s) v.

(** [sample]: the point at the next index, and the counter moved on. *)
Definition sample (self : t) : res (t * (list F * Z)) :=
  sample_idx ← of_option IndexError (sample_indices self !! num_sampled self);
  let self := set_num_sampled (S (num_sampled self)) self in
  x ← of_option IndexError (X_unlabeled self !! sample_idx);
  y ← of_option IndexError (y_unlabeled self !! sample_idx);
  Ok (self, (x, y)).

(** [k] calls of [sample] one after the other, as the loop of [run_test]
    makes them, with what they return. *)
Fixpoint samples (k : nat) (self : t) : res (t * list (list F * Z)) :=
  match k with
  | 0 => Ok (self, [])
  | S k =>
      '(self, xy) ← sample self;
      '(self, out) ← samples k self;
      Ok (self, xy :: out)
  end.

End Rec.
Arguments t : clear implicits.
End MarginSampler.

(** A sampler over three points, the second with the least margin. *)
Definition margin3 : MarginSampler.t float_arith :=
  @MarginSampler.mk float_arith [[0%float]; [1%float]; [2%float]] [5%Z; 6%Z; 7%Z]
                    [1; 2; 0] 0.

(** A sampler in real arithmetic over a problem with the one label 7. *)
Definition one_label_real : HS.t real_arith :=
  @HS.mk real_arith [] [] [] [] 0 ∅ 0 ∅ {[7%Z]} ∅ ∅ (Fin 2) false.

(** * Properties *)

(** ** Outcomes and loops *)

Lemma bind_Ok {X Y} (m : res X) (f : X → res Y) (y : Y) :
  m ≫= f = Ok y → ∃ x, m = Ok x ∧ f x = Ok y.
Proof. destruct m; simpl; [eauto | done..]. Qed.

Lemma of_option_Ok {X} e (o : option X) x : of_option e o = Ok x → o = Some x.
Proof. destruct o; simpl; congruence. Qed.

Ltac inv_res :=
  repeat match goal with
  | H : Raise _ = Ok _ |- _ => discriminate H
  | H : Diverge = Ok _ |- _ => discriminate H
  | H : Ok _ = Ok _ |- _ => injection H as H; try subst
  | H : _ ≫= _ = Ok _ |- _ =>
      let x := fresh "x" in let Hx := fresh "Hx" in
      apply bind_Ok in H as (x & Hx & H)
  | H : of_option _ _ = Ok _ |- _ => apply of_option_Ok in H
  end.

(** An invariant of the body of a loop is one of the loop. *)
Lemma for_each_inv {S X} (P : S → Prop) (body : S → X → res S) xs st st' :
  (∀ s x s', x ∈ xs → P s → body s x = Ok s' → P s') →
  P st → for_each body xs st = Ok st' → P st'.
Proof.
  revert st. induction xs as [|x xs IH]; simpl; intros st Hb HP H.
  - by inv_res.
  - inv_res. eapply IH; [| |done].
    + intros ????; apply Hb. by right.
    + eapply Hb; [by left|done..].
Qed.

(** A loop whose body cannot fail on a state of the invariant does not fail. *)
Lemma for_each_total {S X} (P : S → Prop) (body : S → X → res S) xs st :
  (∀ s x, x ∈ xs → P s → ∃ s', body s x = Ok s' ∧ P s') →
  P st → ∃ st', for_each body xs st = Ok st' ∧ P st'.
Proof.
  revert st. induction xs as [|x xs IH]; simpl; intros st Hb HP; [eauto|].
  destruct (Hb st x) as (s' & -> & HP'); [by left|done|]. simpl.
  apply IH; [|done]. intros ????; apply Hb; [by right|done].
Qed.

Section CountProps.
Context {A : Arith}.
Implicit Types (nodes : gmap nat (Node.t A)) (nd : Node.t A).

(** ** Counters *)

Lemma sum_values_insert (d : gmap Z nat) l c :
  sum_values (<[l := c]> d) + default 0 (d !! l) = c + sum_values d.
Proof.
  unfold sum_values.
  assert (Hcomm : ∀ (m : gmap Z nat) (j1 j2 : Z) (z1 z2 y : nat),
    j1 ≠ j2 → m !! j1 = Some z1 → m !! j2 = Some z2 →
    z1 + (z2 + y) = z2 + (z1 + y)) by (intros; lia).
  destruct (d !! l) as [c0|] eqn:Hl; simpl.
  - rewrite <- (insert_delete_eq d).
    rewrite map_fold_insert_L; [|by eauto|by rewrite lookup_delete_eq].
    rewrite (map_fold_delete_L _ _ l c0 d); [lia|by eauto|done].
  - rewrite map_fold_insert_L; [lia|by eauto|done].
Qed.

Lemma sum_values_lookup (d : gmap Z nat) l c :
  d !! l = Some c → c ≤ sum_values d.
Proof.
  intros Hl. unfold sum_values.
  rewrite (map_fold_delete_L _ _ l c d); [lia|intros; lia|done].
Qed.

Lemma counted_le nd l c :
  counted nd → Node.class_to_instances nd !! l = Some c →
  0 < c ≤ Node.num_revealed nd.
Proof.
  intros [Hn Hpos] Hc. pose proof (sum_values_lookup _ _ _ Hc).
  apply Hpos in Hc. lia.
Qed.

(** A node that counted nothing has no label in [class_to_instances]. *)
Lemma counted_nothing nd :
  counted nd → Node.num_revealed nd = 0 → Node.class_to_instances nd = ∅.
Proof.
  intros Hcnt H0. apply map_empty. intros l.
  destruct (Node.class_to_instances nd !! l) as [c|] eqn:Hc; [|done].
  pose proof (counted_le _ _ _ Hcnt Hc). lia.
Qed.

Lemma count_one_counted l nd : counted nd → counted (count_one l nd).
Proof.
  intros [Hn Hpos]. split; simpl.
  - pose proof (sum_values_insert (Node.class_to_instances nd) l
                  (S (default 0 (Node.class_to_instances nd !! l)))). lia.
  - intros l' c. rewrite lookup_insert. case_decide; [intros [= <-]; lia|eauto].
Qed.

Lemma count_at_counted l nodes i nodes' :
  all_counted nodes → count_at l nodes i = Ok nodes' → all_counted nodes'.
Proof.
  unfold count_at. intros Hall H. inv_res.
  intros j nd. rewrite lookup_insert. case_decide.
  - intros [= <-]. eauto using count_one_counted.
  - apply Hall.
Qed.

Lemma update_counts_counted fuel nodes l z v nodes' :
  all_counted nodes → update_counts fuel nodes l z v = Ok nodes' →
  all_counted nodes'.
Proof.
  unfold update_counts. intros Hall H. inv_res.
  eapply (for_each_inv all_counted); [|done..].
  eauto using count_at_counted.
Qed.

Lemma new_counted nd :
  Node.class_to_instances nd = ∅ → Node.num_revealed nd = 0 → counted nd.
Proof.
  intros Hc Hn. split.
  - by rewrite Hc, Hn.
  - intros l c. by rewrite Hc, lookup_empty.
Qed.

(** C10.  Start from nodes whose counters are as [Node(node_id)] leaves
    them, an empty [class_to_instances] and [num_revealed = 0].  After any
    sequence of calls of [update_counts], at every node [num_revealed] is the
    sum of the values of [class_to_instances]. *)
Theorem num_revealed_is_sum_of_counts fuel nodes calls nodes' :
  (∀ i nd, nodes !! i = Some nd →
     Node.class_to_instances nd = ∅ ∧ Node.num_revealed nd = 0) →
  update_counts_seq fuel nodes calls = Ok nodes' →
  ∀ i nd, nodes' !! i = Some nd →
    Node.num_revealed nd = sum_values (Node.class_to_instances nd).
Proof.
  intros Hnew Hrun i nd Hi.
  assert (all_counted nodes') as Hall; [|by destruct (Hall i nd Hi)].
  eapply (for_each_inv all_counted); [| |exact Hrun].
  - intros s [[l z] v] s' _. apply update_counts_counted.
  - intros j nd' Hj. destruct (Hnew j nd' Hj). by apply new_counted.
Qed.

End CountProps.

Section PathProps.
Context {A : Arith}.
Implicit Types (nodes : gmap nat (Node.t A)) (nd : Node.t A) (t s : tree).

(** ** Paths to the root *)

Lemma tid_in_ids t : tid t ∈ ids t.
Proof. destruct t; simpl; left. Qed.

Lemma up_None t z : z ∉ ids t → up t z = None.
Proof.
  induction t as [i|i l IHl r IHr]; simpl; intros Hz.
  - case_decide; [set_solver|done].
  - case_decide; [set_solver|].
    rewrite IHl, IHr by set_solver. done.
Qed.

Lemma up_Some t z : z ∈ ids t → is_Some (up t z).
Proof.
  induction t as [i|i l IHl r IHr]; simpl; intros Hz.
  - case_decide; [eauto|set_solver].
  - case_decide; [eauto|].
    destruct (up l z) eqn:Hl; [eauto|].
    assert (z ∈ ids r) as Hr.
    { destruct (decide (z ∈ ids l)) as [Hin|]; [|set_solver].
      apply IHl in Hin as [??]; congruence. }
    destruct (IHr Hr) as [p ->]. eauto.
Qed.

(** A path starts at [z], ends at the root, and stays inside the tree. *)
Lemma up_spec t z p :
  up t z = Some p →
  ∃ pre, p = pre ++ [tid t] ∧ head p = Some z ∧ length pre ≤ height t ∧
         (∀ c, c ∈ p → c ∈ ids t).
Proof.
  revert p. induction t as [i|i l IHl r IHr]; simpl; intros p.
  - case_decide as Hz; [|done]. intros [= <-]. exists []. subst.
    split_and!; [done|done|simpl; lia|set_solver].
  - case_decide as Hz.
    { intros [= <-]. exists []. subst.
      split_and!; [done|done|simpl; lia|set_solver]. }
    assert (∀ s q, (∀ p, up s z = Some p → ∃ pre, p = pre ++ [tid s] ∧
                      head p = Some z ∧ length pre ≤ height s ∧
                      (∀ c, c ∈ p → c ∈ ids s)) →
              height s ≤ Nat.max (height l) (height r) →
              (∀ c, c ∈ ids s → c ∈ ids l ++ ids r) →
              up s z = Some q →
              ∃ pre, q ++ [i] = pre ++ [i] ∧ head (q ++ [i]) = Some z ∧
                     length pre ≤ S (Nat.max (height l) (height r)) ∧
                     (∀ c, c ∈ q ++ [i] → c ∈ i :: ids l ++ ids r)) as Hsub.
    { intros s q IH Hh Hids Hq. destruct (IH q Hq) as (pre & -> & Hhd & Hlen & Hin).
      exists (pre ++ [tid s]). split_and!; [done| |rewrite length_app; simpl; lia|].
      - destruct pre; simpl in *; done.
      - intros c [Hc| ->%list_elem_of_singleton]%elem_of_app; [|by left].
        right. eauto. }
    destruct (up l z) as [q|] eqn:Hl.
    + intros [= <-]. apply (Hsub l q); [by rewrite Hl|lia|set_solver|done].
    + destruct (up r z) as [q|] eqn:Hr; [|done].
      intros [= <-]. apply (Hsub r q); [by rewrite Hr|lia|set_solver|done].
Qed.

(** The path from inside a subtree passes through the root of the subtree. *)
Lemma up_subtree t s z :
  NoDup (ids t) → s ∈ subtrees t → z ∈ ids s →
  ∃ p post, up s z = Some p ∧ up t z = Some (p ++ post).
Proof.
  induction t as [i|i l IHl r IHr]; intros Hnd Hs Hz.
  - simpl in Hs. apply list_elem_of_singleton in Hs as ->.
    destruct (up_Some _ _ Hz) as [p Hp]. exists p, []. by rewrite app_nil_r.
  - simpl in Hs. apply elem_of_cons in Hs as [->|Hs].
    { destruct (up_Some _ _ Hz) as [p Hp]. exists p, []. by rewrite app_nil_r. }
    simpl in Hnd. apply NoDup_cons in Hnd as [Hi Hnd].
    apply NoDup_app in Hnd as (Hndl & Hlr & Hndr).
    assert (∀ t', s ∈ subtrees t' → z ∈ ids t') as Hsub.
    { clear -Hz. intros t'. revert s Hz.
      induction t' as [j|j l' IHl' r' IHr']; simpl; intros s Hz Hs.
      - apply list_elem_of_singleton in Hs as ->. done.
      - apply elem_of_cons in Hs as [->|[Hs|Hs]%elem_of_app]; [done|..].
        + right. apply elem_of_app; left. eauto.
        + right. apply elem_of_app; right. eauto. }
    apply elem_of_app in Hs as [Hs|Hs].
    + destruct (IHl Hndl Hs Hz) as (p & post & Hp & Hup).
      exists p, (post ++ [i]). split; [done|]. simpl.
      rewrite decide_False; [|intros ->; apply Hi, elem_of_app; left; eauto].
      rewrite Hup. by rewrite app_assoc.
    + destruct (IHr Hndr Hs Hz) as (p & post & Hp & Hup).
      exists p, (post ++ [i]). split; [done|]. simpl.
      rewrite decide_False; [|intros ->; apply Hi, elem_of_app; right; eauto].
      rewrite (up_None l z); [|intros Hzl; eapply Hlr; eauto].
      rewrite Hup. simpl. by rewrite app_assoc.
Qed.

Lemma chain_snoc nodes p i nd par' :
  chain nodes (Some i) p → nodes !! i = Some nd → Node.parent nd = par' →
  chain nodes par' (p ++ [i]).
Proof.
  intros Hc Hi Hp. induction Hc as [c nd' Hc Hpar|c c' p Hcc Hc IH]; simpl.
  - apply chain_cons; [|by eapply chain_last].
    unfold parent_id. by rewrite Hc; simpl; rewrite Hpar.
  - by apply chain_cons.
Qed.

Lemma shape_root nodes par t :
  shape nodes par t → ∃ nd, nodes !! tid t = Some nd ∧ Node.parent nd = par.
Proof. destruct t; simpl; intros (nd & ? & ? & ? & _); eauto. Qed.

Lemma up_chain nodes par t z p :
  shape nodes par t → up t z = Some p → chain nodes par p.
Proof.
  revert par p. induction t as [i|i l IHl r IHr]; intros par p Hsh; simpl.
  - case_decide; [|done]. intros [= <-]. subst.
    destruct (shape_root _ _ _ Hsh) as (nd & ? & ?). by eapply chain_last.
  - case_decide.
    { intros [= <-]. subst.
      destruct (shape_root _ _ _ Hsh) as (nd & ? & ?). by eapply chain_last. }
    destruct Hsh as (nd & Hnd & _ & Hpar & _ & _ & _ & Hl & Hr).
    destruct (up l z) as [q|] eqn:Hq.
    + intros [= <-]. eapply chain_snoc; eauto.
    + destruct (up r z) as [q'|] eqn:Hq'; [|done].
      intros [= <-]. eapply chain_snoc; eauto.
Qed.

(** ** The walk of [_get_upward_path] *)

(** At the root the walk stays: reading the parent fails and [cur] is
    assigned the root again. *)
Lemma upward_loop_stuck fuel nodes v trail c nd :
  nodes !! c = Some nd → Node.parent nd = None → c ≠ v →
  upward_loop fuel nodes v trail c c = Diverge.
Proof.
  intros Hc Hp Hv. revert trail.
  induction fuel as [|fuel IH]; intros trail; simpl.
  - by rewrite decide_False.
  - rewrite decide_False by done.
    unfold parent_id. rewrite Hc; simpl. rewrite Hp; simpl. apply IH.
Qed.

Lemma upward_loop_diverges fuel nodes v trail c p c' :
  chain nodes None (c :: p) → v ∉ c :: p →
  match parent_id nodes c with Ok q => q | _ => c end = c' →
  upward_loop fuel nodes v trail c c' = Diverge.
Proof.
  intros Hch. revert fuel trail c'. remember (c :: p) as cp eqn:Hcp.
  revert c p Hcp.
  induction Hch as [c0 nd Hc Hpar|c0 c1 p' Hcc Hch IH];
    intros c p Heq fuel trail c' Hv <-; injection Heq as -> <-.
  - unfold parent_id. rewrite Hc; simpl. rewrite Hpar; simpl.
    eapply upward_loop_stuck; eauto. set_solver.
  - rewrite Hcc. destruct fuel as [|fuel]; simpl.
    + rewrite decide_False; [done|set_solver].
    + rewrite decide_False by set_solver.
      eapply IH; [done|by intros ?; apply Hv; right|done].
Qed.

Lemma upward_loop_reaches fuel nodes par v trail pre post c c' :
  chain nodes par (pre ++ v :: post) → v ∉ pre →
  head (pre ++ [v]) = Some c →
  match parent_id nodes c with Ok q => q | _ => c end = c' →
  length pre ≤ fuel →
  upward_loop fuel nodes v trail c c' = Ok (trail ++ tail (pre ++ [v])).
Proof.
  revert fuel trail c c'. induction pre as [|a pre IH]; intros fuel trail c c' Hch Hv Hhd Hc' Hf.
  - simpl in *. injection Hhd as <-.
    destruct fuel; simpl; rewrite decide_True by done; by rewrite app_nil_r.
  - simpl in Hhd. injection Hhd as <-. simpl in Hch.
    assert (∃ b, head (pre ++ [v]) = Some b ∧ head (pre ++ v :: post) = Some b)
      as (b & Hb & Hb') by (destruct pre; simpl; eauto).
    destruct (pre ++ v :: post) as [|b' rest] eqn:Hrest; [done|].
    simpl in Hb'. injection Hb' as ->.
    inversion Hch as [|? ? ? Hcc Hch']; subst.
    rewrite Hcc. destruct fuel as [|fuel]; [simpl in Hf; lia|]. simpl.
    rewrite decide_False by set_solver.
    erewrite IH; [|exact Hch'|set_solver|done|done|simpl in Hf; lia].
    rewrite <- app_assoc. f_equal. simpl.
    destruct pre; simpl in *; congruence.
Qed.

(** For a node [z] other than the root and a node [v] that is not on the
    path from [z] to the root, [_get_upward_path(z, v)] never returns and
    never raises: whatever the budget, the loop is still running. *)
Lemma _get_upward_path_diverges nodes t z v p fuel :
  holds nodes t → up t z = Some p → z ≠ tid t → v ∉ p →
  _get_upward_path fuel nodes z v = Diverge.
Proof.
  intros (Hnd & Hsh & _) Hup Hz Hv.
  pose proof (up_chain _ _ _ _ _ Hsh Hup) as Hch.
  destruct (up_spec _ _ _ Hup) as (pre & -> & Hhd & _ & _).
  destruct pre as [|c pre]; simpl in Hhd; [congruence|]. injection Hhd as ->.
  simpl in Hch, Hv. destruct (pre ++ [tid t]) as [|c' rest] eqn:Hrest.
  { destruct pre; done. }
  inversion Hch as [|? ? ? Hcc Hch']; subst.
  unfold _get_upward_path. rewrite Hcc. simpl.
  eapply upward_loop_diverges; [exact Hch|done|by rewrite Hcc].
Qed.

(** For a node [z] other than the root and a node [v] on the path from [z]
    to the root, [_get_upward_path(z, v)] is the path from [z] to [v]. *)
Lemma _get_upward_path_ancestor nodes t z v pre post fuel :
  holds nodes t → up t z = Some (pre ++ v :: post) → v ∉ pre → z ≠ tid t →
  length pre ≤ fuel →
  _get_upward_path fuel nodes z v = Ok (pre ++ [v]).
Proof.
  intros (Hnd & Hsh & _) Hup Hv Hz Hf.
  pose proof (up_chain _ _ _ _ _ Hsh Hup) as Hch.
  destruct (up_spec _ _ _ Hup) as (pre' & Hp & Hhd & _ & _).
  assert (head (pre ++ [v]) = Some z) as Hhd'.
  { destruct pre; simpl in *; done. }
  assert (∃ c', parent_id nodes z = Ok c') as [c' Hc'].
  { destruct (pre ++ v :: post) as [|a [|b rest]] eqn:Hl; [done|..].
    - destruct pre' as [|? [|??]]; simplify_eq/=. 
    - simpl in Hhd. injection Hhd as ->. inversion Hch; subst. eauto. }
  unfold _get_upward_path. rewrite Hc'. simpl.
  erewrite upward_loop_reaches; [|exact Hch|done|done|by rewrite Hc'|done].
  simpl. destruct pre; simpl in *; congruence.
Qed.

(** At the root [_get_upward_path] fails on its first line, whatever [v]. *)
Lemma _get_upward_path_root nodes t v fuel :
  holds nodes t → _get_upward_path fuel nodes (tid t) v = Raise AttributeError.
Proof.
  intros (_ & Hsh & _). destruct (shape_root _ _ _ Hsh) as (nd & Hnd & Hp).
  unfold _get_upward_path, parent_id. rewrite Hnd; simpl. by rewrite Hp.
Qed.

End PathProps.

Section SamplerProps.
Context {A : Arith}.
Implicit Types (self : HS.t A) (nodes : gmap nat (Node.t A)) (nd : Node.t A).

(** ** What each step changes *)

Lemma grows_refl self : grows self self.
Proof. by repeat split. Qed.

Lemma grows_trans self1 self2 self3 :
  grows self1 self2 → grows self2 self3 → grows self1 self3.
Proof.
  unfold grows. intros H1 H2. destruct_and!.
  split_and!; try congruence; set_solver.
Qed.

Lemma scan_leaves_inl self ls acc z :
  scan_leaves self ls acc = Ok (inl z) →
  z ∈ ls ∧ (z ∉ HS.revealed self) ∧ _is_unlabeled self z = Ok false ∧
  HS.tuning_phase self = true.
Proof.
  revert acc. induction ls as [|x ls IH]; simpl; intros acc H; [by inv_res|].
  case_decide as Hx.
  - apply IH in H as (? & ? & ? & ?). split_and!; [by right|done..].
  - destruct (_is_unlabeled self x) as [[]| |] eqn:Hu; simpl in H; [|..|done|done].
    + apply IH in H as (? & ? & ? & ?). split_and!; [by right|done..].
    + destruct (HS.tuning_phase self) eqn:Ht; [|done].
      inv_res. split_and!; [by left|done..].
Qed.

Lemma scan_leaves_inr self ls acc sample_ids :
  scan_leaves self ls acc = Ok (inr sample_ids) →
  (∀ x, x ∈ sample_ids ↔ x ∈ acc ∨ (x ∈ ls ∧ x ∉ HS.revealed self)) ∧
  (∀ x, x ∈ ls → x ∉ HS.revealed self → _is_unlabeled self x = Ok true).
Proof.
  revert acc. induction ls as [|x ls IH]; simpl; intros acc H.
  - inv_res. split; [|set_solver]. intros x. set_solver.
  - case_decide as Hx.
    + apply IH in H as [H1 H2]. split.
      * intros y. rewrite H1. set_solver.
      * intros y [->|Hy]%elem_of_cons; [done|eauto].
    + destruct (_is_unlabeled self x) as [[]| |] eqn:Hu; simpl in H; [|..|done|done].
      * apply IH in H as [H1 H2]. split.
        -- intros y. rewrite H1. rewrite elem_of_app, list_elem_of_singleton.
           rewrite elem_of_cons. naive_solver.
        -- intros y [->|Hy]%elem_of_cons; [done|eauto].
      * destruct (HS.tuning_phase self); by inv_res.
Qed.

(** What [_pick_sample_id_from_node] returns and does, case by case. *)
Lemma _pick_sample_id_from_node_spec self node_id d self' oz :
  _pick_sample_id_from_node self node_id d = Ok (self', oz) →
  ∃ nd, HS.nodes self !! node_id = Some nd ∧
  ((∃ z, oz = Some z ∧ self' = reveal z self ∧
         scan_leaves self (Node.subtree_leaves nd) [] = Ok (inl z)) ∨
   (∃ sample_ids, scan_leaves self (Node.subtree_leaves nd) [] = Ok (inr sample_ids) ∧
      ((oz = None ∧ self' = self ∧
        (HS.tuning_phase self = true ∨ sample_ids = [])) ∨
       (∃ unlabeled_id z, HS.tuning_phase self = false ∧
          choice sample_ids (d_reveal d) = Some unlabeled_id ∧
          choice sample_ids (d_return d) = Some z ∧
          oz = Some z ∧ self' = reveal unlabeled_id self)))).
Proof.
  unfold _pick_sample_id_from_node. intros H. inv_res.
  eexists; split; [done|]. destruct x0 as [z|sample_ids].
  - inv_res. left. eauto.
  - right. exists sample_ids. split; [done|].
    destruct (HS.tuning_phase self) eqn:Ht; simpl in H.
    { inv_res. left. eauto. }
    case_bool_decide as Hlen; simpl in H.
    { inv_res. left. split_and!; [done..|]. right. by destruct sample_ids. }
    inv_res. right. eauto 10.
Qed.

Lemma reveal_grows z self : grows self (reveal z self).
Proof. unfold grows, reveal; simpl. split_and!; try done. set_solver. Qed.

Lemma _pick_sample_id_from_node_grows self node_id d self' oz :
  _pick_sample_id_from_node self node_id d = Ok (self', oz) →
  grows self self' ∧ HS.nodes self' = HS.nodes self ∧
  HS.pruning self' = HS.pruning self ∧
  HS.admissible_set self' = HS.admissible_set self.
Proof.
  intros H. apply _pick_sample_id_from_node_spec in H
    as (nd & _ & [(z & _ & -> & _)|(ids & _ & [(_ & -> & _)|(u & z & _ & _ & _ & _ & ->)])]);
    eauto using reveal_grows, grows_refl.
Qed.

Lemma admit_pairs_spec self lb ub update_nodes update_labels self' :
  admit_pairs self lb ub update_nodes update_labels = Ok self' →
  ∃ adm, self' = HS.set_admissible_set adm self ∧ HS.admissible_set self ⊆ adm.
Proof.
  unfold admit_pairs.
  set (P := λ s : HS.t A, ∃ adm, s = HS.set_admissible_set adm self ∧
                                   HS.admissible_set self ⊆ adm).
  intros H. eapply (for_each_inv P); [| |exact H].
  - intros s node_id s' _ Hs Hbody.
    eapply (for_each_inv P); [| |exact Hbody]; [|done].
    intros s1 label s2 _ (adm & -> & Hadm) Hb. inv_res.
    destruct x; inv_res.
    + eexists; split; [done|]. simpl. set_solver.
    + eexists; split; done.
  - exists (HS.admissible_set self). split; [by destruct self|done].
Qed.

Lemma _update_spec fuel self update_nodes update_labels self' :
  _update fuel self update_nodes update_labels = Ok self' →
  ∃ adm pruning, self' = HS.set_pruning pruning (HS.set_admissible_set adm self) ∧
                 HS.admissible_set self ⊆ adm.
Proof.
  unfold _update. intros H. inv_res. destruct x as [p_vl delta lb ub]. inv_res.
  apply admit_pairs_spec in Hx0 as (adm & -> & Hadm). eauto.
Qed.

Lemma _update_grows fuel self update_nodes update_labels self' :
  _update fuel self update_nodes update_labels = Ok self' →
  grows self self' ∧ HS.nodes self' = HS.nodes self ∧
  HS.revealed self' = HS.revealed self.
Proof.
  intros H. apply _update_spec in H as (adm & pruning & -> & Hadm).
  unfold grows; simpl. by split_and!.
Qed.

Lemma set_nodes_grows nodes self : grows self (HS.set_nodes nodes self).
Proof. unfold grows; simpl. by split_and!. Qed.

(** One successful run of the loop of [sample]: the last turn picked [z_id]
    under [v_id], after turns that changed nothing. *)
Lemma sample_loop_spec fuel self tape self' z_id tape' :
  sample_loop fuel self tape = Ok (self', z_id, tape') →
  ∃ d v_id self1 z_label nodes path skipped,
    tape = skipped ++ d :: tape' ∧
    _select self (d_select d) = Ok v_id ∧
    _pick_sample_id_from_node self v_id d = Ok (self1, Some z_id) ∧
    HS.y_merged self !! z_id = Some z_label ∧
    update_counts fuel (HS.nodes self) z_label z_id v_id = Ok nodes ∧
    _get_upward_path fuel nodes z_id v_id = Ok path ∧
    _update fuel (HS.set_nodes nodes self1) path [z_label] = Ok self'.
Proof.
  revert self. induction tape as [|d tape IH]; simpl; intros self H; [done|].
  inv_res. destruct x0 as [self1 [z|]].
  - inv_res.
    pose proof (_pick_sample_id_from_node_grows _ _ _ _ _ Hx0) as (Hg & Hn & _).
    exists d, x, self1, x0, x1, x2, []. simpl.
    destruct Hg as (_ & _ & _ & Hy & _). rewrite Hy in Hx1. rewrite Hn in Hx2.
    by split_and!.
  - pose proof (_pick_sample_id_from_node_spec _ _ _ _ _ Hx0) as
      (nd & _ & [(z & ? & _)|(ids & _ & [(_ & -> & _)|(u & z & _ & _ & _ & ? & _)])]);
      [done| |done].
    apply IH in H as (d' & v & s1 & l & n & pa & sk & -> & ?).
    exists d', v, s1, l, n, pa, (d :: sk). destruct_and!. by split_and!.
Qed.

Lemma sample_loop_grows fuel self tape self' z_id tape' :
  sample_loop fuel self tape = Ok (self', z_id, tape') → grows self self'.
Proof.
  intros H. apply sample_loop_spec in H
    as (d & v & s1 & l & n & pa & sk & _ & _ & Hp & _ & _ & _ & Hu).
  apply _pick_sample_id_from_node_grows in Hp as (Hg1 & _).
  apply _update_grows in Hu as (Hg2 & _).
  eauto using grows_trans, set_nodes_grows.
Qed.

Lemma sample_grows fuel self tape self' r tape' :
  sample fuel self tape = Ok (self', r, tape') → grows self self'.
Proof.
  unfold sample. intros H. inv_res. destruct x as [[s z] tp].
  apply sample_loop_grows in Hx. destruct (HS.tuning_phase s); by inv_res.
Qed.

Lemma sample_times_grows fuel k self tape self' tape' :
  sample_times fuel k self tape = Ok (self', tape') → grows self self'.
Proof.
  revert self tape. induction k as [|k IH]; simpl; intros self tape H.
  - inv_res. apply grows_refl.
  - inv_res. destruct x as [[s r] tp].
    eauto using grows_trans, sample_grows.
Qed.

(** C9.  Over any number of calls of [sample] in a row, every element of
    the revealed set and of the admissible set before the calls is still in
    it after them. *)
Theorem revealed_and_admissible_sets_only_grow fuel k self tape self' tape' :
  sample_times fuel k self tape = Ok (self', tape') →
  HS.revealed self ⊆ HS.revealed self' ∧
  HS.admissible_set self ⊆ HS.admissible_set self'.
Proof.
  intros Hg. apply sample_times_grows in Hg. unfold grows in Hg. by destruct_and!.
Qed.

End SamplerProps.

Section TuningProps.
Context {A : Arith}.
Implicit Types (self : HS.t A) (nodes : gmap nat (Node.t A)) (nd : Node.t A).

(** ** The tuning phase *)

Lemma _is_unlabeled_false self z :
  _is_unlabeled self z = Ok false → z < length (HS.X_train self).
Proof.
  unfold _is_unlabeled. case_decide; [|done]. intros [= Hb].
  apply bool_decide_eq_false in Hb. lia.
Qed.

(** A turn of the tuning phase that ends the loop reveals the labeled point
    it picked, and nothing else. *)
Lemma sample_loop_tuning fuel self tape self' z tape' :
  HS.tuning_phase self = true →
  sample_loop fuel self tape = Ok (self', z, tape') →
  (z ∉ HS.revealed self) ∧ z < length (HS.X_train self) ∧
  HS.revealed self' = HS.revealed self ∪ {[z]}.
Proof.
  intros Ht H. apply sample_loop_spec in H
    as (d & v & s1 & l & n & pa & sk & _ & _ & Hp & _ & _ & _ & Hu).
  apply _update_grows in Hu as (_ & _ & ->). simpl.
  apply _pick_sample_id_from_node_spec in Hp
    as (nd & _ & [(z' & [= <-] & -> & Hs)|(ids & _ & [(? & _)|(u & z' & Hf & _)])]);
    [|done|congruence].
  apply scan_leaves_inl in Hs as (_ & Hz & Hu & _).
  eauto using _is_unlabeled_false.
Qed.

Lemma sample_times_tuning fuel k self tape self' tape' :
  HS.tuning_phase self = true →
  sample_times fuel k self tape = Ok (self', tape') →
  size (HS.revealed self') = size (HS.revealed self) + k ∧
  ∀ i, i ∈ HS.revealed self' → i ∈ HS.revealed self ∨ i < length (HS.X_train self).
Proof.
  revert self tape. induction k as [|k IH]; simpl; intros self tape Ht H.
  - inv_res. split; [lia|eauto].
  - inv_res. destruct x as [[s r] tp]. unfold sample in Hx. inv_res.
    destruct x as [[s0 z] tp0].
    pose proof (sample_loop_grows _ _ _ _ _ _ Hx0) as (HX & _ & _ & _ & _ & _ & _ & _ & Ht' & _).
    apply sample_loop_tuning in Hx0 as (Hz & Hlt & Hrev); [|done].
    rewrite Ht in Ht'. rewrite Ht' in Hx. inv_res.
    apply IH in H as [Hsize Hin]; [|done]. rewrite Hsize, Hrev. split.
    + rewrite size_union, size_singleton by set_solver. lia.
    + intros i Hi. apply Hin in Hi as [Hi|Hi]; [|right; by rewrite <- HX].
      rewrite Hrev in Hi. apply elem_of_union in Hi as [Hi|Hi]; [by left|].
      apply elem_of_singleton in Hi as ->. right. lia.
Qed.

Lemma before_tuning_fresh fuel X_train y_train X_unlabeled y_unlabeled n children_ self :
  before_tuning fuel X_train y_train X_unlabeled y_unlabeled n children_ = Ok self →
  HS.tuning_phase self = true ∧ HS.revealed self = ∅ ∧ HS.X_train self = X_train.
Proof.
  unfold before_tuning. case_decide as Hd; [|done]. intros H. inv_res.
  destruct x as [root nodes]. by inv_res.
Qed.

(** When [__init__] returns, leaving the tuning state, the revealed set is
    exactly the set of the labeled points (the ids below the number [k] of
    rows of [X_train]), which the [k] cycles of the tuning phase revealed
    one each; and after any number of cycles of the tuning phase the
    revealed points are all labeled ones. *)
Lemma tuning_cycles_reveal_labeled_points
    fuel X_train y_train X_unlabeled y_unlabeled n_leaves_ children_ tape self tape' :
  __init__ fuel X_train y_train X_unlabeled y_unlabeled n_leaves_ children_ tape
    = Ok (self, tape') →
  HS.tuning_phase self = false ∧
  (∀ i, i ∈ HS.revealed self ↔ i < length X_train) ∧
  ∃ self0,
    before_tuning fuel X_train y_train X_unlabeled y_unlabeled n_leaves_ children_
      = Ok self0 ∧
    ∀ j selfj tapej, sample_times fuel j self0 tape = Ok (selfj, tapej) →
      size (HS.revealed selfj) = j ∧
      ∀ i, i ∈ HS.revealed selfj → i < length X_train.
Proof.
  unfold __init__. intros H. inv_res. destruct x0 as [s tp]. inv_res.
  rename x into self0.
  destruct (before_tuning_fresh _ _ _ _ _ _ _ _ Hx) as (Ht & Hrev & HX).
  assert (∀ j selfj tapej, sample_times fuel j self0 tape = Ok (selfj, tapej) →
            size (HS.revealed selfj) = j ∧
            ∀ i, i ∈ HS.revealed selfj → i < length X_train) as Hcycles.
  { intros j selfj tapej Hj. apply sample_times_tuning in Hj as [Hsize Hin]; [|done].
    rewrite Hrev, size_empty in Hsize. split; [done|].
    intros i Hi. apply Hin in Hi as [Hi|Hi]; [set_solver|by rewrite <- HX]. }
  split; [done|]. split; [|eauto]. simpl.
  destruct (Hcycles _ _ _ Hx0) as [Hsize Hin].
  assert (HS.revealed s = set_seq 0 (length X_train)) as ->.
  { apply set_subseteq_size_eq.
    - intros i Hi. apply elem_of_set_seq. split; [lia|]. simpl. eauto.
    - rewrite size_set_seq. lia. }
  intros i. rewrite elem_of_set_seq. lia.
Qed.

End TuningProps.

(** ** Concrete runs *)

Lemma holds_two_points {A : Arith} :
  holds (two_points (A:=A)) (Br 2 (Leaf 0) (Leaf 1)).
Proof.
  split; [|split].
  - repeat (apply NoDup_cons; split; [set_solver|]). apply NoDup_nil_2.
  - simpl. eexists. split; [by vm_compute|]. split_and!; try done.
    + eexists. split; [by vm_compute|]. by split_and!.
    + eexists. split; [by vm_compute|]. by split_and!.
  - apply set_eq. intros i. rewrite elem_of_dom. unfold two_points. simpl.
    rewrite lookup_fmap. unfold merge. simpl.
    rewrite !elem_of_union, !elem_of_singleton.
    destruct (decide (i = 1)) as [->|]; [rewrite lookup_insert_eq; simpl; naive_solver|].
    rewrite lookup_insert_ne by done.
    destruct (decide (i = 0)) as [->|]; [rewrite lookup_insert_eq; simpl; naive_solver|].
    rewrite lookup_insert_ne by done.
    destruct (decide (i = 2)) as [->|]; [rewrite lookup_insert_eq; simpl; naive_solver|].
    rewrite lookup_insert_ne, lookup_empty by done. simpl.
    split; [intros [? [=]]|set_solver].
Qed.

(** C3 (the code departs from it).  On the tree of two points 0 and 1
    merged into the root 2, [_get_upward_path(0, 1)], asked for the path from
    a point to a node that is not above it, raises nothing: it walks to the
    root and stays in its loop, whatever the budget. *)
Theorem _get_upward_path_to_a_non_ancestor_never_raises (A : Arith) (fuel : nat) :
  _get_upward_path fuel (two_points (A:=A)) 0 1 = Diverge.
Proof.
  eapply (_get_upward_path_diverges _ _ 0 1 [0; 2]).
  - apply holds_two_points.
  - reflexivity.
  - simpl. lia.
  - set_solver.
Qed.

(** C1 (the code departs from it).  With two unrevealed unlabeled points
    under the selected root and the draws 0 and 1 of [random.choice], a call
    of [sample] outside the tuning phase marks point 0 revealed and returns
    the features and the label of point 1, whose path it counts. *)
Theorem sample_returns_a_point_it_did_not_reveal :
  __init__ (A:=float_arith) 5 [] [] [[0%float]; [1%float]] [10%Z; 20%Z]
           2 [(0, 1)] [] = Ok (demo2, []) ∧
  HS.tuning_phase demo2 = false ∧ HS.revealed demo2 = ∅ ∧
  sample 5 demo2 [Draws 0 0 1] = Ok (demo2_sampled, Some ([1%float], 20%Z), []) ∧
  HS.revealed demo2_sampled = {[0]} ∧
  HS.X_merged demo2 !! 0 = Some [0%float] ∧
  HS.y_merged demo2 !! 0 = Some 10%Z ∧
  (@Node.num_revealed float_arith <$> HS.nodes demo2_sampled !! 0) = Some 0 ∧
  (@Node.num_revealed float_arith <$> HS.nodes demo2_sampled !! 1) = Some 1.
Proof. split_and!; by vm_compute. Qed.

(** The run that witnesses C6: two labeled points, two cycles. *)

(** The run that witnesses C9. *)
Lemma revealed_and_admissible_sets_only_grow_witness :
  sample_times (A:=float_arith) 5 1 demo2 [Draws 0 0 1] = Ok (demo2_sampled, []) ∧
  HS.revealed demo2 ⊆ HS.revealed demo2_sampled ∧
  HS.admissible_set demo2 ⊆ HS.admissible_set demo2_sampled.
Proof.
  assert (sample_times (A:=float_arith) 5 1 demo2 [Draws 0 0 1]
          = Ok (demo2_sampled, [])) as H by (vm_compute; reflexivity).
  split; [exact H|].
  exact (revealed_and_admissible_sets_only_grow _ _ _ _ _ _ H).
Defined.

(** ** Dicts filled by a loop *)

Lemma elem_of_keys `{Countable K} {V} (d : gmap K V) (k : K) :
  k ∈ keys d ↔ is_Some (d !! k).
Proof.
  unfold keys. rewrite list_elem_of_fmap. split.
  - intros ([k' v] & -> & Hin). apply elem_of_map_to_list in Hin. eauto.
  - intros [v Hv]. exists (k, v). split; [done|]. by apply elem_of_map_to_list.
Qed.

Lemma dict_fill `{Countable K} {V} (entry : K → res V) (ks : list K)
    (d0 d : gmap K V) :
  for_each (λ d k, v ← entry k; Ok (<[k := v]> d)) ks d0 = Ok d →
  ∀ k, (k ∈ ks → ∃ v, entry k = Ok v ∧ d !! k = Some v) ∧
       (k ∉ ks → d !! k = d0 !! k).
Proof.
  revert d0. induction ks as [|x ks IH]; simpl; intros d0 Hd k.
  - inv_res. split; [by intros ?%elem_of_nil|done].
  - inv_res. destruct (IH _ Hd k) as [IH1 IH2]. split.
    + intros Hk. destruct (decide (k ∈ ks)) as [Hin|Hout]; [eauto|].
      apply elem_of_cons in Hk as [->|?]; [|done].
      rewrite IH2, lookup_insert_eq by done. eauto.
    + intros Hk. apply not_elem_of_cons in Hk as [Hne Hk].
      rewrite IH2 by done. by rewrite lookup_insert_ne.
Qed.

Lemma dict_of_lookup `{Countable K} {V} (entry : K → res V) ks (d : gmap K V) k :
  dict_of entry ks = Ok d → k ∈ ks → ∃ v, entry k = Ok v ∧ d !! k = Some v.
Proof. intros Hd. by apply (dict_fill entry ks ∅ d Hd k). Qed.

Lemma dict_of_keys `{Countable K} {V} (entry : K → res V) ks (d : gmap K V) k :
  dict_of entry ks = Ok d → k ∈ keys d ↔ k ∈ ks.
Proof.
  intros Hd. rewrite elem_of_keys. destruct (dict_fill entry ks ∅ d Hd k) as [H1 H2].
  split.
  - intros [v Hv]. destruct (decide (k ∈ ks)); [done|].
    rewrite H2, lookup_empty in Hv by done. done.
  - intros Hk. destruct (H1 Hk) as (v & _ & ->). eauto.
Qed.

Lemma dict_of_total `{Countable K} {V} (entry : K → res V) ks :
  (∀ k, k ∈ ks → ∃ v, entry k = Ok v) → ∃ d : gmap K V, dict_of entry ks = Ok d.
Proof.
  intros Hks. unfold dict_of.
  destruct (for_each_total (λ _, True) (λ (d : gmap K V) k, v ← entry k; Ok (<[k := v]> d))
              ks ∅) as (d & Hd & _); [|done|eauto].
  intros d k Hk _. destruct (Hks k Hk) as [v ->]. simpl. eauto.
Qed.

Section EstimateProps.
Context {A : Arith}.
Implicit Types (self : HS.t A) (nodes : gmap nat (Node.t A)) (nd : Node.t A).

(** ** The estimates of [_update] *)

Lemma elem_of_vl_keys self v l :
  (v, l) ∈ vl_keys self ↔ is_Some (HS.nodes self !! v) ∧ l ∈ HS.labels self.
Proof.
  unfold vl_keys. rewrite list_elem_of_bind. split.
  - intros (v' & Hin & Hv). apply list_elem_of_bind in Hin as (l' & Hin & Hl).
    apply list_elem_of_singleton in Hin as [= -> ->].
    apply elem_of_keys in Hv. apply elem_of_elements in Hl. done.
  - intros [Hv Hl]. exists v. split; [|by apply elem_of_keys].
    apply list_elem_of_bind. exists l. split; [by left|by apply elem_of_elements].
Qed.

(** Each of the four dicts has an entry for every node and label, the value
    that its formula gives there. *)
Lemma estimate_lookup self e v nd l :
  estimate self = Ok e → HS.nodes self !! v = Some nd → l ∈ HS.labels self →
  ∃ p d lb ub,
    e_p_vl e !! (v, l) = Some p ∧ p_vl_entry self (v, l) = Ok p ∧
    e_delta e !! (v, l) = Some d ∧ delta_entry self (e_p_vl e) (v, l) = Ok d ∧
    e_p_vl_LB e !! (v, l) = Some lb ∧ p_LB self (e_p_vl e) (e_delta e) (v, l) = Ok lb ∧
    e_p_vl_UB e !! (v, l) = Some ub ∧ p_UB self (e_p_vl e) (e_delta e) (v, l) = Ok ub.
Proof.
  unfold estimate. intros He Hv Hl. inv_res. simpl.
  rename x into p_vl, x0 into delta, x1 into LB, x2 into UB.
  assert ((v, l) ∈ vl_keys self) as Hk by (apply elem_of_vl_keys; eauto).
  assert ((v, l) ∈ keys p_vl) as Hk' by (by eapply dict_of_keys).
  destruct (dict_of_lookup _ _ _ _ Hx Hk) as (p & ? & ?).
  destruct (dict_of_lookup _ _ _ _ Hx0 Hk') as (d & ? & ?).
  destruct (dict_of_lookup _ _ _ _ Hx1 Hk') as (lb & ? & ?).
  destruct (dict_of_lookup _ _ _ _ Hx2 Hk') as (ub & ? & ?).
  exists p, d, lb, ub. by split_and!.
Qed.

(** The estimates are computed whenever the counters agree: no division by
    zero. *)
Lemma estimate_total self :
  all_counted (HS.nodes self) → ∃ e, estimate self = Ok e.
Proof.
  intros Hall. unfold estimate.
  destruct (dict_of_total (p_vl_entry self) (vl_keys self)) as [p_vl Hp].
  { intros [v l] [[nd Hnd] _]%elem_of_vl_keys. unfold p_vl_entry. simpl.
    rewrite Hnd. simpl.
    destruct (Node.class_to_instances nd !! l) as [c|] eqn:Hc; [|eauto].
    case_decide as Hz; [|eauto].
    pose proof (counted_le _ _ _ (Hall _ _ Hnd) Hc). lia. }
  rewrite Hp. simpl.
  assert (∀ vl, vl ∈ keys p_vl → ∃ nd, HS.nodes self !! vl.1 = Some nd ∧
                                   is_Some (p_vl !! vl)) as Hkeys.
  { intros [v l] Hk. pose proof Hk as Hk2. apply elem_of_keys in Hk2.
    apply (dict_of_keys _ _ _ _ Hp) in Hk.
    apply elem_of_vl_keys in Hk as [[nd Hnd] _]. eauto. }
  destruct (dict_of_total (delta_entry self p_vl) (keys p_vl)) as [delta Hd].
  { intros vl Hk. destruct (Hkeys vl Hk) as (nd & Hnd & [p Hpv]).
    unfold delta_entry. rewrite Hnd. simpl. case_decide; [|eauto].
    rewrite Hpv. simpl. eauto. }
  rewrite Hd. simpl.
  assert (∀ vl, vl ∈ keys p_vl → is_Some (delta !! vl)) as Hdk.
  { intros vl Hk. destruct (dict_of_lookup _ _ _ _ Hd Hk) as (d & _ & ->). eauto. }
  destruct (dict_of_total (p_LB self p_vl delta) (keys p_vl)) as [LB HLB].
  { intros vl Hk. destruct (Hkeys vl Hk) as (nd & Hnd & [p Hpv]).
    destruct (Hdk vl Hk) as [d Hdv].
    unfold p_LB. rewrite Hnd. simpl. case_decide; [eauto|].
    rewrite Hpv, Hdv. simpl. eauto. }
  rewrite HLB. simpl.
  destruct (dict_of_total (p_UB self p_vl delta) (keys p_vl)) as [UB HUB].
  { intros vl Hk. destruct (Hkeys vl Hk) as (nd & Hnd & [p Hpv]).
    destruct (Hdk vl Hk) as [d Hdv].
    unfold p_UB. rewrite Hnd. simpl. case_decide; [eauto|].
    rewrite Hpv, Hdv. simpl. eauto. }
  rewrite HUB. simpl. eauto.
Qed.

End EstimateProps.

(** ** The admissibility test on a node without observations (IEEE floats) *)

Section Unobserved.
#[local] Existing Instance float_arith.
Implicit Types (self : HS.t float_arith).






End Unobserved.

(** ** The estimates in real arithmetic *)

Section RealEstimates.
#[local] Existing Instance real_arith.
Implicit Types (self : HS.t real_arith) (nd : Node.t real_arith).

Lemma Rsign_pos r : (0 < r)%R → Rsign r = Gt.
Proof. intros Hr. unfold Rsign. by destruct (Rlt_dec 0 r). Qed.

Lemma INR_pos n : 0 < n → (0 < INR n)%R.
Proof. intros Hn. apply lt_0_INR. lia. Qed.

Lemma eadd_Fin a b : eadd (Fin a) (Fin b) = Fin (a + b).
Proof. done. Qed.

Lemma eneg_Fin a : eneg (Fin a) = Fin (- a).
Proof. done. Qed.

Lemma emul_Fin a b : emul (Fin a) (Fin b) = Fin (a * b).
Proof. done. Qed.

Lemma ediv_Fin a b : (0 < b)%R → ediv (Fin a) (Fin b) = Fin (a / b).
Proof. intros Hb. unfold ediv. by rewrite Rsign_pos. Qed.

Lemma esqrt_Fin a : (0 <= a)%R → esqrt (Fin a) = Fin (sqrt a).
Proof. intros Ha. unfold esqrt. destruct (Rlt_dec a 0); [lra|done]. Qed.

Lemma py_max_Fin a b : py_max (Fin a) (Fin b) = Fin (Rmax a b).
Proof.
  unfold py_max. simpl. unfold eltb. destruct (Rlt_dec a b).
  - by rewrite Rmax_right by lra.
  - by rewrite Rmax_left by lra.
Qed.

Lemma py_min_Fin a b : py_min (Fin a) (Fin b) = Fin (Rmin a b).
Proof.
  unfold py_min. simpl. unfold eltb. destruct (Rlt_dec b a).
  - by rewrite Rmin_right by lra.
  - by rewrite Rmin_left by lra.
Qed.

Lemma estimate_p_range nd l :
  counted nd → (0 <= estimate_p nd l <= 1)%R.
Proof.
  intros Hcnt. unfold estimate_p, count_of. case_decide as Hn; [|lra].
  pose proof (INR_pos _ Hn) as Hpos.
  destruct (Node.class_to_instances nd !! l) as [c|] eqn:Hc; simpl.
  - destruct (counted_le _ _ _ Hcnt Hc) as [_ Hle]. apply le_INR in Hle.
    pose proof (pos_INR c). split.
    + apply Rmult_le_pos; [done|]. left. by apply Rinv_0_lt_compat.
    + apply Rmult_le_reg_r with (INR (Node.num_revealed nd)); [done|].
      unfold Rdiv. rewrite Rmult_assoc, Rinv_l by lra. lra.
  - unfold Rdiv. rewrite Rmult_0_l. lra.
Qed.

Lemma p_vl_entry_real self v nd l :
  HS.nodes self !! v = Some nd → counted nd →
  p_vl_entry self (v, l) = Ok (Fin (estimate_p nd l)).
Proof.
  intros Hv Hcnt. unfold p_vl_entry, estimate_p, count_of. simpl. rewrite Hv. simpl.
  destruct (Node.class_to_instances nd !! l) as [c|] eqn:Hc; simpl.
  - destruct (counted_le _ _ _ Hcnt Hc) as [Hc0 Hle].
    rewrite decide_False by lia. rewrite decide_True by lia.
    pose proof (INR_pos (Node.num_revealed nd) ltac:(lia)).
    rewrite emul_Fin, ediv_Fin by lra. do 2 f_equal. by rewrite Rmult_1_l.
  - case_decide; [|done]. do 2 f_equal. unfold Rdiv. by rewrite Rmult_0_l.
Qed.

Lemma delta_entry_real self (p_vl : gmap (nat * Z) F) v nd l :
  HS.nodes self !! v = Some nd → counted nd →
  p_vl !! (v, l) = Some (Fin (estimate_p nd l)) →
  delta_entry self p_vl (v, l) = Ok (Fin (radius nd l)).
Proof.
  intros Hv Hcnt Hp. unfold delta_entry, radius. simpl. rewrite Hv. simpl.
  case_decide as Hn; [|done]. simpl in Hp. rewrite Hp. simpl.
  pose proof (INR_pos _ Hn). pose proof (estimate_p_range nd l Hcnt).
  rewrite eneg_Fin, eadd_Fin, emul_Fin, !ediv_Fin by done. rewrite esqrt_Fin.
  - by rewrite eadd_Fin.
  - apply Rmult_le_pos; [nra|]. left. by apply Rinv_0_lt_compat.
Qed.

Lemma observed_nothing nd :
  counted nd → size (Node.class_to_instances nd) = 0 ↔ Node.num_revealed nd = 0.
Proof.
  intros Hcnt. split.
  - intros Hs%map_size_empty_inv. destruct Hcnt as [-> _]. by rewrite Hs.
  - intros Hn. by rewrite (counted_nothing _ Hcnt Hn), map_size_empty.
Qed.

(** C4.  In real arithmetic, on a sampler whose counters agree, [_update]
    computes its four dicts, and at every node and label they hold the
    estimate [count/num_revealed] (0 without observations), the radius
    [1/n + sqrt(p(1-p)/n)] (0 without observations), and the bounds
    [max(p - delta, 0)] and [min(p + delta, 1)] (0 and 1 without
    observations). *)
Theorem estimates_follow_the_formulas self :
  all_counted (HS.nodes self) →
  ∃ e, estimate self = Ok e ∧
    ∀ v nd l, HS.nodes self !! v = Some nd → l ∈ HS.labels self →
      e_p_vl e !! (v, l) = Some (Fin (estimate_p nd l)) ∧
      e_delta e !! (v, l) = Some (Fin (radius nd l)) ∧
      e_p_vl_LB e !! (v, l) = Some (Fin (lower_bound nd l)) ∧
      e_p_vl_UB e !! (v, l) = Some (Fin (upper_bound nd l)).
Proof.
  intros Hall. destruct (estimate_total self Hall) as [e He].
  exists e. split; [done|]. intros v nd l Hv Hl.
  pose proof (Hall _ _ Hv) as Hcnt.
  destruct (estimate_lookup _ _ _ _ _ He Hv Hl)
    as (p & d & lb & ub & Hp & Hpe & Hd & Hde & Hlb & HLB & Hub & HUB).
  rewrite (p_vl_entry_real _ _ _ _ Hv Hcnt) in Hpe. injection Hpe as <-.
  rewrite (delta_entry_real _ _ _ _ _ Hv Hcnt Hp) in Hde. injection Hde as <-.
  split_and!; [done|done|..].
  - etrans; [exact Hlb|]. f_equal. unfold p_LB in HLB. simpl in HLB. rewrite Hv in HLB.
    simpl in HLB. unfold lower_bound. pose proof (observed_nothing nd Hcnt) as Hobs.
    repeat case_decide; try (exfalso; tauto).
    + by injection HLB as <-.
    + simpl in Hp, Hd. rewrite Hp, Hd in HLB. simpl in HLB.
      rewrite eneg_Fin, eadd_Fin, (py_max_Fin _ 0) in HLB.
      by injection HLB as <-.
  - etrans; [exact Hub|]. f_equal. unfold p_UB in HUB. simpl in HUB. rewrite Hv in HUB.
    simpl in HUB. unfold upper_bound. pose proof (observed_nothing nd Hcnt) as Hobs.
    repeat case_decide; try (exfalso; tauto).
    + by injection HUB as <-.
    + simpl in Hp, Hd. rewrite Hp, Hd in HUB. simpl in HUB.
      rewrite eadd_Fin, (py_min_Fin _ 1) in HUB.
      by injection HUB as <-.
Qed.

End RealEstimates.

(** ** Trees and cuts *)

Lemma leaves_ids t z : z ∈ leaves t → z ∈ ids t.
Proof.
  induction t as [i|i l IHl r IHr]; simpl; [done|].
  intros [?|?]%elem_of_app; right; apply elem_of_app; eauto.
Qed.

Lemma subtrees_refl t : t ∈ subtrees t.
Proof. destruct t; simpl; left. Qed.

Lemma subtrees_ids t s w : s ∈ subtrees t → w ∈ ids s → w ∈ ids t.
Proof.
  induction t as [i|i l IHl r IHr]; simpl.
  - by intros ->%list_elem_of_singleton.
  - intros [->|[Hs|Hs]%elem_of_app]%elem_of_cons Hw; [done|..];
      right; apply elem_of_app; eauto.
Qed.

Lemma subtrees_leaves t s z : s ∈ subtrees t → z ∈ leaves s → z ∈ leaves t.
Proof.
  induction t as [i|i l IHl r IHr]; simpl.
  - by intros ->%list_elem_of_singleton.
  - intros [->|[Hs|Hs]%elem_of_app]%elem_of_cons Hw; [done|..];
      apply elem_of_app; eauto.
Qed.

Lemma subtrees_tid t s : s ∈ subtrees t → tid s ∈ ids t.
Proof. intros Hs. eapply subtrees_ids; [done|]. apply tid_in_ids. Qed.

Lemma subtrees_trans t s s' : s ∈ subtrees t → s' ∈ subtrees s → s' ∈ subtrees t.
Proof.
  induction t as [i|i l IHl r IHr]; simpl.
  - by intros ->%list_elem_of_singleton.
  - intros [->|[Hs|Hs]%elem_of_app]%elem_of_cons Hs'; [done|..];
      right; apply elem_of_app; eauto.
Qed.

Lemma subtrees_NoDup t s : NoDup (ids t) → s ∈ subtrees t → NoDup (ids s).
Proof.
  induction t as [i|i l IHl r IHr]; simpl.
  - by intros ? ->%list_elem_of_singleton.
  - intros Hnd [->|Hs]%elem_of_cons; [done|].
    apply NoDup_cons in Hnd as [_ (? & _ & ?)%NoDup_app].
    apply elem_of_app in Hs as [?|?]; eauto.
Qed.

Lemma ids_height t : length (ids t) > 0.
Proof. destruct t; simpl; lia. Qed.

(** In a tree without repeated ids the subtree of an id is unique, and it
    is found in the child that has the id. *)
Lemma subtrees_Br i l r s :
  NoDup (ids (Br i l r)) → s ∈ subtrees (Br i l r) →
  (s = Br i l r ∧ tid s = i) ∨
  (s ∈ subtrees l ∧ tid s ∈ ids l ∧ (tid s ∉ ids r) ∧ tid s ≠ i) ∨
  (s ∈ subtrees r ∧ tid s ∈ ids r ∧ (tid s ∉ ids l) ∧ tid s ≠ i).
Proof.
  simpl. intros [Hi (Hl & Hlr & Hr)%NoDup_app]%NoDup_cons
    [->|[Hs|Hs]%elem_of_app]%elem_of_cons.
  - by left.
  - right; left. pose proof (subtrees_tid _ _ Hs) as Hin. split_and!; [done..| |].
    + intros ?. by eapply Hlr.
    + intros <-. apply Hi, elem_of_app. by left.
  - right; right. pose proof (subtrees_tid _ _ Hs) as Hin. split_and!; [done..| |].
    + intros ?. by eapply Hlr.
    + intros <-. apply Hi, elem_of_app. by right.
Qed.

Lemma subtrees_unique t s1 s2 :
  NoDup (ids t) → s1 ∈ subtrees t → s2 ∈ subtrees t → tid s1 = tid s2 → s1 = s2.
Proof.
  induction t as [i|i l IHl r IHr]; intros Hnd H1 H2 Heq.
  - simpl in *. apply list_elem_of_singleton in H1, H2. congruence.
  - pose proof Hnd as Hnd'. simpl in Hnd'.
    apply NoDup_cons in Hnd' as [_ (Hl & _ & Hr)%NoDup_app].
    destruct (subtrees_Br _ _ _ _ Hnd H1) as [[-> ?]|[(?&?&?&?)|(?&?&?&?)]];
    destruct (subtrees_Br _ _ _ _ Hnd H2) as [[-> ?]|[(?&?&?&?)|(?&?&?&?)]];
      try done; try congruence; eauto.
Qed.

Lemma cut_ids t K v : cut t K → v ∈ K → v ∈ ids t.
Proof.
  induction 1 as [t|i l r Kl Kr Hl IHl Hr IHr]; intros Hv.
  - apply elem_of_singleton in Hv as ->. apply tid_in_ids.
  - simpl. right. apply elem_of_app.
    apply elem_of_union in Hv as [?|?]; eauto.
Qed.

(** Replacing a key of a cut by a cut of its subtree gives a cut. *)
Lemma cut_replace t K v s K' :
  NoDup (ids t) → cut t K → v ∈ K → s ∈ subtrees t → tid s = v → cut s K' →
  cut t (K' ∪ K ∖ {[v]}).
Proof.
  intros Hnd Hcut. revert Hnd s.
  induction Hcut as [t|i l r Kl Kr Hl IHl Hr IHr]; intros Hnd s Hv Hs Hid HK'.
  - apply elem_of_singleton in Hv as ->.
    assert (s = t) as -> by (eapply subtrees_unique; eauto using subtrees_refl).
    replace (K' ∪ {[tid t]} ∖ {[tid t]}) with K' by set_solver. done.
  - pose proof Hnd as Hnd'. simpl in Hnd'.
    apply NoDup_cons in Hnd' as [Hi (Hndl & Hlr & Hndr)%NoDup_app].
    assert (∀ k, k ∈ Kl → k ∈ ids l) as HKl by eauto using cut_ids.
    assert (∀ k, k ∈ Kr → k ∈ ids r) as HKr by eauto using cut_ids.
    destruct (subtrees_Br _ _ _ _ Hnd Hs) as [[-> Ht]|[(Hsl&Hin&Hnr&?)|(Hsr&Hin&Hnl&?)]].
    + exfalso. subst v. simpl in Hv. apply Hi, elem_of_app.
      apply elem_of_union in Hv as [?|?]; eauto.
    + rewrite Hid in *.
      assert (v ∈ Kl) as HvKl.
      { apply elem_of_union in Hv as [?|Hv]; [done|]. by apply HKr in Hv. }
      replace (K' ∪ (Kl ∪ Kr) ∖ {[v]}) with ((K' ∪ Kl ∖ {[v]}) ∪ Kr).
      * apply cut_below; [|done]. by apply (IHl Hndl s).
      * apply set_eq. intros k. set_unfold.
        split; [|naive_solver]. intros [[?|[??]]|?]; [naive_solver..|].
        right. split; [by right|]. intros ->. eauto.
    + rewrite Hid in *.
      assert (v ∈ Kr) as HvKr.
      { apply elem_of_union in Hv as [Hv|?]; [|done]. by apply HKl in Hv. }
      replace (K' ∪ (Kl ∪ Kr) ∖ {[v]}) with (Kl ∪ (K' ∪ Kr ∖ {[v]})).
      * apply cut_below; [done|]. by apply (IHr Hndr s).
      * apply set_eq. intros k. set_unfold.
        split; [|naive_solver]. intros [?|[?|[??]]]; [|naive_solver..].
        right. split; [by left|]. intros ->. eauto.
Qed.

Lemma covers_child t s v z : s ∈ subtrees t → covers s v z → covers t v z.
Proof. intros Hs (s' & ? & ? & ?). exists s'. eauto using subtrees_trans. Qed.

(** C2, on trees: a cut is an antichain whose subtrees partition the
    leaves. *)
Lemma cut_partitions t K : NoDup (ids t) → cut t K → partitions t K.
Proof.
  intros Hnd Hcut. split; [eauto using cut_ids|]. revert Hnd.
  induction Hcut as [t|i l r Kl Kr Hl IHl Hr IHr]; intros Hnd.
  - split.
    + intros v w ->%elem_of_singleton ->%elem_of_singleton _. done.
    + intros z Hz. exists (tid t). split; [set_solver|]. split.
      * exists t. eauto using subtrees_refl.
      * by intros w ->%elem_of_singleton _.
  - pose proof Hnd as Hnd'. simpl in Hnd'.
    apply NoDup_cons in Hnd' as [Hi (Hndl & Hlr & Hndr)%NoDup_app].
    destruct (IHl Hndl) as [Hal Hpl]. destruct (IHr Hndr) as [Har Hpr].
    assert (∀ k, k ∈ Kl → k ∈ ids l) as HKl by eauto using cut_ids.
    assert (∀ k, k ∈ Kr → k ∈ ids r) as HKr by eauto using cut_ids.
    (* a subtree whose id is in a child is a subtree of that child *)
    assert (∀ s, s ∈ subtrees (Br i l r) → tid s ∈ ids l → s ∈ subtrees l) as Hinl.
    { intros s Hs Hin.
      destruct (subtrees_Br _ _ _ _ Hnd Hs) as [[-> Ht]|[(?&?&?&?)|(?&?&?&?)]];
        [|done..]. simpl in Hin. exfalso. apply Hi, elem_of_app. by left. }
    assert (∀ s, s ∈ subtrees (Br i l r) → tid s ∈ ids r → s ∈ subtrees r) as Hinr.
    { intros s Hs Hin.
      destruct (subtrees_Br _ _ _ _ Hnd Hs) as [[-> Ht]|[(?&?&?&?)|(?&?&?&?)]];
        [|done..]. simpl in Hin. exfalso. apply Hi, elem_of_app. by right. }
    split.
    + intros v w Hv Hw (s & Hs & Hid & Hws). subst v.
      apply elem_of_union in Hv as [Hv|Hv]; apply elem_of_union in Hw as [Hw|Hw].
      * apply Hal; [done..|]. exists s. eauto.
      * exfalso. eapply Hlr; [|by apply HKr]. eapply subtrees_ids; eauto.
      * exfalso. eapply Hlr; [by apply HKl|]. eapply subtrees_ids; eauto.
      * apply Har; [done..|]. exists s. eauto.
    + intros z [Hz|Hz]%elem_of_app.
      * destruct (Hpl z Hz) as (v & Hv & Hc & Huniq).
        exists v. split; [set_solver|]. split.
        { eapply covers_child; [|done]. right. apply elem_of_app. left.
          apply subtrees_refl. }
        intros w [Hw|Hw]%elem_of_union (s & Hs & Hid & Hzs); subst w.
        -- apply Huniq; [done|]. exists s. eauto.
        -- exfalso. eapply Hlr; [by apply leaves_ids|].
           eapply subtrees_ids; [by apply Hinr; eauto|]. by apply leaves_ids.
      * destruct (Hpr z Hz) as (v & Hv & Hc & Huniq).
        exists v. split; [set_solver|]. split.
        { eapply covers_child; [|done]. right. apply elem_of_app. right.
          apply subtrees_refl. }
        intros w [Hw|Hw]%elem_of_union (s & Hs & Hid & Hzs); subst w.
        -- exfalso. eapply Hlr; [|by apply leaves_ids].
           eapply subtrees_ids; [by apply Hinl; eauto|]. by apply leaves_ids.
        -- apply Huniq; [done|]. exists s. eauto.
Qed.

Section PruningProps.
Context {A : Arith}.
Implicit Types (self : HS.t A) (nodes : gmap nat (Node.t A)) (nd : Node.t A).

(** ** The arena keeps its tree *)

Lemma shape_links nodes nodes' par t :
  links <$> nodes' = links <$> nodes → shape nodes par t → shape nodes' par t.
Proof.
  intros Hl. revert par. induction t as [i|i l IHl r IHr]; intros par.
  - simpl. intros (nd & Hnd & Hid & Hpar & Hlf & Hr & Hleaf).
    pose proof (f_equal (λ m, m !! i) Hl) as Hi. simpl in Hi.
    rewrite !lookup_fmap, Hnd in Hi. simpl in Hi.
    destruct (nodes' !! i) as [nd'|]; [|done]. injection Hi as ?????.
    exists nd'. split_and!; congruence.
  - simpl. intros (nd & Hnd & Hid & Hpar & Hlf & Hr & Hleaf & Hsl & Hsr).
    pose proof (f_equal (λ m, m !! i) Hl) as Hi. simpl in Hi.
    rewrite !lookup_fmap, Hnd in Hi. simpl in Hi.
    destruct (nodes' !! i) as [nd'|]; [|done]. injection Hi as ?????.
    exists nd'. split_and!; try congruence; eauto.
Qed.

Lemma holds_links nodes nodes' t :
  links <$> nodes' = links <$> nodes → holds nodes t → holds nodes' t.
Proof.
  intros Hl (Hnd & Hsh & Hdom). split_and!; [done|by eapply shape_links|].
  rewrite <- Hdom. rewrite <- (dom_fmap_L links nodes'), Hl. apply dom_fmap_L.
Qed.

Lemma count_at_links l nodes i nodes' :
  count_at l nodes i = Ok nodes' → links <$> nodes' = links <$> nodes.
Proof.
  unfold count_at. intros H. inv_res. rewrite fmap_insert.
  apply insert_id. by rewrite lookup_fmap, Hx.
Qed.

Lemma update_counts_links fuel nodes l z v nodes' :
  update_counts fuel nodes l z v = Ok nodes' → links <$> nodes' = links <$> nodes.
Proof.
  unfold update_counts. intros H. inv_res.
  eapply (for_each_inv (λ n, links <$> n = links <$> nodes)); [|done|exact H].
  intros n i n' _ Hn Hc. apply count_at_links in Hc. congruence.
Qed.

Lemma shape_subtree nodes par t s :
  shape nodes par t → s ∈ subtrees t → ∃ par', shape nodes par' s.
Proof.
  revert par. induction t as [i|i l IHl r IHr]; intros par Hsh.
  - simpl. intros ->%list_elem_of_singleton. eauto.
  - intros [->|[Hs|Hs]%elem_of_app]%elem_of_cons; [eauto|..];
      destruct Hsh as (nd & _ & _ & _ & _ & _ & _ & Hsl & Hsr); eauto.
Qed.

Lemma ids_subtree t v : v ∈ ids t → ∃ s, s ∈ subtrees t ∧ tid s = v.
Proof.
  induction t as [i|i l IHl r IHr]; simpl.
  - intros ->%list_elem_of_singleton. exists (Leaf i). split; [by left|done].
  - intros [->|[Hv|Hv]%elem_of_app]%elem_of_cons.
    + exists (Br i l r). split; [by left|done].
    + destruct (IHl Hv) as (s & ? & ?). exists s. split; [|done].
      right. apply elem_of_app. by left.
    + destruct (IHr Hv) as (s & ? & ?). exists s. split; [|done].
      right. apply elem_of_app. by right.
Qed.

(** The node stored under an id is the root of the subtree of that id. *)
Lemma holds_lookup nodes t v nd :
  holds nodes t → nodes !! v = Some nd →
  ∃ s, s ∈ subtrees t ∧ tid s = v ∧
    match s with
    | Leaf _ => Node.left nd = None ∧ Node.right nd = None ∧ Node.is_leaf nd = true
    | Br _ l r => Node.left nd = Some (tid l) ∧ Node.right nd = Some (tid r) ∧
                  Node.is_leaf nd = false
    end.
Proof.
  intros (Hnd & Hsh & Hdom) Hv.
  assert (v ∈ ids t) as Hin.
  { apply (elem_of_list_to_set (C:=gset nat)). rewrite <- Hdom.
    apply elem_of_dom. eauto. }
  destruct (ids_subtree _ _ Hin) as (s & Hs & Hid).
  exists s. split_and!; [done..|].
  destruct (shape_subtree _ _ _ _ Hsh Hs) as [par' Hs'].
  destruct s as [i|i l r]; simpl in *; subst v.
  - destruct Hs' as (nd' & Hnd' & _ & _ & ? & ? & ?). by simplify_eq.
  - destruct Hs' as (nd' & Hnd' & _ & _ & ? & ? & ? & _). by simplify_eq.
Qed.

(** ** The scores hold cuts *)

Lemma good_single t (s : gmap nat (F * gmap nat Z)) v sc lab :
  good_scores t s → good_scores t (<[v := (sc, {[v := lab]})]> s).
Proof.
  intros Hg s' Hs' sc' P. rewrite lookup_insert. case_decide as Hv.
  - intros [= <- <-]. rewrite dom_singleton_L, Hv. apply cut_here.
  - by apply Hg.
Qed.

Lemma good_children t (s : gmap nat (F * gmap nat Z)) i l r sc scl Pl scr Pr :
  NoDup (ids t) → good_scores t s → Br i l r ∈ subtrees t →
  s !! tid l = Some (scl, Pl) → s !! tid r = Some (scr, Pr) →
  good_scores t (<[i := (sc, Pr ∪ (Pl ∪ ∅))]> s).
Proof.
  intros Hnd Hg Hbr Hl Hr s' Hs' sc' P. rewrite lookup_insert. case_decide as Hv.
  - intros [= <- <-].
    assert (s' = Br i l r) as -> by (eapply subtrees_unique; eauto).
    replace (dom (Pr ∪ (Pl ∪ ∅))) with (dom Pl ∪ dom Pr)
      by (rewrite !dom_union_L, dom_empty_L; set_solver).
    apply cut_below.
    + eapply Hg; [|done]. eapply subtrees_trans; [done|].
      right. apply elem_of_app. left. apply subtrees_refl.
    + eapply Hg; [|done]. eapply subtrees_trans; [done|].
      right. apply elem_of_app. right. apply subtrees_refl.
  - by apply Hg.
Qed.

Lemma add_child_spec self (s : gmap nat (F * gmap nat Z)) w_v child acc acc' :
  add_child self s w_v child acc = Ok acc' →
  match child with
  | None => acc' = acc
  | Some c => ∃ sc P, s !! c = Some (sc, P) ∧ acc'.2 = P ∪ acc.2
  end.
Proof.
  unfold add_child. destruct child as [c|]; intros H; inv_res; [|done].
  destruct x as [sc P]. inv_res. eauto.
Qed.

Lemma visit_scores_good fuel self p_vl t node_id st st' :
  holds (HS.nodes self) t → good_scores t (s_v st) →
  visit_scores fuel self p_vl node_id st = Ok st' → good_scores t (s_v st').
Proof.
  intros Hholds. revert node_id st st'.
  induction fuel as [|fuel IH]; intros node_id st st' Hg H; [done|].
  simpl in H. inv_res. rename x into nd.
  assert (good_scores t (s_v x0)) as Hg0.
  { destruct (Node.left nd); [|by inv_res].
    case_decide; [by inv_res|]. by eapply IH; [|exact Hx0]. }
  assert (good_scores t (s_v x1)) as Hg1.
  { destruct (Node.right nd); [|by inv_res].
    case_decide; [by inv_res|]. by eapply IH; [|exact Hx1]. }
  destruct x2 as [has_admissible eps]. inv_res.
  rename x into best_label, x2 into best_score.
  pose proof (good_single t (s_v x1) node_id best_score best_label Hg1) as Hgs.
  destruct (has_admissible && negb (Node.is_leaf nd)) eqn:Hsplit; [|by inv_res].
  inv_res. destruct x2 as [children_score children_pruning]. 
  destruct (fltb children_score best_score); inv_res; [|exact Hgs]. simpl.
  apply andb_prop in Hsplit as [_ Hleaf].
  destruct (holds_lookup _ _ _ _ Hholds Hx) as (s & Hs & Hid & Hlinks).
  destruct s as [i|i l r]; simpl in Hid; subst i.
  { destruct Hlinks as (_ & _ & Hl). by rewrite Hl in Hleaf. }
  destruct Hlinks as (Hl & Hr & _). rewrite Hl in Hx5. rewrite Hr in Hx6.
  apply add_child_spec in Hx5 as (scl & Pl & HPl & Hacc).
  apply add_child_spec in Hx6 as (scr & Pr & HPr & Hacc').
  simpl in Hacc, Hacc'. rewrite Hacc in Hacc'. subst children_pruning.
  destruct Hholds as (Hnd & _). eapply good_children; eauto.
Qed.

Lemma bottom_up_compute_good fuel self p_vl t st :
  holds (HS.nodes self) t →
  bottom_up_compute fuel self p_vl = Ok st → good_scores t (s_v st).
Proof.
  intros Hholds H. unfold bottom_up_compute in H.
  eapply (for_each_inv (λ st, good_scores t (s_v st))); [| |exact H].
  - intros s node_id s' _ Hg Hb. simpl in Hb. case_decide; [by inv_res|].
    by eapply visit_scores_good.
  - intros s' _ sc P. simpl. by rewrite lookup_empty.
Qed.

Lemma rewrite_entry_cut t (s : gmap nat (F * gmap nat Z)) pruning v pruning' :
  NoDup (ids t) → good_scores t s → cut t (dom pruning) →
  rewrite_entry s pruning v = Ok pruning' → cut t (dom pruning').
Proof.
  intros Hnd Hg Hcut H. unfold rewrite_entry in H. inv_res.
  destruct x as [score PL]. case_decide as Hv; inv_res.
  pose proof (cut_ids _ _ _ Hcut Hv) as Hin.
  destruct (ids_subtree _ _ Hin) as (s' & Hs' & Hid). subst v.
  rewrite dom_union_L, dom_delete_L.
  eapply cut_replace; eauto.
Qed.

(** The rewrite of the pruning keeps it a cut of the tree. *)
Lemma _update_cut fuel self t update_nodes update_labels self' :
  holds (HS.nodes self) t → cut t (dom (HS.pruning self)) →
  _update fuel self update_nodes update_labels = Ok self' →
  cut t (dom (HS.pruning self')).
Proof.
  intros Hholds Hcut H. unfold _update in H. inv_res.
  destruct x as [p_vl delta lb ub]. inv_res. simpl.
  apply admit_pairs_spec in Hx0 as (adm & -> & _). simpl in *.
  apply bottom_up_compute_good with (t := t) in Hx1; [|done].
  destruct Hholds as (Hnd & _).
  eapply (for_each_inv (λ P, cut t (dom P))); [|exact Hcut|exact Hx2].
  intros P v P' _ HP Hr. by eapply rewrite_entry_cut.
Qed.

(** What a reachable sampler keeps: its arena holds the tree and its
    pruning cuts it. *)
Lemma sample_loop_cut fuel self t tape self' z tape' :
  holds (HS.nodes self) t → cut t (dom (HS.pruning self)) →
  sample_loop fuel self tape = Ok (self', z, tape') →
  holds (HS.nodes self') t ∧ cut t (dom (HS.pruning self')).
Proof.
  intros Hholds Hcut H. apply sample_loop_spec in H
    as (d & v & s1 & l & n & pa & sk & _ & _ & Hp & _ & Hc & _ & Hu).
  apply _pick_sample_id_from_node_grows in Hp as (_ & Hn1 & Hp1 & _).
  apply update_counts_links in Hc.
  pose proof (holds_links _ _ _ Hc Hholds) as Hholds'.
  pose proof (_update_grows _ _ _ _ _ Hu) as (_ & Hn & _). simpl in Hn.
  split; [by rewrite Hn|].
  eapply _update_cut; [| |exact Hu]; simpl; [done|by rewrite Hp1].
Qed.

End PruningProps.

Section WeightProps.
Context {A : Arith}.
Implicit Types (nodes : gmap nat (Node.t A)) (nd : Node.t A).

(** ** The leaves under each node *)

Lemma frame_links nodes nodes' :
  frame <$> nodes' = frame <$> nodes → links <$> nodes' = links <$> nodes.
Proof.
  intros H. apply map_eq. intros i.
  apply (f_equal (λ m, m !! i)) in H. rewrite !lookup_fmap in *.
  destruct (nodes' !! i), (nodes !! i); simpl in *; try done.
  unfold frame in H. f_equal. congruence.
Qed.

Lemma frame_insert nodes i nd nd' :
  nodes !! i = Some nd → frame nd' = frame nd →
  frame <$> <[i := nd']> nodes = frame <$> nodes.
Proof.
  intros Hi Hf. rewrite fmap_insert. apply insert_id.
  by rewrite lookup_fmap, Hi, Hf.
Qed.

Lemma holds_dom nodes t v : holds nodes t → v ∈ ids t ↔ is_Some (nodes !! v).
Proof.
  intros (_ & _ & Hdom). rewrite <- elem_of_dom, Hdom.
  by rewrite elem_of_list_to_set.
Qed.

(** The node of a subtree, in an arena with the links of [nodes0]. *)
Lemma subtree_lookup nodes0 nodes t s :
  holds nodes0 t → frame <$> nodes = frame <$> nodes0 → s ∈ subtrees t →
  ∃ nd, nodes !! tid s = Some nd ∧
    match s with
    | Leaf _ => Node.is_leaf nd = true
    | Br _ l r => Node.left nd = Some (tid l) ∧ Node.right nd = Some (tid r) ∧
                  Node.is_leaf nd = false
    end.
Proof.
  intros Hholds Hf Hs.
  pose proof (holds_links _ _ _ (frame_links _ _ Hf) Hholds) as Hh.
  destruct (proj1 (holds_dom _ _ (tid s) Hh) (subtrees_tid _ _ Hs)) as [nd Hnd].
  exists nd. split; [done|].
  destruct (holds_lookup _ _ _ _ Hh Hnd) as (s' & Hs' & Hid & Hl).
  assert (s' = s) as -> by (destruct Hh; eapply subtrees_unique; eauto).
  destruct s; naive_solver.
Qed.

Lemma visit_leaves_ok nodes0 t s E fuel st :
  holds nodes0 t → s ∈ subtrees t → height s < fuel →
  visiting nodes0 t E st → tid s ∉ st.1 → (∀ w, w ∈ ids s → w ∉ E) →
  ∃ st', visit_leaves fuel (tid s) st = Ok st' ∧ visiting nodes0 t E st' ∧
         st.1 ⊆ st'.1 ∧ tid s ∈ st'.1.
Proof.
  intros Hholds. revert E fuel st.
  induction s as [i|i l IHl r IHr]; intros E fuel st Hs Hfuel Hvis Hnew HE.
  - destruct fuel as [|fuel]; [simpl in Hfuel; lia|].
    destruct Hvis as (Hframe & Hdone & Hempty).
    destruct (subtree_lookup _ _ _ _ Hholds Hframe Hs) as (nd & Hnd & Hleaf).
    simpl in Hnd, Hleaf, Hnew. simpl. rewrite Hnd. simpl. rewrite Hleaf. simpl.
    rewrite lookup_insert_eq. simpl.
    eexists. split; [done|]. simpl.
    rewrite (Hempty i nd Hnd) by eauto. simpl.
    split; [|set_solver]. split_and!; simpl.
    + rewrite insert_insert_eq. etrans; [by apply (frame_insert _ _ nd)|done].
    + intros s nd' Hs' Hin HnE. rewrite insert_insert_eq, lookup_insert.
      case_decide as Hid.
      * intros [= <-]. simpl.
        assert (s = Leaf i) as -> by (destruct Hholds; eapply subtrees_unique; eauto).
        done.
      * intros Hl. eapply Hdone; eauto. set_solver.
    + intros v nd'. rewrite insert_insert_eq, lookup_insert. case_decide as Hid.
      * subst v. intros _ [Hv|Hv]; [set_solver|]. exfalso. eapply HE; [|done]. by left.
      * intros Hl [Hv|Hv]; eapply Hempty; eauto. left. set_solver.
  - destruct fuel as [|fuel]; [simpl in Hfuel; lia|]. simpl in Hfuel.
    pose proof Hvis as (Hframe & Hdone & Hempty).
    destruct (subtree_lookup _ _ _ _ Hholds Hframe Hs) as (nd & Hnd & Hl & Hr & Hleaf).
    simpl in Hnd, Hnew.
    assert (NoDup (ids (Br i l r))) as Hnd3
      by (destruct Hholds; eapply subtrees_NoDup; eauto).
    pose proof Hnd3 as Hnd3'. simpl in Hnd3'.
    apply NoDup_cons in Hnd3' as [Hi (Hndl & Hlr & Hndr)%NoDup_app].
    assert (l ∈ subtrees t) as Hsl.
    { eapply subtrees_trans; [exact Hs|]. right. apply elem_of_app. left. apply subtrees_refl. }
    assert (r ∈ subtrees t) as Hsr.
    { eapply subtrees_trans; [exact Hs|]. right. apply elem_of_app. right. apply subtrees_refl. }
    assert (tid l ≠ i) as Hli.
    { intros <-. apply Hi, elem_of_app. left. apply tid_in_ids. }
    assert (tid r ≠ i) as Hri.
    { intros <-. apply Hi, elem_of_app. right. apply tid_in_ids. }
    (* the state in which the visits of the children start *)
    assert (visiting nodes0 t (E ∪ {[i]}) (st.1 ∪ {[i]}, st.2)) as Hvis0.
    { split_and!; simpl; [done|..].
      - intros s nd' Hs' Hin HnE. apply Hdone; [done|set_solver|set_solver].
      - intros v nd' Hv Hor. destruct (decide (v = i)) as [->|].
        + eapply Hempty; eauto.
        + eapply Hempty; [done|]. set_solver. }
    (* one child *)
    assert (∀ c st1, c ∈ subtrees t → height c < fuel → tid c ≠ i →
              (∀ w, w ∈ ids c → w ∉ E ∪ {[i]}) →
              (∀ E fuel st, c ∈ subtrees t → height c < fuel → visiting nodes0 t E st →
                 tid c ∉ st.1 → (∀ w, w ∈ ids c → w ∉ E) →
                 ∃ st', visit_leaves fuel (tid c) st = Ok st' ∧ visiting nodes0 t E st' ∧
                        st.1 ⊆ st'.1 ∧ tid c ∈ st'.1) →
              visiting nodes0 t (E ∪ {[i]}) st1 →
              ∃ st2, (if decide (tid c ∈ st1.1) then Ok st1
                      else visit_leaves fuel (tid c) st1) = Ok st2 ∧
                     visiting nodes0 t (E ∪ {[i]}) st2 ∧ st1.1 ⊆ st2.1 ∧
                     tid c ∈ st2.1) as Hchild.
    { intros c st1 Hc Hh Hci HcE IH Hv1. case_decide as Hin; [eauto|].
      by apply IH. }
    assert (∀ w, w ∈ ids l → w ∉ E ∪ {[i]}) as HlE.
    { intros w Hw [HwE| ->%elem_of_singleton]%elem_of_union.
      - eapply HE; [|done]. right. apply elem_of_app. by left.
      - apply Hi, elem_of_app. by left. }
    assert (∀ w, w ∈ ids r → w ∉ E ∪ {[i]}) as HrE.
    { intros w Hw [HwE| ->%elem_of_singleton]%elem_of_union.
      - eapply HE; [|done]. right. apply elem_of_app. by right.
      - apply Hi, elem_of_app. by right. }
    destruct (Hchild l (st.1 ∪ {[i]}, st.2) Hsl ltac:(lia) Hli HlE IHl Hvis0)
      as (st1 & Hst1 & Hvis1 & Hsub1 & Hl1).
    destruct (Hchild r st1 Hsr ltac:(lia) Hri HrE IHr Hvis1)
      as (st2 & Hst2 & Hvis2 & Hsub2 & Hr2).
    simpl in Hst1, Hsub1.
    cbn [visit_leaves tid]. rewrite Hnd. cbn [of_option mbind res_bind].
    rewrite Hleaf, Hl, Hr. rewrite Hst1. cbn [mbind res_bind].
    rewrite Hst2. cbn [mbind res_bind of_option].
    destruct Hvis2 as (Hframe2 & Hdone2 & Hempty2).
    destruct (subtree_lookup _ _ _ _ Hholds Hframe2 Hsl) as (lnode & Hlnode & _).
    destruct (subtree_lookup _ _ _ _ Hholds Hframe2 Hsr) as (rnode & Hrnode & _).
    destruct (subtree_lookup _ _ _ _ Hholds Hframe2 Hs) as (node & Hnode & _ & Hr' & _).
    simpl in Hnode.
    assert (i ∈ st2.1) as Hi2 by set_solver.
    rewrite Hlnode, Hnode. cbn [of_option mbind res_bind].
    change (Node.right (Node.set_subtree_leaves _ node)) with (Node.right node).
    rewrite Hr'. cbn [of_option mbind res_bind].
    rewrite (lookup_insert_ne _ i (tid r)) by congruence. rewrite Hrnode. cbn [of_option mbind res_bind].
    rewrite lookup_insert_eq. cbn [of_option mbind res_bind fst snd].
    rewrite lookup_insert_eq. cbn [of_option mbind res_bind].
    eexists. split; [done|]. cbn [fst snd].
    destruct (Hdone2 l lnode Hsl ltac:(set_solver) ltac:(auto using tid_in_ids) Hlnode)
      as [Hll _].
    destruct (Hdone2 r rnode Hsr Hr2 ltac:(auto using tid_in_ids) Hrnode) as [Hrl _].
    rewrite (Hempty2 i node Hnode) by (right; set_solver).
    rewrite Hll, Hrl. simpl.
    split; [|set_solver]. rewrite !insert_insert_eq. split_and!; simpl.
    + etrans; [by apply (frame_insert _ _ node)|done].
    + intros s nd' Hs' Hin HnE. rewrite lookup_insert.
      destruct (decide (i = tid s)) as [Hid|Hid].
      * intros [= Heq]. subst nd'. simpl.
        assert (s = Br i l r) as ->.
        { destruct Hholds as (Hnd0 & _).
          eapply subtrees_unique; [exact Hnd0|exact Hs'|exact Hs|by simpl]. }
        simpl. by rewrite length_app.
      * intros Hlk. eapply Hdone2; eauto. set_solver.
    + intros v nd'. rewrite lookup_insert. destruct (decide (i = v)) as [Hid|Hid].
      * subst v. intros _ [Hv|Hv]; [set_solver|]. exfalso. eapply HE; [|done]. by left.
      * intros Hlk [Hv|Hv]; eapply Hempty2; eauto. right. set_solver.
Qed.

Lemma subtrees_height t s : s ∈ subtrees t → height s ≤ height t.
Proof.
  induction t as [i|i l IHl r IHr]; simpl.
  - by intros ->%list_elem_of_singleton.
  - intros [->|[Hs|Hs]%elem_of_app]%elem_of_cons; [done|..].
    + apply IHl in Hs. lia.
    + apply IHr in Hs. lia.
Qed.

Lemma visit_all_leaves nodes0 t fuel ks st :
  holds nodes0 t → height t < fuel → (∀ k, k ∈ ks → k ∈ ids t) →
  visiting nodes0 t ∅ st →
  ∃ st', for_each (visit_unvisited (visit_leaves fuel)) ks st = Ok st' ∧
         visiting nodes0 t ∅ st' ∧ st.1 ⊆ st'.1 ∧ ∀ k, k ∈ ks → k ∈ st'.1.
Proof.
  intros Hholds Hfuel. revert st.
  induction ks as [|k ks IH]; intros st Hks Hvis.
  - exists st. split_and!; [done..|]. by intros ? ?%elem_of_nil.
  - cbn [for_each].
    assert (∃ st1, visit_unvisited (visit_leaves fuel) st k = Ok st1 ∧
                   visiting nodes0 t ∅ st1 ∧ st.1 ⊆ st1.1 ∧ k ∈ st1.1)
      as (st1 & -> & Hvis1 & Hsub1 & Hk1).
    { unfold visit_unvisited. case_decide as Hin; [eauto|].
      destruct (ids_subtree t k) as (s & Hs & <-); [apply Hks; by left|].
      apply visit_leaves_ok with (t := t) (nodes0 := nodes0) (E := ∅);
        [done|done| |done|done|intros ??; apply not_elem_of_empty].
      pose proof (subtrees_height _ _ Hs). lia. }
    cbn [mbind res_bind].
    destruct (IH st1) as (st' & Hst' & Hvis' & Hsub' & Hall);
      [intros ??; apply Hks; by right|done|].
    exists st'. split_and!; [done|done|set_solver|].
    intros k' [->|Hk']%elem_of_cons; [set_solver|eauto].
Qed.

(** [reverse_topological_process], on the arena of a tree whose nodes have
    no leaf yet, ends, and leaves at every node the leaves of its subtree
    and their number. *)
Lemma reverse_topological_process_ok nodes0 t fuel :
  holds nodes0 t → height t < fuel →
  (∀ v nd, nodes0 !! v = Some nd → Node.subtree_leaves nd = []) →
  ∃ nodes1, reverse_topological_process fuel nodes0 = Ok nodes1 ∧
    frame <$> nodes1 = frame <$> nodes0 ∧
    ∀ s nd, s ∈ subtrees t → nodes1 !! tid s = Some nd →
      Node.subtree_leaves nd = leaves s ∧
      Node.weight nd = of_nat (length (leaves s)).
Proof.
  intros Hholds Hfuel Hfresh. unfold reverse_topological_process.
  destruct (visit_all_leaves nodes0 t fuel (keys nodes0) (∅, nodes0))
    as (st' & -> & (Hframe & Hdone & _) & _ & Hall); [done..| | |].
  { intros k [nd Hk]%elem_of_keys. apply (holds_dom _ _ _ Hholds). eauto. }
  { split_and!; simpl; [done| |eauto]. intros s nd _ Hin. set_solver. }
  cbn [mbind res_bind]. eexists. split; [done|]. split; [done|].
  intros s nd Hs Hnd. apply Hdone; [done| |set_solver|done].
  apply Hall, elem_of_keys. apply (holds_dom _ _ _ Hholds). by apply subtrees_tid.
Qed.

(** ** The division by the number of leaves *)

Lemma normalize_inv num_leaves nodes k nodes' :
  normalize num_leaves nodes k = Ok nodes' →
  ∃ nd, nodes !! k = Some nd ∧ nodes' = <[k := normalized num_leaves nd]> nodes.
Proof.
  unfold normalize. intros H. inv_res. case_decide; [done|].
  destruct (fltb _ _); inv_res. eauto.
Qed.

Lemma normalize_all num_leaves ks nodes nodes' :
  NoDup ks → for_each (normalize num_leaves) ks nodes = Ok nodes' →
  ∀ k, nodes' !! k = if decide (k ∈ ks) then normalized num_leaves <$> nodes !! k
                     else nodes !! k.
Proof.
  revert nodes. induction ks as [|x ks IH]; intros nodes Hnd H k.
  - simpl in H. inv_res. rewrite decide_False; [done|]. apply not_elem_of_nil.
  - apply NoDup_cons in Hnd as [Hxin Hnd]. simpl in H. inv_res.
    apply normalize_inv in Hx as (nd & Hnd' & ->).
    rewrite (IH _ Hnd H k). destruct (decide (k = x)) as [->|Hne].
    + rewrite decide_False by done. rewrite decide_True by (by left).
      by rewrite lookup_insert_eq, Hnd'.
    + rewrite lookup_insert_ne by done.
      destruct (decide (k ∈ ks)).
      * rewrite decide_True by (by right). done.
      * rewrite decide_False; [done|]. by intros [?|?]%elem_of_cons.
Qed.

Lemma normalize_total num_leaves ks nodes :
  NoDup ks → num_leaves ≠ 0 →
  (∀ k, k ∈ ks → ∃ nd, nodes !! k = Some nd ∧
     fltb (Node.weight nd / (f1 * of_nat num_leaves))%py (f1 * of_nat num_leaves)%py = true) →
  ∃ nodes', for_each (normalize num_leaves) ks nodes = Ok nodes'.
Proof.
  intros Hnd Hn. revert nodes. induction ks as [|x ks IH]; intros nodes Hks.
  - simpl. eauto.
  - apply NoDup_cons in Hnd as [Hx Hnd]. cbn [for_each].
    destruct (Hks x) as (nd & Hx' & Hlt); [by left|].
    assert (normalize num_leaves nodes x
            = Ok (<[x := normalized num_leaves nd]> nodes)) as ->.
    { unfold normalize. rewrite Hx'. cbn [of_option mbind res_bind].
      rewrite decide_False by done. by rewrite Hlt. }
    cbn [mbind res_bind]. apply IH; [done|].
    intros k Hk. destruct (Hks k) as (nd' & Hk' & Hlt'); [by right|].
    exists nd'. split; [|done]. rewrite lookup_insert_ne; [done|]. by intros ->.
Qed.

Lemma keys_NoDup `{Countable K} {V} (d : gmap K V) : NoDup (keys d).
Proof. apply NoDup_fst_map_to_list. Qed.

Lemma frame_normalized n nd : frame (normalized n nd) = frame nd.
Proof. done. Qed.

(** What [_compute_weights] returns, when it returns. *)
Lemma _compute_weights_inv nodes0 t fuel num_leaves nodes :
  holds nodes0 t → height t < fuel →
  (∀ v nd, nodes0 !! v = Some nd → Node.subtree_leaves nd = []) →
  _compute_weights fuel num_leaves nodes0 = Ok nodes →
  frame <$> nodes = frame <$> nodes0 ∧
  ∀ s nd, s ∈ subtrees t → nodes !! tid s = Some nd →
    Node.subtree_leaves nd = leaves s ∧
    Node.weight nd = (of_nat (length (leaves s)) / (f1 * of_nat num_leaves))%py.
Proof.
  intros Hholds Hfuel Hfresh H. unfold _compute_weights in H.
  destruct (reverse_topological_process_ok _ _ _ Hholds Hfuel Hfresh)
    as (nodes1 & Hrtp & Hframe & Hleaves).
  rewrite Hrtp in H. simpl in H.
  pose proof (normalize_all _ _ _ _ (keys_NoDup _) H) as Hall.
  split.
  - rewrite <- Hframe. apply map_eq. intros k. rewrite !lookup_fmap, Hall.
    case_decide; [|done]. by destruct (nodes1 !! k).
  - intros s nd Hs. rewrite Hall.
    destruct (nodes1 !! tid s) as [nd1|] eqn:Hnd1.
    + destruct (Hleaves s nd1 Hs Hnd1) as [Hl Hw].
      rewrite decide_True by (apply elem_of_keys; eauto). simpl.
      intros [= <-]. simpl. by rewrite Hw.
    + rewrite decide_False; [done|]. intros [??]%elem_of_keys. congruence.
Qed.

End WeightProps.

(** ** The weights in real arithmetic *)

Lemma leaves_pos t : 0 < length (leaves t).
Proof.
  induction t as [i|i l IHl r IHr]; simpl; [lia|]. rewrite length_app. lia.
Qed.

Lemma subtrees_leaves_le t s :
  s ∈ subtrees t → length (leaves s) ≤ length (leaves t).
Proof.
  induction t as [i|i l IHl r IHr]; simpl.
  - by intros ->%list_elem_of_singleton.
  - intros [->|[Hs|Hs]%elem_of_app]%elem_of_cons; simpl; rewrite ?length_app; [lia|..].
    + apply IHl in Hs. lia.
    + apply IHr in Hs. lia.
Qed.

Lemma subtrees_leaves_lt t s :
  s ∈ subtrees t → s ≠ t → length (leaves s) < length (leaves t).
Proof.
  destruct t as [i|i l r]; simpl.
  - by intros ->%list_elem_of_singleton.
  - intros [->|[Hs|Hs]%elem_of_app]%elem_of_cons Hne; [done|..];
      apply subtrees_leaves_le in Hs; rewrite length_app;
      pose proof (leaves_pos l); pose proof (leaves_pos r); lia.
Qed.

Section RealWeights.
#[local] Existing Instance real_arith.
Implicit Types (nodes : gmap nat (Node.t real_arith)).

Lemma eltb_Fin a b : (a < b)%R → eltb (Fin a) (Fin b) = true.
Proof. intros Hab. unfold eltb. by destruct (Rlt_dec a b). Qed.

Lemma fraction_le_1 k n : k ≤ n → 0 < n → (INR k / INR n <= 1)%R.
Proof.
  intros Hkn Hn. pose proof (INR_pos n Hn). apply le_INR in Hkn.
  apply Rmult_le_reg_r with (INR n); [done|].
  unfold Rdiv. rewrite Rmult_assoc, Rinv_l by lra. lra.
Qed.

Lemma fraction_lt_1 k n : k < n → (INR k / INR n < 1)%R.
Proof.
  intros Hkn. pose proof (INR_pos n ltac:(lia)). apply lt_INR in Hkn.
  apply Rmult_lt_reg_r with (INR n); [done|].
  unfold Rdiv. rewrite Rmult_assoc, Rinv_l by lra. lra.
Qed.

(** C8.  On the arena of a tree of at least two points whose nodes have no
    leaf yet, in real arithmetic, [_compute_weights] ends, and the weight of
    every node is the number of leaves of its subtree over the number of
    leaves of the tree: 1 at the root, less than 1 elsewhere. *)
Theorem weights_are_leaf_fractions nodes0 t fuel :
  holds nodes0 t →
  (∀ v nd, nodes0 !! v = Some nd → Node.subtree_leaves nd = []) →
  height t < fuel → 1 < length (leaves t) →
  ∃ nodes, _compute_weights fuel (length (leaves t)) nodes0 = Ok nodes ∧
    ∀ s, s ∈ subtrees t → ∃ nd, nodes !! tid s = Some nd ∧
      Node.weight nd = Fin (INR (length (leaves s)) / INR (length (leaves t))) ∧
      (s = t → Node.weight nd = f1) ∧
      (s ≠ t → fltb (Node.weight nd) f1 = true).
Proof.
  intros Hholds Hfresh Hfuel HN.
  pose proof (INR_pos (length (leaves t)) ltac:(lia)) as HNpos.
  assert (2 <= INR (length (leaves t)))%R as HN2.
  { apply (le_INR 2) in HN. simpl in HN. lra. }
  destruct (reverse_topological_process_ok _ _ _ Hholds Hfuel Hfresh)
    as (nodes1 & Hrtp & Hframe & Hleaves).
  assert (∃ nodes, _compute_weights fuel (length (leaves t)) nodes0 = Ok nodes)
    as [nodes Hcw].
  { unfold _compute_weights. rewrite Hrtp. cbn [mbind res_bind].
    apply normalize_total; [apply keys_NoDup|lia|].
    intros k [nd Hk]%elem_of_keys. exists nd. split; [done|].
    pose proof (holds_links _ _ _ (frame_links _ _ Hframe) Hholds) as Hh.
    destruct (ids_subtree t k) as (s & Hs & <-).
    { apply (holds_dom _ _ _ Hh). eauto. }
    destruct (Hleaves s nd Hs Hk) as [_ ->]. simpl.
    rewrite emul_Fin, ediv_Fin by lra. apply eltb_Fin.
    pose proof (fraction_le_1 _ _ (subtrees_leaves_le _ _ Hs) ltac:(lia)).
    rewrite !Rmult_1_l. lra. }
  exists nodes. split; [done|]. intros s Hs.
  destruct (_compute_weights_inv _ _ _ _ _ Hholds Hfuel Hfresh Hcw) as [Hframe' Hw].
  pose proof (holds_links _ _ _ (frame_links _ _ Hframe') Hholds) as Hh.
  destruct (proj1 (holds_dom _ _ (tid s) Hh) (subtrees_tid _ _ Hs)) as [nd Hnd].
  exists nd. split; [done|]. destruct (Hw s nd Hs Hnd) as [_ Hweight].
  assert (Node.weight nd = Fin (INR (length (leaves s)) / INR (length (leaves t))))
    as ->.
  { rewrite Hweight. simpl. rewrite emul_Fin, ediv_Fin by lra.
    by rewrite Rmult_1_l. }
  split; [done|]. split.
  - intros ->. simpl. f_equal. unfold Rdiv. rewrite Rinv_r; lra.
  - intros Hne. simpl. apply eltb_Fin. apply fraction_lt_1.
    by apply subtrees_leaves_lt.
Qed.

End RealWeights.

Section ReachableProps.
Context {A : Arith}.
Implicit Types (self : HS.t A) (nodes : gmap nat (Node.t A)) (nd : Node.t A).

(** ** The sampler that [__init__] builds *)

Lemma findNode_pristine nodes idx :
  (∀ v nd, nodes !! v = Some nd → pristine nd) → pristine (findNode nodes idx).
Proof.
  intros Hall. unfold findNode. destruct (nodes !! idx) eqn:Hi; simpl; [eauto|done].
Qed.

Lemma merges_pristine children_ nodes ii :
  (∀ v nd, nodes !! v = Some nd → pristine nd) →
  ∀ v nd, merges nodes ii children_ !! v = Some nd → pristine nd.
Proof.
  revert nodes ii. induction children_ as [|[l r] cs IH]; intros nodes ii Hall; [done|].
  simpl. apply IH. intros v nd. unfold merge.
  pose proof (findNode_pristine nodes l Hall).
  pose proof (findNode_pristine nodes r Hall).
  pose proof (findNode_pristine nodes ii Hall).
  rewrite !lookup_insert. repeat case_decide; try (intros [= <-]; done). eauto.
Qed.

Lemma constructed_pristine n children_ v nd :
  constructed n children_ !! v = Some nd → pristine nd.
Proof.
  unfold constructed. rewrite lookup_fmap.
  destruct (merges ∅ n children_ !! v) as [nd0|] eqn:Hv; [|done].
  intros [= <-]. apply merges_pristine in Hv; [|by intros ??; rewrite lookup_empty].
  unfold mark_leaf. by case_bool_decide.
Qed.

Lemma shape_parent nodes par t s :
  shape nodes par t → s ∈ subtrees t → s ≠ t →
  ∃ nd p, nodes !! tid s = Some nd ∧ Node.parent nd = Some p.
Proof.
  revert par. induction t as [i|i l IHl r IHr]; intros par Hsh Hs Hne.
  - simpl in Hs. by apply list_elem_of_singleton in Hs.
  - destruct Hsh as (nd & _ & _ & _ & _ & _ & _ & Hsl & Hsr).
    simpl in Hs. apply elem_of_cons in Hs as [->|[Hs|Hs]%elem_of_app]; [done|..].
    + destruct (decide (s = l)) as [->|]; [|eauto].
      destruct (shape_root _ _ _ Hsl) as (nd' & ? & ?). eauto.
    + destruct (decide (s = r)) as [->|]; [|eauto].
      destruct (shape_root _ _ _ Hsr) as (nd' & ? & ?). eauto.
Qed.

Lemma _construct_tree_root n children_ root nodes t :
  _construct_tree n children_ = Ok (root, nodes) →
  holds (constructed n children_) t → root = tid t ∧ nodes = constructed n children_.
Proof.
  unfold _construct_tree. intros H Hholds. inv_res. split; [|done].
  destruct (List.find _ _) as [[k nd0]|] eqn:Hfind; [|done].
  simpl in Hx. injection Hx as <-.
  apply find_some in Hfind as [Hin Hpar]. simpl in Hpar.
  apply bool_decide_eq_true in Hpar. apply list_elem_of_In in Hin.
  apply elem_of_map_to_list in Hin.
  assert (constructed n children_ !! k = Some (mark_leaf nd0)) as Hk.
  { unfold constructed. by rewrite lookup_fmap, Hin. }
  assert (Node.parent (mark_leaf nd0) = None) as Hpar'.
  { unfold mark_leaf. by case_bool_decide. }
  destruct (holds_lookup _ _ _ _ Hholds Hk) as (s & Hs & <- & _).
  destruct (decide (s = t)) as [->|Hne]; [done|].
  destruct Hholds as (_ & Hsh & _).
  destruct (shape_parent _ _ _ _ Hsh Hs Hne) as (nd' & p & Hnd' & Hp). congruence.
Qed.

Lemma before_tuning_sound fuel X_train y_train X_unlabeled y_unlabeled n children_ self t :
  before_tuning fuel X_train y_train X_unlabeled y_unlabeled n children_ = Ok self →
  holds (constructed (length (X_train ++ X_unlabeled)) children_) t →
  height t < fuel →
  sound fuel t self.
Proof.
  intros H Hholds Hfuel. unfold before_tuning in H. case_decide as Hn; [|done].
  inv_res. destruct x as [root nodes0]. inv_res.
  destruct (_construct_tree_root _ _ _ _ _ Hx Hholds) as [-> ->].
  destruct (_compute_weights_inv _ t _ _ _ Hholds Hfuel
              ltac:(intros v nd Hv; by destruct (constructed_pristine _ _ _ _ Hv)) Hx0)
    as [Hframe Hleaves].
  pose proof (holds_links _ _ _ (frame_links _ _ Hframe) Hholds) as Hh.
  split_and!; simpl; [done|done|..].
  - intros s nd Hs Hnd. by destruct (Hleaves s nd Hs Hnd).
  - intros v nd Hv. apply (f_equal (λ m, m !! v)) in Hframe.
    rewrite !lookup_fmap, Hv in Hframe. simpl in Hframe.
    destruct (constructed _ _ !! v) as [nd0|] eqn:Hv0; [|done].
    destruct (constructed_pristine _ _ _ _ Hv0) as (_ & Hc & Hr).
    injection Hframe as _ Hc' Hr'. apply new_counted; congruence.
  - rewrite dom_singleton_L. apply cut_here.
  - done.
  - intros v l. set_solver.
  - done.
Qed.

(** ** What [sample] keeps *)

Lemma count_at_leaves l nodes i nodes' :
  count_at l nodes i = Ok nodes' →
  Node.subtree_leaves <$> nodes' = Node.subtree_leaves <$> nodes.
Proof.
  unfold count_at. intros H. inv_res. rewrite fmap_insert.
  apply insert_id. by rewrite lookup_fmap, Hx.
Qed.

Lemma update_counts_leaves fuel nodes l z v nodes' :
  update_counts fuel nodes l z v = Ok nodes' →
  Node.subtree_leaves <$> nodes' = Node.subtree_leaves <$> nodes.
Proof.
  unfold update_counts. intros H. inv_res.
  eapply (for_each_inv (λ n, Node.subtree_leaves <$> n = Node.subtree_leaves <$> nodes));
    [|done|exact H].
  intros n i n' _ Hn Hc. apply count_at_leaves in Hc. congruence.
Qed.

(** A pair that [_update] admits is a node of the arena with a label of the
    problem. *)
Lemma admit_pairs_new self lb ub update_nodes update_labels self' v l :
  admit_pairs self lb ub update_nodes update_labels = Ok self' →
  (v, l) ∈ HS.admissible_set self' →
  (v, l) ∈ HS.admissible_set self ∨ is_Some (lb !! (v, l)).
Proof.
  unfold admit_pairs.
  set (P := λ s : HS.t A, (v, l) ∈ HS.admissible_set s →
                          (v, l) ∈ HS.admissible_set self ∨ is_Some (lb !! (v, l))).
  intros H. eapply (for_each_inv P); [| |exact H]; [|by left].
  intros s node_id s' _ Hs Hbody.
  eapply (for_each_inv P); [| |exact Hbody]; [|done].
  intros s1 label s2 _ Hs1 Hb. cbv beta in Hb. inv_res.
  destruct x; inv_res; [|done]. unfold is_admissible in Hx.
  apply bind_Ok in Hx as (lbv & Hlb%of_option_Ok & _).
  intros Hin. simpl in Hin.
  apply elem_of_union in Hin as [Hin|Hin]; [by apply Hs1|].
  apply elem_of_singleton in Hin as [= -> ->]. right. eauto.
Qed.

Lemma estimate_keys self e v l :
  estimate self = Ok e → is_Some (e_p_vl_LB e !! (v, l)) →
  is_Some (HS.nodes self !! v) ∧ l ∈ HS.labels self.
Proof.
  unfold estimate. intros H Hl. inv_res. simpl in Hl.
  apply elem_of_keys in Hl. apply (dict_of_keys _ _ _ _ Hx1) in Hl.
  apply (dict_of_keys _ _ _ _ Hx) in Hl. by apply elem_of_vl_keys in Hl.
Qed.

Lemma _update_admissible fuel self update_nodes update_labels self' v l :
  _update fuel self update_nodes update_labels = Ok self' →
  (v, l) ∈ HS.admissible_set self' →
  (v, l) ∈ HS.admissible_set self ∨
  (is_Some (HS.nodes self !! v) ∧ l ∈ HS.labels self).
Proof.
  unfold _update. intros H Hin. inv_res. destruct x as [p_vl delta lb ub]. inv_res.
  simpl in Hin. pose proof (admit_pairs_spec _ _ _ _ _ _ Hx0) as (adm & Heq & _).
  destruct (admit_pairs_new _ _ _ _ _ _ v l Hx0) as [?|Hs]; [done|by left|].
  right. by apply (estimate_keys _ _ _ _ Hx) in Hs.
Qed.

Lemma sample_loop_sound fuel t self tape self' z tape' :
  sound fuel t self →
  sample_loop fuel self tape = Ok (self', z, tape') →
  sound fuel t self'.
Proof.
  intros (Hfuel & Hholds & Hleaves & Hcnt & Hcut & Hlabels & Hadm & Hact) H.
  pose proof (sample_loop_grows _ _ _ _ _ _ H)
    as (HXt & _ & _ & Hy & _ & _ & Hlab & _ & Htun & Hrev & _).
  destruct (sample_loop_cut _ _ _ _ _ _ _ Hholds Hcut H) as [Hholds' Hcut'].
  apply sample_loop_spec in H
    as (d & v & s1 & l & n & pa & sk & _ & _ & Hp & _ & Hc & _ & Hu).
  apply _pick_sample_id_from_node_grows in Hp as (Hg1 & Hn1 & _ & Hadm1).
  destruct Hg1 as (_ & _ & _ & _ & _ & _ & Hlab1 & _).
  pose proof (_update_grows _ _ _ _ _ Hu) as (_ & Hn & _). simpl in Hn.
  split_and!; [done|done| | |done|congruence| |].
  - intros s nd Hs. rewrite Hn. intros Hnd.
    apply update_counts_leaves in Hc.
    apply (f_equal (λ m, m !! tid s)) in Hc. rewrite !lookup_fmap, Hnd in Hc.
    simpl in Hc. destruct (HS.nodes self !! tid s) as [nd0|] eqn:Hnd0; [|done].
    injection Hc as ->. eauto.
  - rewrite Hn. eapply update_counts_counted; eauto.
  - intros v' l' Hin. rewrite Hlab.
    apply (_update_admissible _ _ _ _ _ _ _ Hu) in Hin as [Hin|[Hv Hl]]; simpl in *.
    + rewrite Hadm1 in Hin. eauto.
    + split; [|by rewrite <- Hlab1].
      apply (holds_dom _ _ _ Hholds'). by rewrite Hn.
  - rewrite Htun, HXt. intros Hf i Hi. apply Hrev. eauto.
Qed.

Lemma reachable_sound fuel t self : reachable fuel t self → sound fuel t self.
Proof.
  induction 1 as [Xt yt Xu yu n ch self Hb Hholds Hfuel
                 |self tape self' r tape' _ IH Hs|self _ IH Hall].
  - by eapply before_tuning_sound.
  - unfold sample in Hs. inv_res. destruct x as [[s z] tp].
    apply sample_loop_sound with (t := t) in Hx; [|done].
    destruct (HS.tuning_phase s); by inv_res.
  - destruct IH as (?&?&?&?&?&?&?&?). by split_and!.
Qed.

(** C2.  In every sampler that a run reaches, the keys of the pruning are
    an antichain of nodes of the tree whose subtrees partition its leaves:
    every leaf is below exactly one key.  So it is between the calls, each
    of which ends with the rewrites of [_update]; and so it is after each
    single rewrite: rewriting entries of the pruning, one key after the
    other, with the scores that [bottom_up_compute] finds over an arena of
    the tree leaves keys that partition the leaves. *)
Theorem pruning_partitions_the_leaves fuel t self :
  reachable fuel t self →
  partitions t (dom (HS.pruning self)) ∧
  ∀ self1 p_vl st v_ids pruning,
    holds (HS.nodes self1) t →
    bottom_up_compute fuel self1 p_vl = Ok st →
    for_each (rewrite_entry (s_v st)) v_ids (HS.pruning self) = Ok pruning →
    partitions t (dom pruning).
Proof.
  intros (_ & (Hnd & _) & _ & _ & Hcut & _)%reachable_sound.
  split; [by apply cut_partitions|].
  intros self1 p_vl st v_ids pruning Hholds Hscores Hrun.
  apply cut_partitions; [done|].
  apply bottom_up_compute_good with (t := t) in Hscores; [|done].
  eapply (for_each_inv (λ P, cut t (dom P))); [|exact Hcut|exact Hrun].
  intros P v P' _ HP Hr. by eapply rewrite_entry_cut.
Qed.

End ReachableProps.

(** * Progress of a call *)

Section ProgressProps.
Context {A : Arith}.
Implicit Types (self : HS.t A) (nodes : gmap nat (Node.t A)) (nd : Node.t A).

(** ** [_select] *)

Lemma choice_Some {X} (seq : list X) d x : choice seq d = Some x → x ∈ seq.
Proof. unfold choice. intros H. by eapply list_elem_of_lookup_2. Qed.

Lemma choice_nonempty {X} (seq : list X) d : seq ≠ [] → is_Some (choice seq d).
Proof.
  intros Hne. unfold choice. apply lookup_lt_is_Some.
  apply Nat.mod_upper_bound. by destruct seq.
Qed.

Lemma choice_elem {X} (seq : list X) x : x ∈ seq → ∃ d, choice seq d = Some x.
Proof.
  intros (i & Hi)%list_elem_of_lookup_1. exists i. unfold choice.
  rewrite Nat.mod_small; [done|]. by eapply lookup_lt_Some.
Qed.

Lemma _select_inv self d v :
  _select self d = Ok v → choice (keys (HS.pruning self)) d = Some v.
Proof. unfold _select. intros H. by inv_res. Qed.

Lemma _select_total self t d v :
  holds (HS.nodes self) t → cut t (dom (HS.pruning self)) →
  choice (keys (HS.pruning self)) d = Some v → _select self d = Ok v.
Proof.
  intros Hholds Hcut Hc. unfold _select.
  destruct (for_each_total (λ _ : list F, True)
              (λ ws node_id, nd ← of_option KeyError (HS.nodes self !! node_id);
                             Ok (ws ++ [Node.weight nd]))
              (keys (HS.pruning self)) []) as (ws & -> & _); [|done|].
  - intros ws k Hk _. apply elem_of_keys, elem_of_dom in Hk.
    apply (cut_ids _ _ _ Hcut), (holds_dom _ _ _ Hholds) in Hk as [nd ->].
    simpl. eauto.
  - simpl. by rewrite Hc.
Qed.

(** ** [_pick_sample_id_from_node] *)

Lemma scan_leaves_total self ls acc :
  (∀ z, z ∈ ls → z < length (HS.X_train self) + length (HS.X_unlabeled self)) →
  (HS.tuning_phase self = false →
   ∀ z, z ∈ ls → z < length (HS.X_train self) → z ∈ HS.revealed self) →
  ∃ r, scan_leaves self ls acc = Ok r.
Proof.
  revert acc. induction ls as [|x ls IH]; simpl; intros acc Hlt Hact; [eauto|].
  assert (∃ r, scan_leaves self ls acc = Ok r) as Hrest.
  { apply IH; [intros ??; apply Hlt; by right|intros ???; apply Hact; [done|by right]]. }
  case_decide as Hx; [done|].
  unfold _is_unlabeled. rewrite decide_True by (apply Hlt; by left). simpl.
  case_bool_decide as Hk; simpl.
  - apply IH; [intros ??; apply Hlt; by right|intros ???; apply Hact; [done|by right]].
  - destruct (HS.tuning_phase self) eqn:Ht; [eauto|].
    exfalso. apply Hx, Hact; [done|by left|lia].
Qed.

Lemma eligible_revealed self z w :
  eligible (reveal w self) z → eligible self z.
Proof. unfold eligible, reveal. simpl. set_solver. Qed.

(** In a turn, [_pick_sample_id_from_node] picks a point below the node
    when an eligible one is there, and changes nothing when none is. *)
Lemma _pick_sample_id_from_node_total self node_id nd d :
  HS.nodes self !! node_id = Some nd →
  (∀ z, z ∈ Node.subtree_leaves nd →
        z < length (HS.X_train self) + length (HS.X_unlabeled self)) →
  (HS.tuning_phase self = false →
   ∀ i, i < length (HS.X_train self) → i ∈ HS.revealed self) →
  ∃ self' oz, _pick_sample_id_from_node self node_id d = Ok (self', oz) ∧
    match oz with
    | Some z => z ∈ Node.subtree_leaves nd ∧ eligible self z
    | None => self' = self ∧ ∀ z, z ∈ Node.subtree_leaves nd → ¬ eligible self z
    end.
Proof.
  intros Hnd Hlt Hact.
  destruct (scan_leaves_total self (Node.subtree_leaves nd) [] Hlt) as [r Hr].
  { intros Ht z _ Hz. by apply Hact. }
  unfold _pick_sample_id_from_node. rewrite Hnd. simpl. rewrite Hr. simpl.
  destruct r as [z|sample_ids].
  - do 2 eexists. split; [done|].
    apply scan_leaves_inl in Hr as (Hin & Hz & Hu & Ht).
    split; [done|]. unfold eligible. rewrite Ht.
    split_and!; [done|by apply Hlt|by apply _is_unlabeled_false].
  - apply scan_leaves_inr in Hr as [Hids Hunl].
    destruct (HS.tuning_phase self) eqn:Ht; simpl.
    { do 2 eexists. split; [done|]. split; [done|].
      intros z Hz (Hrev & _ & Hk). rewrite Ht in Hk.
      specialize (Hunl z Hz Hrev). unfold _is_unlabeled in Hunl.
      case_decide; [|done]. injection Hunl as Hb.
      apply bool_decide_eq_true in Hb. lia. }
    case_bool_decide as Hlen; simpl.
    { do 2 eexists. split; [done|]. split; [done|].
      intros z Hz (Hrev & _). destruct sample_ids; [|done].
      eapply not_elem_of_nil, Hids. right. eauto. }
    assert (sample_ids ≠ []) as Hne by (by destruct sample_ids).
    destruct (choice_nonempty sample_ids (d_reveal d) Hne) as [u ->].
    destruct (choice_nonempty sample_ids (d_return d) Hne) as [z Hz]. rewrite Hz.
    simpl. do 2 eexists. split; [done|].
    apply choice_Some, Hids in Hz as [?%elem_of_nil|[Hin Hrev]]; [done|].
    split; [done|]. unfold eligible. rewrite Ht.
    split_and!; [done|by apply Hlt|].
    specialize (Hunl z Hin Hrev). unfold _is_unlabeled in Hunl.
    case_decide; [|done]. injection Hunl as Hb. by apply bool_decide_eq_true in Hb.
Qed.

(** ** The path of the point picked *)

Lemma up_root_once t z p :
  NoDup (ids t) → up t z = Some p →
  ∃ pre, p = pre ++ [tid t] ∧ tid t ∉ pre ∧ length pre ≤ height t ∧
         ∀ c, c ∈ p → c ∈ ids t.
Proof.
  intros Hnd Hup. destruct (up_spec _ _ _ Hup) as (pre & -> & _ & Hlen & Hin).
  exists pre. split_and!; [done| |done..].
  destruct t as [i|i l r]; simpl in Hup.
  - case_decide; [|done]. injection Hup as Hp.
    assert (pre = []) as -> by (by destruct pre as [|?[|??]]).
    apply not_elem_of_nil.
  - case_decide.
    { injection Hup as Hp.
      assert (pre = []) as -> by (by destruct pre as [|?[|??]]).
      apply not_elem_of_nil. }
    simpl in Hnd. apply NoDup_cons in Hnd as [Hi _]. simpl.
    destruct (up l z) as [q|] eqn:Hq.
    + injection Hup as Hp. apply app_inj_tail in Hp as [-> _].
      intros Hq'. apply Hi, elem_of_app. left.
      destruct (up_spec _ _ _ Hq) as (_ & _ & _ & _ & Hin'). eauto.
    + destruct (up r z) as [q|] eqn:Hq'; [|done].
      injection Hup as Hp. apply app_inj_tail in Hp as [-> _].
      intros Hq''. apply Hi, elem_of_app. right.
      destruct (up_spec _ _ _ Hq') as (_ & _ & _ & _ & Hin'). eauto.
Qed.

Lemma leaf_not_root t z :
  NoDup (ids t) → 1 < length (leaves t) → z ∈ leaves t → z ≠ tid t.
Proof.
  destruct t as [i|i l r]; simpl; [lia|].
  intros [Hi _]%NoDup_cons _ Hz ->. apply Hi.
  apply elem_of_app in Hz as [?|?]; apply elem_of_app; eauto using leaves_ids.
Qed.

(** From a node of the subtree of [v], other than the root of the tree,
    [_get_upward_path] reaches [v]. *)
Lemma _get_upward_path_total nodes t s z fuel :
  holds nodes t → height t < fuel → s ∈ subtrees t → z ∈ ids s → z ≠ tid t →
  ∃ path, _get_upward_path fuel nodes z (tid s) = Ok path ∧
          ∀ c, c ∈ path → c ∈ ids t.
Proof.
  intros Hholds Hfuel Hs Hz Hroot. pose proof Hholds as (Hnd & _).
  destruct (up_subtree _ _ _ Hnd Hs Hz) as (p & post & Hp & Hup).
  destruct (up_root_once _ _ _ (subtrees_NoDup _ _ Hnd Hs) Hp)
    as (pre & -> & Hpre & Hlen & Hin).
  rewrite <- app_assoc in Hup. simpl in Hup.
  exists (pre ++ [tid s]). split.
  - eapply _get_upward_path_ancestor; eauto.
    pose proof (subtrees_height _ _ Hs). lia.
  - intros c Hc. eapply subtrees_ids; eauto.
Qed.

Lemma count_all_total l nodes t path :
  holds nodes t → (∀ c, c ∈ path → c ∈ ids t) →
  ∃ nodes', for_each (count_at l) path nodes = Ok nodes'.
Proof.
  intros Hholds Hpath.
  destruct (for_each_total (λ n, links <$> n = links <$> nodes) (count_at l) path nodes)
    as (n' & Hn' & _); [|done|eauto].
  intros n c Hc Hn. pose proof (holds_links _ _ _ Hn Hholds) as Hh.
  destruct (proj1 (holds_dom _ _ c Hh) (Hpath c Hc)) as [nd Hnd].
  assert (count_at l n c = Ok (<[c := count_one l nd]> n)) as Hc'.
  { unfold count_at. by rewrite Hnd. }
  eexists. split; [done|]. apply count_at_links in Hc'. congruence.
Qed.

Lemma update_counts_total fuel nodes t s l z :
  holds nodes t → height t < fuel → s ∈ subtrees t → z ∈ ids s → z ≠ tid t →
  ∃ nodes', update_counts fuel nodes l z (tid s) = Ok nodes'.
Proof.
  intros Hholds Hfuel Hs Hz Hroot.
  destruct (_get_upward_path_total _ _ _ _ _ Hholds Hfuel Hs Hz Hroot) as (path & Hp & Hin).
  unfold update_counts. rewrite Hp. simpl. by eapply count_all_total.
Qed.

(** ** [_update] answers *)

Lemma is_admissible_total self (lb ub : gmap (nat * Z) F) v label :
  is_Some (lb !! (v, label)) →
  (∀ l, l ∈ HS.labels self → is_Some (ub !! (v, l))) →
  ∃ b, is_admissible self lb ub v label = Ok b.
Proof.
  intros [x Hx] Hub. unfold is_admissible. rewrite Hx. cbn [of_option mbind res_bind].
  match goal with
  | |- context [for_each ?b ?xs ?i] =>
      destruct (for_each_total (λ _ : F, True) b xs i) as (m & -> & _)
  end; [|done|by eexists].
  intros m lp Hlp _. cbv beta. case_decide; [|eauto].
  destruct (Hub lp) as [u ->]; [set_solver|]. simpl. eauto.
Qed.

Lemma admit_pairs_total self (lb ub : gmap (nat * Z) F) update_nodes update_labels :
  (∀ v l, v ∈ update_nodes → l ∈ HS.labels self →
          is_Some (lb !! (v, l)) ∧ is_Some (ub !! (v, l))) →
  (∀ l, l ∈ update_labels → l ∈ HS.labels self) →
  ∃ self', admit_pairs self lb ub update_nodes update_labels = Ok self'.
Proof.
  intros Hmaps Hlabels. unfold admit_pairs.
  match goal with
  | |- context [for_each ?b ?xs ?i] =>
      destruct (for_each_total (λ s : HS.t A, HS.labels s = HS.labels self) b xs i)
        as (s' & -> & _)
  end; [|done|by eexists].
  intros s v Hv Hs. cbv beta.
  apply (for_each_total (λ s : HS.t A, HS.labels s = HS.labels self)); [|done].
  intros s1 l Hl Hs1. cbv beta.
  destruct (is_admissible_total s1 lb ub v l) as [b ->].
  - apply Hmaps; auto.
  - intros l'. rewrite Hs1. intros ?. by apply Hmaps.
  - simpl. destruct b; eauto.
Qed.

Lemma epsilon_fill (self : HS.t A) (p_vl : gmap (nat * Z) F) (v : nat)
    (ls : list Z) (acc : bool * gmap (nat * Z) F) :
  (∀ l, (v, l) ∈ HS.admissible_set self → is_Some (p_vl !! (v, l))) →
  ∃ has (eps : gmap (nat * Z) F),
    for_each (λ '(has_admissible, eps) label,
      let vl := (v, label) in
      if decide (vl ∈ HS.admissible_set self) then
        p ← of_option KeyError (p_vl !! vl);
        Ok (true, <[vl := (f1 - p)%py]> eps)
      else Ok (has_admissible, <[vl := f1]> eps)) ls acc = Ok (has, eps) ∧
    (∀ l, l ∈ ls → is_Some (eps !! (v, l))) ∧
    (∀ k, is_Some (acc.2 !! k) → is_Some (eps !! k)).
Proof.
  intros Hadm. revert acc. induction ls as [|l ls IH]; intros [has eps].
  - exists has, eps. split_and!; [done| |done]. by intros ? ?%elem_of_nil.
  - cbn [for_each]. cbv beta zeta.
    assert (∃ acc1, (if decide ((v, l) ∈ HS.admissible_set self) then
                       p ← of_option KeyError (p_vl !! (v, l));
                       Ok (true, <[(v, l) := (f1 - p)%py]> eps)
                     else Ok (has, <[(v, l) := f1]> eps)) = Ok acc1 ∧
                    is_Some (acc1.2 !! (v, l)) ∧
                    ∀ k, is_Some (eps !! k) → is_Some (acc1.2 !! k))
      as (acc1 & -> & Hl & Hkeep).
    { case_decide as Hin.
      - destruct (Hadm l Hin) as [p ->]. simpl. eexists. split; [done|]. simpl.
        split; [by rewrite lookup_insert_eq|].
        intros k Hk. rewrite lookup_insert. by case_decide.
      - eexists. split; [done|]. simpl.
        split; [by rewrite lookup_insert_eq|].
        intros k Hk. rewrite lookup_insert. by case_decide. }
    cbn [mbind res_bind].
    destruct (IH acc1) as (has' & eps' & Hrun & Hall & Hkeep').
    exists has', eps'. split_and!; [exact Hrun| |].
    + intros l' [->|Hl']%elem_of_cons; eauto.
    + simpl. eauto.
Qed.

Lemma epsilon_loop_total self (p_vl : gmap (nat * Z) F) v eps :
  (∀ l, (v, l) ∈ HS.admissible_set self → is_Some (p_vl !! (v, l))) →
  ∃ has eps', epsilon_loop self p_vl v eps = Ok (has, eps') ∧
              ∀ l, l ∈ HS.labels self → is_Some (eps' !! (v, l)).
Proof.
  intros Hadm.
  destruct (epsilon_fill self p_vl v (elements (HS.labels self)) (false, eps) Hadm)
    as (has & eps' & Hrun & Hall & _).
  exists has, eps'. split; [done|]. intros l Hl. apply Hall. set_solver.
Qed.

Lemma min_by_total (key : Z → res F) best kbest ls :
  (∀ l, l ∈ ls → ∃ k, key l = Ok k) →
  ∃ b, min_by key best kbest ls = Ok b ∧ (b = best ∨ b ∈ ls).
Proof.
  revert best kbest. induction ls as [|l ls IH]; intros best kbest Hkey; simpl.
  - eauto.
  - destruct (Hkey l) as [k ->]; [by left|]. simpl.
    destruct (k <? kbest)%py.
    + destruct (IH l k) as (b & -> & Hb); [intros; apply Hkey; by right|].
      exists b. split; [done|]. right. destruct Hb as [->|?]; [by left|by right].
    + destruct (IH best kbest) as (b & -> & Hb); [intros; apply Hkey; by right|].
      exists b. split; [done|]. destruct Hb as [->|?]; [by left|right; by right].
Qed.

Lemma py_min_key_total (key : Z → res F) ls :
  ls ≠ [] → (∀ l, l ∈ ls → ∃ k, key l = Ok k) →
  ∃ b, py_min_key key ls = Ok b ∧ b ∈ ls.
Proof.
  destruct ls as [|l ls]; [done|]. intros _ Hkey. simpl.
  destruct (Hkey l) as [k ->]; [by left|]. simpl.
  destruct (min_by_total key l k ls) as (b & -> & Hb); [intros; apply Hkey; by right|].
  exists b. split; [done|]. destruct Hb as [->|?]; [by left|by right].
Qed.

Lemma node_of_subtree (nodes : gmap nat (Node.t A)) t s :
  holds nodes t → s ∈ subtrees t →
  ∃ nd, nodes !! tid s = Some nd ∧
    match s with
    | Leaf _ => Node.left nd = None ∧ Node.right nd = None ∧ Node.is_leaf nd = true
    | Br _ l r => Node.left nd = Some (tid l) ∧ Node.right nd = Some (tid r) ∧
                  Node.is_leaf nd = false
    end.
Proof.
  intros Hh Hs.
  destruct (proj1 (holds_dom _ _ (tid s) Hh)) as [nd Hnd].
  { eapply subtrees_ids; [done|apply tid_in_ids]. }
  exists nd. split; [done|].
  destruct (holds_lookup _ _ _ _ Hh Hnd) as (s' & Hs' & Hid & Hm).
  assert (s' = s) as -> by (destruct Hh; eapply subtrees_unique; eauto).
  done.
Qed.

(** The part of [visit] that scores the node itself. *)
Lemma own_score self (p_vl : gmap (nat * Z) F) v eps0 :
  HS.labels self ≠ ∅ →
  (∀ v l, (v, l) ∈ HS.admissible_set self → is_Some (p_vl !! (v, l))) →
  ∃ has eps best_label best_score,
    epsilon_loop self p_vl v eps0 = Ok (has, eps) ∧
    py_min_key (λ l, of_option KeyError (eps !! (v, l))) (elements (HS.labels self))
      = Ok best_label ∧
    eps !! (v, best_label) = Some best_score.
Proof.
  intros Hlab Hadm.
  destruct (epsilon_loop_total self p_vl v eps0) as (has & eps & Hrun & Hall); [by eauto|].
  destruct (py_min_key_total (λ l, of_option KeyError (eps !! (v, l)))
              (elements (HS.labels self))) as (b & Hb & Hin).
  - intros Hnil. apply elements_empty_inv in Hnil. by apply leibniz_equiv in Hnil.
  - intros l Hl. destruct (Hall l) as [x ->]; [set_solver|]. simpl. eauto.
  - destruct (Hall b) as [x Hx]; [set_solver|]. by exists has, eps, b, x.
Qed.

End ProgressProps.

Section UpdateTotal.
Context {A : Arith}.
Implicit Types (self : HS.t A) (nodes : gmap nat (Node.t A)) (nd : Node.t A).

Lemma visit_scores_total self (p_vl : gmap (nat * Z) F) t s E fuel st :
  holds (HS.nodes self) t → HS.labels self ≠ ∅ →
  (∀ v l, (v, l) ∈ HS.admissible_set self → is_Some (p_vl !! (v, l))) →
  s ∈ subtrees t → height s < fuel → scoring t E st → tid s ∉ bu_visited st →
  (∀ w, w ∈ ids s → w ∉ E) →
  ∃ st', visit_scores fuel self p_vl (tid s) st = Ok st' ∧ scoring t E st' ∧
         bu_visited st ⊆ bu_visited st' ∧ tid s ∈ bu_visited st'.
Proof.
  intros Hholds Hlab Hadm. revert E fuel st.
  induction s as [i|i l IHl r IHr]; intros E fuel st Hs Hfuel Hsc Hnew HE.
  - destruct fuel as [|fuel]; [simpl in Hfuel; lia|].
    destruct (node_of_subtree _ _ _ Hholds Hs) as (nd & Hnd & Hl & Hr & Hleaf).
    simpl in Hnd, Hnew.
    destruct (own_score self p_vl i (epsilon_tilda_vl st) Hlab Hadm)
      as (has & eps & bl & bs & Heps & Hbl & Hbs).
    cbn [visit_scores tid]. rewrite Hnd. cbn [of_option mbind res_bind].
    rewrite Hl, Hr. cbn [mbind res_bind epsilon_tilda_vl].
    rewrite Heps. cbn [mbind res_bind]. rewrite Hbl. cbn [mbind res_bind].
    rewrite Hbs. cbn [of_option mbind res_bind]. rewrite Hleaf, andb_false_r.
    eexists. split; [done|]. cbn [bu_visited s_v].
    split_and!; [|set_solver..].
    intros s' Hs' Hin HnE. cbn [bu_visited s_v] in *. rewrite lookup_insert.
    case_decide; [done|]. apply Hsc; [done|set_solver|done].
  - destruct fuel as [|fuel]; [simpl in Hfuel; lia|]. simpl in Hfuel.
    destruct (node_of_subtree _ _ _ Hholds Hs) as (nd & Hnd & Hl & Hr & Hleaf).
    simpl in Hnd, Hnew.
    assert (NoDup (ids (Br i l r))) as Hnd3
      by (destruct Hholds; eapply subtrees_NoDup; eauto).
    pose proof Hnd3 as Hnd3'. simpl in Hnd3'.
    apply NoDup_cons in Hnd3' as [Hi (Hndl & Hlr & Hndr)%NoDup_app].
    assert (l ∈ subtrees t) as Hsl.
    { eapply subtrees_trans; [exact Hs|]. right. apply elem_of_app. left. apply subtrees_refl. }
    assert (r ∈ subtrees t) as Hsr.
    { eapply subtrees_trans; [exact Hs|]. right. apply elem_of_app. right. apply subtrees_refl. }
    assert (tid l ≠ i) as Hli.
    { intros <-. apply Hi, elem_of_app. left. apply tid_in_ids. }
    assert (tid r ≠ i) as Hri.
    { intros <-. apply Hi, elem_of_app. right. apply tid_in_ids. }
    set (st0 := BU (bu_visited st ∪ {[i]}) (epsilon_tilda_vl st) (s_v st)).
    assert (scoring t (E ∪ {[i]}) st0) as Hsc0.
    { intros s' Hs' Hin HnE. apply Hsc; [done|set_solver|set_solver]. }
    assert (∀ c st1, c ∈ subtrees t → height c < fuel →
              (∀ w, w ∈ ids c → w ∉ E ∪ {[i]}) →
              (∀ E fuel st, c ∈ subtrees t → height c < fuel → scoring t E st →
                 tid c ∉ bu_visited st → (∀ w, w ∈ ids c → w ∉ E) →
                 ∃ st', visit_scores fuel self p_vl (tid c) st = Ok st' ∧
                        scoring t E st' ∧ bu_visited st ⊆ bu_visited st' ∧
                        tid c ∈ bu_visited st') →
              scoring t (E ∪ {[i]}) st1 →
              ∃ st2, (if decide (tid c ∈ bu_visited st1) then Ok st1
                      else visit_scores fuel self p_vl (tid c) st1) = Ok st2 ∧
                     scoring t (E ∪ {[i]}) st2 ∧ bu_visited st1 ⊆ bu_visited st2 ∧
                     tid c ∈ bu_visited st2) as Hchild.
    { intros c st1 Hc Hh HcE IH Hv1. case_decide as Hin; [eauto|]. by apply IH. }
    assert (∀ w, w ∈ ids l → w ∉ E ∪ {[i]}) as HlE.
    { intros w Hw [HwE| ->%elem_of_singleton]%elem_of_union.
      - eapply HE; [|done]. right. apply elem_of_app. by left.
      - apply Hi, elem_of_app. by left. }
    assert (∀ w, w ∈ ids r → w ∉ E ∪ {[i]}) as HrE.
    { intros w Hw [HwE| ->%elem_of_singleton]%elem_of_union.
      - eapply HE; [|done]. right. apply elem_of_app. by right.
      - apply Hi, elem_of_app. by right. }
    destruct (Hchild l st0 Hsl ltac:(lia) HlE IHl Hsc0)
      as (st1 & Hst1 & Hsc1 & Hsub1 & Hl1).
    destruct (Hchild r st1 Hsr ltac:(lia) HrE IHr Hsc1)
      as (st2 & Hst2 & Hsc2 & Hsub2 & Hr2).
    destruct (own_score self p_vl i (epsilon_tilda_vl st2) Hlab Hadm)
      as (has & eps & bl & bs & Heps & Hbl & Hbs).
    cbn [visit_scores tid]. rewrite Hnd. cbn [of_option mbind res_bind].
    rewrite Hl, Hr. fold st0. rewrite Hst1. cbn [mbind res_bind].
    rewrite Hst2. cbn [mbind res_bind].
    rewrite Heps. cbn [mbind res_bind]. rewrite Hbl. cbn [mbind res_bind].
    rewrite Hbs. cbn [of_option mbind res_bind]. rewrite Hleaf, andb_true_r.
    assert (i ∈ bu_visited st2) as Hi2.
    { apply Hsub2, Hsub1. subst st0. simpl. set_solver. }
    assert (bu_visited st ⊆ bu_visited st2) as Hsub.
    { etrans; [|exact Hsub2]. etrans; [|exact Hsub1]. subst st0. simpl. set_solver. }
    assert (∀ (x : F * gmap nat Z) (s2 : gmap nat (F * gmap nat Z)),
              (∀ k, is_Some (s_v st2 !! k) → is_Some (s2 !! k)) →
              scoring t E (BU (bu_visited st2) eps (<[i := x]> s2))) as Hfin.
    { intros x s2 Hs2 s' Hs' Hin HnE. cbn [bu_visited s_v] in *.
      rewrite lookup_insert. destruct (decide (i = tid s')) as [Hid|Hid]; [by eexists|].
      apply Hs2, Hsc2; [done|done|set_solver]. }
    destruct has; cbn [andb].
    + destruct (Hsc2 l Hsl (Hsub2 _ Hl1) ltac:(auto using tid_in_ids)) as [[scl Pl] Hscl].
      destruct (Hsc2 r Hsr Hr2 ltac:(auto using tid_in_ids)) as [[scr Pr] Hscr].
      destruct (node_of_subtree _ _ _ Hholds Hsl) as (lnode & Hlnode & _).
      destruct (node_of_subtree _ _ _ Hholds Hsr) as (rnode & Hrnode & _).
      cbn [add_child]. rewrite !lookup_insert_ne by congruence.
      rewrite Hscl. cbn [of_option mbind res_bind]. rewrite Hlnode.
      cbn [of_option mbind res_bind]. rewrite Hscr. cbn [of_option mbind res_bind].
      rewrite Hrnode. cbn [of_option mbind res_bind].
      match goal with |- context [if ?b then _ else _] => destruct b end.
      * eexists. split; [done|]. split_and!; [|done..].
        apply Hfin. intros k Hk. rewrite lookup_insert. by destruct (decide (i = k)).
      * eexists. split; [done|]. split_and!; [|done..]. by apply Hfin.
    + eexists. split; [done|]. split_and!; [|done..]. by apply Hfin.
Qed.

Lemma visit_all_scores self (p_vl : gmap (nat * Z) F) t fuel ks st :
  holds (HS.nodes self) t → HS.labels self ≠ ∅ →
  (∀ v l, (v, l) ∈ HS.admissible_set self → is_Some (p_vl !! (v, l))) →
  height t < fuel → (∀ k, k ∈ ks → k ∈ ids t) → scoring t ∅ st →
  ∃ st', for_each (λ st node_id,
                     if decide (node_id ∈ bu_visited st) then Ok st
                     else visit_scores fuel self p_vl node_id st) ks st = Ok st' ∧
         scoring t ∅ st' ∧ bu_visited st ⊆ bu_visited st' ∧
         ∀ k, k ∈ ks → k ∈ bu_visited st'.
Proof.
  intros Hholds Hlab Hadm Hfuel. revert st.
  induction ks as [|k ks IH]; intros st Hks Hsc.
  - exists st. split_and!; [done..|]. by intros ? ?%elem_of_nil.
  - cbn [for_each].
    assert (∃ st1, (if decide (k ∈ bu_visited st) then Ok st
                    else visit_scores fuel self p_vl k st) = Ok st1 ∧
                   scoring t ∅ st1 ∧ bu_visited st ⊆ bu_visited st1 ∧
                   k ∈ bu_visited st1) as (st1 & -> & Hsc1 & Hsub1 & Hk1).
    { destruct (decide (k ∈ bu_visited st)) as [Hin|Hin]; [eauto|].
      destruct (ids_subtree t k) as (s & Hs & <-); [apply Hks; by left|].
      apply visit_scores_total with (t := t);
        [done|done|done|done| |done|done|intros ??; apply not_elem_of_empty].
      pose proof (subtrees_height _ _ Hs). lia. }
    cbn [mbind res_bind].
    destruct (IH st1) as (st' & Hst' & Hsc' & Hsub' & Hall);
      [intros ??; apply Hks; by right|done|].
    exists st'. split_and!; [done|done|set_solver|].
    intros k' [->|Hk']%elem_of_cons; [set_solver|eauto].
Qed.

Lemma bottom_up_compute_total (fuel : nat) self (p_vl : gmap (nat * Z) F) t :
  holds (HS.nodes self) t → HS.labels self ≠ ∅ →
  (∀ v l, (v, l) ∈ HS.admissible_set self → is_Some (p_vl !! (v, l))) →
  height t < fuel →
  ∃ st, bottom_up_compute fuel self p_vl = Ok st ∧
        ∀ v, v ∈ ids t → is_Some (s_v st !! v).
Proof.
  intros Hholds Hlab Hadm Hfuel.
  destruct (visit_all_scores self p_vl t fuel (keys (HS.nodes self)) (BU ∅ ∅ ∅))
    as (st & Hst & Hsc & _ & Hall); [done..| | |].
  - intros k Hk. apply (holds_dom _ _ _ Hholds). by apply elem_of_keys.
  - intros s _ Hin. simpl in Hin. by apply not_elem_of_empty in Hin.
  - exists st. split; [exact Hst|]. intros v Hv.
    destruct (ids_subtree t v Hv) as (s & Hs & <-).
    apply Hsc; [done| |apply not_elem_of_empty].
    apply Hall, elem_of_keys. by apply (holds_dom _ _ _ Hholds).
Qed.

Lemma rewrite_total (s : gmap nat (F * gmap nat Z)) ks (pruning : gmap nat Z) :
  NoDup ks → (∀ v, v ∈ ks → v ∈ dom pruning ∧ is_Some (s !! v)) →
  ∃ pruning', for_each (rewrite_entry s) ks pruning = Ok pruning'.
Proof.
  revert pruning. induction ks as [|v ks IH]; intros pruning Hnd Hks; simpl; [eauto|].
  apply NoDup_cons in Hnd as [Hv Hnd].
  destruct (Hks v) as [Hdom [[sc PL] Hs]]; [by left|].
  assert (rewrite_entry s pruning v = Ok (PL ∪ delete v pruning)) as ->.
  { unfold rewrite_entry. rewrite Hs. cbn [of_option mbind res_bind].
    by rewrite decide_True by done. }
  cbn [mbind res_bind].
  apply IH; [done|]. intros w Hw. destruct (Hks w) as [Hwd Hws]; [by right|].
  split; [|done]. rewrite dom_union, dom_delete. set_solver.
Qed.

(** On a sampler whose arena is the tree, whose counters agree and whose
    sets name nodes and labels, [_update] for nodes of the tree and labels
    of the problem answers. *)
Lemma _update_total fuel self t update_nodes update_labels :
  holds (HS.nodes self) t → height t < fuel → all_counted (HS.nodes self) →
  HS.labels self ≠ ∅ →
  (∀ v l, (v, l) ∈ HS.admissible_set self → v ∈ ids t ∧ l ∈ HS.labels self) →
  cut t (dom (HS.pruning self)) →
  (∀ v, v ∈ update_nodes → v ∈ ids t) →
  (∀ l, l ∈ update_labels → l ∈ HS.labels self) →
  ∃ self', _update fuel self update_nodes update_labels = Ok self'.
Proof.
  intros Hholds Hfuel Hcnt Hlab Hadm Hcut Hnodes Hlabels.
  destruct (estimate_total self Hcnt) as [e He].
  assert (∀ v l, v ∈ ids t → l ∈ HS.labels self →
            is_Some (e_p_vl e !! (v, l)) ∧ is_Some (e_p_vl_LB e !! (v, l)) ∧
            is_Some (e_p_vl_UB e !! (v, l))) as Hentries.
  { intros v l Hv Hl. apply (holds_dom _ _ _ Hholds) in Hv as [nd Hnd].
    destruct (estimate_lookup _ _ _ _ _ He Hnd Hl)
      as (p & d & lb & ub & Hp & _ & _ & _ & Hlb & _ & Hub & _).
    by rewrite Hp, Hlb, Hub. }
  destruct (admit_pairs_total self (e_p_vl_LB e) (e_p_vl_UB e) update_nodes
              update_labels) as [self1 H1]; [|done|].
  { intros v l Hv Hl. destruct (Hentries v l) as (_ & ? & ?); auto. }
  pose proof (admit_pairs_spec _ _ _ _ _ _ H1) as (adm & Hself1 & Hsub).
  assert (∀ v l, (v, l) ∈ HS.admissible_set self1 → is_Some (e_p_vl e !! (v, l)))
    as Hadm1.
  { intros v l Hin.
    destruct (admit_pairs_new _ _ _ _ _ _ v l H1 Hin) as [Hold|Hnew].
    - destruct (Hadm v l Hold) as [Hv Hl]. by apply Hentries.
    - destruct (estimate_keys _ _ _ _ He Hnew) as [Hv Hl].
      apply (holds_dom _ _ _ Hholds) in Hv. by apply Hentries. }
  assert (HS.nodes self1 = HS.nodes self ∧ HS.labels self1 = HS.labels self ∧
          HS.pruning self1 = HS.pruning self) as (Hn1 & Hl1 & Hp1)
    by (by subst self1).
  destruct (bottom_up_compute_total fuel self1 (e_p_vl e) t) as (st & Hst & Hsv);
    [by rewrite Hn1|by rewrite Hl1|done|done|].
  destruct (rewrite_total (s_v st) (keys (HS.pruning self1)) (HS.pruning self1))
    as [pruning' Hrw].
  { apply keys_NoDup. }
  { intros v Hv. apply elem_of_keys, elem_of_dom in Hv. split; [done|].
    apply Hsv. rewrite Hp1 in Hv. by eapply cut_ids. }
  unfold _update. rewrite He. destruct e as [p d lb ub]. simpl in *.
  rewrite H1. simpl. rewrite Hst. simpl. rewrite Hrw. simpl. eauto.
Qed.

End UpdateTotal.

Section TurnProps.
Context {A : Arith}.
Implicit Types (self : HS.t A) (nodes : gmap nat (Node.t A)) (nd : Node.t A).

Lemma cut_nonempty t K : cut t K → ∃ v, v ∈ K.
Proof.
  induction 1 as [t|i l r Kl Kr _ [v Hv] _ _].
  - exists (tid t). set_solver.
  - exists v. set_solver.
Qed.

(** What a turn of the loop of [sample] starts with: the key drawn is a node
    of the tree, with the leaves of its subtree. *)
Lemma turn_select fuel t self d :
  sound fuel t self →
  ∃ v s nd, choice (keys (HS.pruning self)) (d_select d) = Some v ∧
            _select self (d_select d) = Ok v ∧
            s ∈ subtrees t ∧ tid s = v ∧ HS.nodes self !! v = Some nd ∧
            Node.subtree_leaves nd = leaves s.
Proof.
  intros (Hfuel & Hholds & Hleaves & Hcnt & Hcut & Hlab & Hadm & Hact).
  destruct (cut_nonempty _ _ Hcut) as [v0 Hv0].
  destruct (choice_nonempty (keys (HS.pruning self)) (d_select d)) as [v Hv].
  { intros Hnil. apply elem_of_dom, elem_of_keys in Hv0. rewrite Hnil in Hv0.
    by apply elem_of_nil in Hv0. }
  pose proof (choice_Some _ _ _ Hv) as Hin.
  apply elem_of_keys, elem_of_dom in Hin. apply (cut_ids _ _ _ Hcut) in Hin.
  destruct (ids_subtree t v Hin) as (s & Hs & Hid).
  destruct (proj1 (holds_dom _ _ v Hholds) Hin) as [nd Hnd].
  exists v, s, nd. split_and!; [done|by eapply _select_total|done..|].
  subst v. by eapply Hleaves.
Qed.

(** A turn that draws a key with no eligible leaf below changes nothing. *)
Lemma sample_loop_retry fuel t self d tape v nd :
  sound fuel t self → indexed t self →
  choice (keys (HS.pruning self)) (d_select d) = Some v →
  HS.nodes self !! v = Some nd →
  (∀ z, z ∈ Node.subtree_leaves nd → ¬ eligible self z) →
  sample_loop fuel self (d :: tape) = sample_loop fuel self tape.
Proof.
  intros Hsound Hidx Hv Hnd Hno.
  pose proof Hsound as (Hfuel & Hholds & Hleaves & Hcnt & Hcut & Hlab & Hadm & Hact).
  assert (∀ z, z ∈ Node.subtree_leaves nd →
               z < length (HS.X_train self) + length (HS.X_unlabeled self)) as Hlt.
  { intros z Hz. destruct (holds_lookup _ _ _ _ Hholds Hnd) as (s & Hs & Hid & _).
    subst v. rewrite (Hleaves s nd Hs Hnd) in Hz.
    apply Hidx. by eapply subtrees_leaves. }
  destruct (_pick_sample_id_from_node_total self v nd d Hnd Hlt Hact)
    as (self' & oz & Hpick & Hoz).
  cbn [sample_loop]. rewrite (_select_total _ _ _ _ Hholds Hcut Hv).
  cbn [mbind res_bind]. rewrite Hpick. cbn [mbind res_bind].
  destruct oz as [z|].
  - destruct Hoz as [Hz He]. by destruct (Hno z Hz).
  - by destruct Hoz as [-> _].
Qed.


(** A turn that draws a key with an eligible leaf below ends the loop with
    such a leaf. *)
Lemma sample_loop_hit fuel t self d tape v z :
  sound fuel t self → indexed t self → 1 < length (leaves t) →
  choice (keys (HS.pruning self)) (d_select d) = Some v →
  covers t v z → eligible self z →
  ∃ self' z', sample_loop fuel self (d :: tape) = Ok (self', z', tape) ∧
              covers t v z' ∧ eligible self z'.
Proof.
  intros Hsound Hidx Htwo Hv (s & Hs & Hid & Hz) Hel.
  pose proof Hsound as (Hfuel & Hholds & Hleaves & Hcnt & Hcut & Hlab & Hadm & Hact).
  pose proof Hholds as (Hnodup & _).
  destruct (node_of_subtree _ _ _ Hholds Hs) as (nd & Hnd & _). rewrite Hid in Hnd.
  assert (Node.subtree_leaves nd = leaves s) as Hls
    by (subst v; by eapply Hleaves).
  assert (∀ z, z ∈ Node.subtree_leaves nd →
               z < length (HS.X_train self) + length (HS.X_unlabeled self)) as Hlt.
  { intros z0 Hz0. rewrite Hls in Hz0. apply Hidx. by eapply subtrees_leaves. }
  destruct (_pick_sample_id_from_node_total self v nd d Hnd Hlt Hact)
    as (self1 & oz & Hpick & Hoz).
  destruct oz as [z'|]; [|destruct Hoz as [_ Hno]; destruct (Hno z); [by rewrite Hls|done]].
  destruct Hoz as [Hz' Hel']. rewrite Hls in Hz'.
  pose proof (_pick_sample_id_from_node_grows _ _ _ _ _ Hpick)
    as (Hgrows & Hn1 & Hp1 & Ha1).
  destruct Hgrows as (_ & _ & _ & Hy1 & _ & _ & Hl1 & _).
  assert (z' ∈ leaves t) as Hzt by (by eapply subtrees_leaves).
  destruct (lookup_lt_is_Some_2 (HS.y_merged self) z') as [z_label Hlabel];
    [by apply Hidx|].
  assert (z' ≠ tid t) as Hroot by (by apply leaf_not_root).
  assert (z' ∈ ids s) as Hzs by (by apply leaves_ids).
  destruct (update_counts_total fuel (HS.nodes self) t s z_label z')
    as [nodes' Hcounts]; [done..|].
  assert (holds nodes' t) as Hholds'.
  { eapply holds_links; [|exact Hholds]. by eapply update_counts_links. }
  destruct (_get_upward_path_total nodes' t s z' fuel) as (path & Hpath & Hin);
    [done..|].
  assert (z_label ∈ HS.labels self) as Hzl.
  { rewrite Hlab. apply elem_of_list_to_set. by eapply list_elem_of_lookup_2. }
  destruct (_update_total fuel (HS.set_nodes nodes' self1) t path [z_label])
    as [self' Hupd]; simpl.
  - done.
  - done.
  - by eapply update_counts_counted.
  - rewrite Hl1. intros He. rewrite He in Hzl. by apply not_elem_of_empty in Hzl.
  - rewrite Ha1, Hl1. exact Hadm.
  - by rewrite Hp1.
  - done.
  - intros l ->%list_elem_of_singleton. by rewrite Hl1.
  - exists self', z'. split; [|split; [by exists s|done]].
    cbn [sample_loop]. rewrite (_select_total _ _ _ _ Hholds Hcut Hv).
    cbn [mbind res_bind]. rewrite Hpick. cbn [mbind res_bind].
    rewrite Hy1, Hlabel. cbn [of_option mbind res_bind].
    rewrite Hn1, <- Hid, Hcounts. cbn [mbind res_bind].
    change (HS.nodes (HS.set_nodes nodes' self1)) with nodes'.
    rewrite Hpath. cbn [mbind res_bind]. by rewrite Hupd.
Qed.

End TurnProps.

(** * The calls of a sampling cycle *)

Lemma demo2_start_reachable : reachable 5 (Br 2 (Leaf 0) (Leaf 1)) demo2_start.
Proof.
  eapply (@reach_start float_arith 5 _ [] [] [[0%float]; [1%float]] [10%Z; 20%Z]
            2 [(0, 1)]).
  - vm_compute. reflexivity.
  - exact holds_two_points.
  - simpl. lia.
Qed.

Lemma demo2_reachable : reachable 5 (Br 2 (Leaf 0) (Leaf 1)) demo2.
Proof.
  change demo2 with (HS.set_tuning_phase false demo2_start).
  apply reach_active; [exact demo2_start_reachable|].
  intros i Hi. simpl in Hi. lia.
Qed.


Section CycleProps.
Context {A : Arith}.
Implicit Types (self : HS.t A) (nodes : gmap nat (Node.t A)) (nd : Node.t A).

(** A loop that ran to its end ran its body on every item. *)
Lemma for_each_ran {S X} (body : S → X → res S) xs st st' x :
  for_each body xs st = Ok st' → x ∈ xs → ∃ s s', body s x = Ok s'.
Proof.
  revert st. induction xs as [|y xs IH]; intros st H Hin.
  - by apply elem_of_nil in Hin.
  - simpl in H. inv_res. apply elem_of_cons in Hin as [->|Hin]; eauto.
Qed.

(** X1. What [_select] returns is a key of the current pruning, and every
    key of the pruning is then a node of the arena: the weight of each was
    read before the draw. *)
Theorem _select_returns_a_pruning_key_that_is_a_node self d v :
  _select self d = Ok v →
  v ∈ dom (HS.pruning self) ∧
  ∀ k, k ∈ dom (HS.pruning self) → is_Some (HS.nodes self !! k).
Proof.
  unfold _select. intros H. inv_res.
  apply choice_Some, elem_of_keys, elem_of_dom in H. split; [done|].
  intros k Hk. apply elem_of_dom, elem_of_keys in Hk.
  destruct (for_each_ran _ _ _ _ _ Hx Hk) as (ws & ws' & Hbody).
  cbv beta in Hbody. inv_res. by eexists.
Qed.

(** X2. When a key of the pruning is no node of the arena, [_select] raises
    [KeyError] whatever is drawn; on an empty pruning it raises
    [ValueError]. *)
Theorem _select_fails_on_a_key_that_is_no_node self d k :
  k ∈ dom (HS.pruning self) → HS.nodes self !! k = None →
  _select self d = Raise KeyError ∧
  _select (HS.set_pruning ∅ self) d = Raise ValueError.
Proof.
  intros Hk Hnone. split; [|done].
  unfold _select. apply elem_of_dom, elem_of_keys in Hk.
  assert (∀ ks ws, k ∈ ks →
            for_each (λ ws node_id,
                        nd ← of_option KeyError (HS.nodes self !! node_id);
                        Ok (ws ++ [Node.weight nd])) ks ws = Raise KeyError) as Hfail.
  { induction ks as [|k' ks IH]; intros ws Hin; [by apply elem_of_nil in Hin|].
    simpl. destruct (HS.nodes self !! k') as [nd|] eqn:Hnd; simpl; [|done].
    apply elem_of_cons in Hin as [->|Hin]; [congruence|]. by apply IH. }
  by rewrite Hfail.
Qed.

(** X3. On a node whose leaves are points of the arrays, and with every
    labeled point revealed once the tuning phase is over,
    [_pick_sample_id_from_node] answers, and of the sampler it changes at
    most the revealed set.  It returns [None] exactly when no leaf below the
    node is eligible, and then the revealed set is as before.  Else it
    returns an eligible leaf below the node, and the revealed set has gained
    one eligible leaf below the node: in the tuning phase the one returned. *)
Theorem _pick_sample_id_from_node_finds_an_eligible_leaf_if_there_is_one
    self node_id nd d :
  HS.nodes self !! node_id = Some nd →
  (∀ z, z ∈ Node.subtree_leaves nd →
        z < length (HS.X_train self) + length (HS.X_unlabeled self)) →
  (HS.tuning_phase self = false →
   ∀ i, i < length (HS.X_train self) → i ∈ HS.revealed self) →
  ∃ self' oz, _pick_sample_id_from_node self node_id d = Ok (self', oz) ∧
    HS.X_train self' = HS.X_train self ∧
    HS.X_unlabeled self' = HS.X_unlabeled self ∧
    HS.X_merged self' = HS.X_merged self ∧
    HS.y_merged self' = HS.y_merged self ∧
    HS.root self' = HS.root self ∧
    HS.nodes self' = HS.nodes self ∧
    HS.num_leaves self' = HS.num_leaves self ∧
    HS.pruning self' = HS.pruning self ∧
    HS.labels self' = HS.labels self ∧
    HS.admissible_set self' = HS.admissible_set self ∧
    HS.beta self' = HS.beta self ∧
    HS.tuning_phase self' = HS.tuning_phase self ∧
    match oz with
    | Some z =>
        z ∈ Node.subtree_leaves nd ∧ eligible self z ∧
        ∃ u, u ∈ Node.subtree_leaves nd ∧ eligible self u ∧
             HS.revealed self' = HS.revealed self ∪ {[u]} ∧
             (HS.tuning_phase self = true → u = z)
    | None => HS.revealed self' = HS.revealed self ∧
              ∀ z, z ∈ Node.subtree_leaves nd → ¬ eligible self z
    end.
Proof.
  intros Hnd Hlt Hact.
  destruct (_pick_sample_id_from_node_total self node_id nd d Hnd Hlt Hact)
    as (self' & oz & Hpick & Hoz).
  exists self', oz. split; [done|].
  apply _pick_sample_id_from_node_spec in Hpick
    as (nd' & Hnd' & [(z0 & -> & -> & Hscan)|(ids & Hscan & Hcase)]).
  - destruct Hoz as [Hz Hel]. unfold reveal; simpl; split_and!; [done..|]. by exists z0.
  - destruct Hcase as [(-> & -> & _)|(u & z1 & Ht & Hu & _ & -> & ->)].
    { destruct Hoz as [_ Hno]. by split_and!. }
    destruct Hoz as [Hz Hel]. unfold reveal; simpl; split_and!; [done..|].
    assert (nd' = nd) as -> by congruence.
    apply scan_leaves_inr in Hscan as [Hids Hunl].
    apply choice_Some, Hids in Hu as [?%elem_of_nil|[Hin Hrev]]; [done|].
    exists u. split_and!; [done| |done|by rewrite Ht].
    specialize (Hunl u Hin Hrev). unfold _is_unlabeled in Hunl.
    case_decide as Hrange; [|done]. injection Hunl as Hk.
    apply bool_decide_eq_true in Hk. unfold eligible. by rewrite Ht.
Qed.

(** X4. Outside the tuning phase, a labeled point below the node that is
    not revealed makes [_pick_sample_id_from_node] fail with
    [AssertionError]. *)
Theorem _pick_sample_id_from_node_asserts_the_tuning_phase self node_id nd d z :
  HS.nodes self !! node_id = Some nd → HS.tuning_phase self = false →
  z ∈ Node.subtree_leaves nd → z ∉ HS.revealed self →
  z < length (HS.X_train self) →
  _pick_sample_id_from_node self node_id d = Raise AssertionError.
Proof.
  intros Hnd Ht Hz Hrev Hlab.
  unfold _pick_sample_id_from_node. rewrite Hnd. cbn [of_option mbind res_bind].
  assert (∀ ls acc, z ∈ ls → scan_leaves self ls acc = Raise AssertionError) as Hscan.
  { induction ls as [|x ls IH]; intros acc Hin; [by apply elem_of_nil in Hin|].
    simpl. destruct (decide (x ∈ HS.revealed self)) as [Hx|Hx].
    - apply elem_of_cons in Hin as [->|Hin]; [done|]. by apply IH.
    - unfold _is_unlabeled. case_decide as Hrange; [|done]. simpl.
      case_bool_decide as Hk; simpl.
      + apply elem_of_cons in Hin as [->|Hin]; [lia|]. by apply IH.
      + by rewrite Ht. }
  by rewrite Hscan.
Qed.

Lemma admit_pairs_only self (lb ub : gmap (nat * Z) F) update_nodes update_labels
    self' v l :
  admit_pairs self lb ub update_nodes update_labels = Ok self' →
  (v, l) ∈ HS.admissible_set self' →
  (v, l) ∈ HS.admissible_set self ∨ (v ∈ update_nodes ∧ l ∈ update_labels).
Proof.
  unfold admit_pairs. intros Hrun.
  pose (P := λ s : HS.t A, (v, l) ∈ HS.admissible_set s →
               (v, l) ∈ HS.admissible_set self ∨ (v ∈ update_nodes ∧ l ∈ update_labels)).
  apply (for_each_inv P) in Hrun; [done| |by left].
  intros s n s' Hn HP Hinner.
  apply (for_each_inv P) in Hinner; [done| |done].
  intros s1 l' s2 Hl' HP1 Hbody. cbv beta in Hbody. inv_res.
  destruct x; inv_res; [|done].
  intros Hin. simpl in Hin.
  apply elem_of_union in Hin as [Hold|Hnew%elem_of_singleton]; [by apply HP1|].
  injection Hnew as -> ->. by right.
Qed.

(** X5. [_update] changes the admissible set, by adding pairs of a node and
    a label it was called with, and the pruning; the arena, the revealed
    set, the labels and the arrays are as before. *)
Theorem _update_changes_only_the_admissible_set_and_the_pruning
    fuel self update_nodes update_labels self' :
  _update fuel self update_nodes update_labels = Ok self' →
  HS.nodes self' = HS.nodes self ∧ HS.revealed self' = HS.revealed self ∧
  HS.labels self' = HS.labels self ∧ HS.tuning_phase self' = HS.tuning_phase self ∧
  HS.X_merged self' = HS.X_merged self ∧ HS.y_merged self' = HS.y_merged self ∧
  HS.admissible_set self ⊆ HS.admissible_set self' ∧
  (∀ v l, (v, l) ∈ HS.admissible_set self' →
          (v, l) ∈ HS.admissible_set self ∨ (v ∈ update_nodes ∧ l ∈ update_labels)).
Proof.
  intros H. pose proof H as Hspec.
  apply _update_spec in Hspec as (adm & pruning & -> & Hsub). simpl.
  split_and!; [done..|].
  intros v l Hin. unfold _update in H. inv_res.
  destruct x as [p_vl delta lb ub]. inv_res.
  eapply admit_pairs_only; [exact Hx0|]. exact Hin.
Qed.

(** X6. On a sampler that a run reaches, [_update] called with nodes of the
    tree and labels of the problem answers: no key is missing, nothing is
    divided by zero and the recursion stays within the depth of the tree. *)
Theorem _update_answers_on_a_reachable_sampler
    fuel t self update_nodes update_labels :
  reachable fuel t self → HS.labels self ≠ ∅ →
  (∀ v, v ∈ update_nodes → v ∈ ids t) →
  (∀ l, l ∈ update_labels → l ∈ HS.labels self) →
  ∃ self', _update fuel self update_nodes update_labels = Ok self'.
Proof.
  intros Hreach Hlab Hnodes Hlabels.
  destruct (reachable_sound _ _ _ Hreach)
    as (Hfuel & Hholds & _ & Hcnt & Hcut & _ & Hadm & _).
  by eapply _update_total.
Qed.




End CycleProps.
Lemma _select_returns_a_pruning_key_that_is_a_node_witness :
  _select demo2 0 = Ok 2 ∧
  2 ∈ dom (HS.pruning demo2) ∧
  ∀ k, k ∈ dom (HS.pruning demo2) → is_Some (HS.nodes demo2 !! k).
Proof.
  assert (_select demo2 0 = Ok 2) as H by (vm_compute; reflexivity).
  split; [exact H|].
  exact (_select_returns_a_pruning_key_that_is_a_node demo2 0 2 H).
Defined.

Lemma _select_fails_on_a_key_that_is_no_node_witness :
  _select (HS.set_pruning {[7 := 0%Z]} demo2) 0 = Raise KeyError ∧
  _select (HS.set_pruning ∅ (HS.set_pruning {[7 := 0%Z]} demo2)) 0
    = Raise ValueError.
Proof.
  apply (_select_fails_on_a_key_that_is_no_node
           (HS.set_pruning {[7 := 0%Z]} demo2) 0 7).
  - simpl. set_solver.
  - vm_compute. reflexivity.
Defined.

Lemma _pick_sample_id_from_node_finds_an_eligible_leaf_if_there_is_one_witness :
  ∃ self' oz,
    _pick_sample_id_from_node demo2 2 (Draws 0 0 1) = Ok (self', oz) ∧
    HS.X_train self' = HS.X_train demo2 ∧
    HS.X_unlabeled self' = HS.X_unlabeled demo2 ∧
    HS.X_merged self' = HS.X_merged demo2 ∧
    HS.y_merged self' = HS.y_merged demo2 ∧
    HS.root self' = HS.root demo2 ∧
    HS.nodes self' = HS.nodes demo2 ∧
    HS.num_leaves self' = HS.num_leaves demo2 ∧
    HS.pruning self' = HS.pruning demo2 ∧
    HS.labels self' = HS.labels demo2 ∧
    HS.admissible_set self' = HS.admissible_set demo2 ∧
    HS.beta self' = HS.beta demo2 ∧
    HS.tuning_phase self' = HS.tuning_phase demo2 ∧
    match oz with
    | Some z =>
        z ∈ Node.subtree_leaves demo2_root ∧ eligible demo2 z ∧
        ∃ u, u ∈ Node.subtree_leaves demo2_root ∧ eligible demo2 u ∧
             HS.revealed self' = HS.revealed demo2 ∪ {[u]} ∧
             (HS.tuning_phase demo2 = true → u = z)
    | None => HS.revealed self' = HS.revealed demo2 ∧
              ∀ z, z ∈ Node.subtree_leaves demo2_root → ¬ eligible demo2 z
    end.
Proof.
  apply (_pick_sample_id_from_node_finds_an_eligible_leaf_if_there_is_one
           demo2 2 demo2_root (Draws 0 0 1)).
  - vm_compute. reflexivity.
  - intros z Hz. change (z ∈ [0; 1]) in Hz. change (z < 2).
    apply elem_of_cons in Hz as [->|Hz]; [lia|].
    apply list_elem_of_singleton in Hz as ->. lia.
  - intros _ i Hi. simpl in Hi. lia.
Defined.

Lemma _pick_sample_id_from_node_asserts_the_tuning_phase_witness :
  _pick_sample_id_from_node (HS.set_revealed ∅ demo4) 6 (Draws 0 0 0)
    = Raise AssertionError.
Proof.
  apply (_pick_sample_id_from_node_asserts_the_tuning_phase
           (HS.set_revealed ∅ demo4) 6 demo4_root (Draws 0 0 0) 0).
  - vm_compute. reflexivity.
  - reflexivity.
  - change (0 ∈ [0; 1; 2; 3]). by left.
  - simpl. apply not_elem_of_empty.
  - simpl. lia.
Defined.

Lemma _update_changes_only_the_admissible_set_and_the_pruning_witness :
  _update 5 demo2 [0; 2] [10%Z] = Ok demo2_updated ∧
  HS.nodes demo2_updated = HS.nodes demo2 ∧
  HS.revealed demo2_updated = HS.revealed demo2.
Proof.
  assert (_update 5 demo2 [0; 2] [10%Z] = Ok demo2_updated) as H
    by (vm_compute; reflexivity).
  split; [exact H|].
  destruct (_update_changes_only_the_admissible_set_and_the_pruning _ _ _ _ _ H)
    as (Hn & Hr & _).
  split; [exact Hn|exact Hr].
Defined.

Lemma demo2_labels (self : HS.t float_arith) :
  HS.labels self = HS.labels demo2 → 10%Z ∈ HS.labels self.
Proof.
  intros ->. change (HS.labels demo2) with (list_to_set (C:=gset Z) [10%Z; 20%Z]).
  set_solver.
Qed.

Lemma _update_answers_on_a_reachable_sampler_witness :
  ∃ self', _update 5 demo2 [0; 2] [10%Z] = Ok self'.
Proof.
  apply (_update_answers_on_a_reachable_sampler 5 (Br 2 (Leaf 0) (Leaf 1)) demo2).
  - exact demo2_reachable.
  - intros He. pose proof (demo2_labels demo2 eq_refl) as Hin.
    rewrite He in Hin. by apply not_elem_of_empty in Hin.
  - intros v Hv. simpl. set_solver.
  - intros l Hl. apply list_elem_of_singleton in Hl as ->.
    by apply demo2_labels.
Defined.


(** * The path of a point and its counts *)

Section PathCounts.
Context {A : Arith}.
Implicit Types (self : HS.t A) (nodes : gmap nat (Node.t A)) (nd : Node.t A).

(** X10. From the root, [_get_upward_path] raises [AttributeError]
    whatever the target is, the root itself included: the parent of the
    start is read before the loop tests whether the start is the target.
    From an id that is no node it raises [KeyError]. *)
Theorem _get_upward_path_from_the_root_raises_AttributeError nodes t v z fuel :
  holds nodes t → nodes !! z = None →
  _get_upward_path fuel nodes (tid t) v = Raise AttributeError ∧
  _get_upward_path fuel nodes (tid t) (tid t) = Raise AttributeError ∧
  _get_upward_path fuel nodes z v = Raise KeyError.
Proof.
  intros (_ & Hsh & _) Hz. destruct (shape_root _ _ _ Hsh) as (nd & Hnd & Hp).
  unfold _get_upward_path, parent_id. rewrite Hnd, Hz; simpl. by rewrite Hp.
Qed.

(** Once reading the parent fails and [parent] is [cur], the loop is stuck. *)
Lemma upward_loop_stalls fuel nodes v trail c :
  (∀ q, parent_id nodes c ≠ Ok q) → c ≠ v →
  upward_loop fuel nodes v trail c c = Diverge.
Proof.
  intros Hc Hv. revert trail.
  induction fuel as [|fuel IH]; intros trail; simpl.
  - by rewrite decide_False.
  - rewrite decide_False by done.
    destruct (parent_id nodes c) as [q| |] eqn:Hq; [by destruct (Hc q)|apply IH..].
Qed.

Lemma linked_snoc nodes (trail : list nat) c c' :
  last trail = Some c → parent_id nodes c = Ok c' →
  (∀ i a b, trail !! i = Some a → trail !! S i = Some b → parent_id nodes a = Ok b) →
  ∀ i a b, (trail ++ [c']) !! i = Some a → (trail ++ [c']) !! S i = Some b →
           parent_id nodes a = Ok b.
Proof.
  intros Hlast Hc Hl i a b Ha Hb.
  destruct (decide (S i < length trail)) as [Hlt|Hge].
  - rewrite lookup_app_l in Ha by lia. rewrite lookup_app_l in Hb by lia. eauto.
  - assert (S i = length trail) as Hi.
    { apply lookup_lt_Some in Hb. rewrite length_app in Hb. simpl in Hb. lia. }
    rewrite lookup_app_l in Ha by lia.
    rewrite lookup_app_r in Hb by lia. rewrite Hi, Nat.sub_diag in Hb.
    injection Hb as <-.
    rewrite last_lookup in Hlast. rewrite <- Hi in Hlast. simpl in Hlast.
    congruence.
Qed.

Lemma upward_loop_sound fuel nodes v trail cur parent path :
  upward_loop fuel nodes v trail cur parent = Ok path →
  last trail = Some cur →
  (parent_id nodes cur = Ok parent ∨
   (parent = cur ∧ ∀ q, parent_id nodes cur ≠ Ok q)) →
  (∀ i a b, trail !! i = Some a → trail !! S i = Some b → parent_id nodes a = Ok b) →
  last path = Some v ∧ (∃ rest, path = trail ++ rest) ∧
  (∀ i a b, path !! i = Some a → path !! S i = Some b → parent_id nodes a = Ok b).
Proof.
  revert trail cur parent.
  induction fuel as [|fuel IH]; intros trail cur parent; simpl.
  - case_decide as Hv; [|done]. intros [= <-] Hlast _ Hl. subst.
    split_and!; [done|by exists []; rewrite app_nil_r|done].
  - case_decide as Hv.
    { intros [= <-] Hlast _ Hl. subst.
      split_and!; [done|by exists []; rewrite app_nil_r|done]. }
    intros Hrun Hlast [Hpar|[-> Hfail]] Hl.
    + apply IH in Hrun as (Hlastp & [rest ->] & Hlp).
      * split_and!; [done| |done]. exists (parent :: rest).
        by rewrite <- app_assoc.
      * by rewrite last_snoc.
      * destruct (parent_id nodes parent) as [q| |] eqn:Hq; [by left|right..];
          (split; [done|congruence]).
      * by eapply linked_snoc.
    + exfalso.
      destruct (parent_id nodes cur) as [q| |] eqn:Hq; [by destruct (Hfail q)|..];
        rewrite upward_loop_stalls in Hrun; (done || congruence).
Qed.

(** X11. A path that [_get_upward_path] returns starts at [z_id], ends at
    [v_id], and each of its ids is followed by the id of its parent. *)
Theorem _get_upward_path_returns_a_chain_of_parents fuel nodes z v path :
  _get_upward_path fuel nodes z v = Ok path →
  head path = Some z ∧ last path = Some v ∧
  ∀ i a b, path !! i = Some a → path !! S i = Some b → parent_id nodes a = Ok b.
Proof.
  unfold _get_upward_path. intros H. inv_res.
  apply upward_loop_sound in H as (Hlast & [rest ->] & Hl);
    [done|done|by left|by intros [|?] ???].
Qed.

Lemma up_NoDup t z p : NoDup (ids t) → up t z = Some p → NoDup p.
Proof.
  revert p. induction t as [i|i l IHl r IHr]; simpl; intros p Hnd.
  - case_decide; [|done]. intros [= <-]. apply NoDup_singleton.
  - case_decide; [intros [= <-]; apply NoDup_singleton|].
    apply NoDup_cons in Hnd as [Hi (Hndl & _ & Hndr)%NoDup_app].
    assert (∀ s q, NoDup (ids s) → (∀ c, c ∈ ids s → c ∈ ids l ++ ids r) →
              (∀ p, NoDup (ids s) → up s z = Some p → NoDup p) →
              up s z = Some q → NoDup (q ++ [i])) as Hsub.
    { intros s q Hs Hin IH Hq. apply NoDup_app. split_and!.
      - by apply IH.
      - intros c Hc ->%list_elem_of_singleton. apply Hi, Hin.
        destruct (up_spec _ _ _ Hq) as (_ & _ & _ & _ & Hids). by apply Hids.
      - apply NoDup_singleton. }
    assert (∀ q, up l z = Some q → NoDup (q ++ [i])) as HL.
    { intros q Hq. apply (Hsub l q); [done|set_solver|exact IHl|done]. }
    assert (∀ q, up r z = Some q → NoDup (q ++ [i])) as HR.
    { intros q Hq. apply (Hsub r q); [done|set_solver|exact IHr|done]. }
    destruct (up l z) as [q|] eqn:Hl.
    + intros [= <-]. by apply HL.
    + destruct (up r z) as [q|] eqn:Hr; [|done].
      intros [= <-]. by apply HR.
Qed.

(** The ids of [up t z] are the nodes of [t] with [z] in their subtree. *)
Lemma up_above t z p c :
  NoDup (ids t) → up t z = Some p → c ∈ p ↔ above t c z.
Proof.
  revert p. induction t as [i|i l IHl r IHr]; intros p Hnd Hup.
  - simpl in Hup. case_decide; [|done]. injection Hup as <-. subst z.
    rewrite list_elem_of_singleton. split.
    + intros ->. exists (Leaf i). split_and!; [by left|done|by left].
    + intros (s & Hs & <- & _). simpl in Hs.
      by apply list_elem_of_singleton in Hs as ->.
  - pose proof Hnd as Hnd'. simpl in Hnd'.
    apply NoDup_cons in Hnd' as [Hi (Hndl & Hlr & Hndr)%NoDup_app].
    assert (z ∈ ids (Br i l r)) as Hz.
    { destruct (decide (z ∈ ids (Br i l r))) as [|Hn]; [done|].
      apply up_None in Hn. congruence. }
    assert (∀ s, s ∈ subtrees l ++ subtrees r → tid s ≠ i) as Hne.
    { intros s Hs <-. apply Hi.
      apply elem_of_app in Hs as [Hs|Hs]; apply elem_of_app; [left|right];
        eapply subtrees_ids; eauto using tid_in_ids. }
    simpl in Hup. case_decide as Hiz.
    { injection Hup as <-. subst z. rewrite list_elem_of_singleton. split.
      - intros ->. exists (Br i l r). split_and!; [by left|done|by left].
      - intros (s & Hs & <- & Hin). simpl in Hs.
        apply elem_of_cons in Hs as [->|Hs]; [done|]. exfalso. apply Hi.
        apply elem_of_app in Hs as [Hs|Hs]; apply elem_of_app; [left|right];
          eapply subtrees_ids; eauto. }
    assert (∀ s q, (s = l ∨ s = r) → up s z = Some q →
              (∀ s', s' ∈ subtrees l ++ subtrees r → z ∈ ids s' → s' ∈ subtrees s) →
              (∀ p, NoDup (ids s) → up s z = Some p → c ∈ p ↔ above s c z) →
              NoDup (ids s) →
              c ∈ q ++ [i] ↔ above (Br i l r) c z) as Hsub.
    { intros s q Hsl Hq Honly IH Hs.
      rewrite elem_of_app, list_elem_of_singleton, (IH q Hs Hq). split.
      - intros [(s' & Hs' & <- & Hin)| ->].
        + exists s'. split_and!; [|done..]. simpl. right.
          apply elem_of_app. destruct Hsl as [-> | ->]; [by left|by right].
        + exists (Br i l r). split_and!; [by left|done|done].
      - intros (s' & Hs' & <- & Hin). simpl in Hs'.
        apply elem_of_cons in Hs' as [->|Hs']; [by right|].
        left. exists s'. split_and!; [by apply Honly|done..]. }
    assert (∀ q, up l z = Some q → c ∈ q ++ [i] ↔ above (Br i l r) c z) as HL.
    { intros q Hq. apply (Hsub l q); [by left|done| |exact IHl|done].
      intros s' [Hs'|Hs']%elem_of_app Hin; [done|]. exfalso.
      destruct (up_spec _ _ _ Hq) as (_ & _ & Hhd & _ & Hids).
      apply (Hlr z); [|by eapply subtrees_ids].
      apply Hids. destruct q; [done|]. injection Hhd as ->. by left. }
    assert (∀ q, up l z = None → up r z = Some q →
                 c ∈ q ++ [i] ↔ above (Br i l r) c z) as HR.
    { intros q Hnone Hq. apply (Hsub r q); [by right|done| |exact IHr|done].
      intros s' [Hs'|Hs']%elem_of_app Hin; [|done]. exfalso.
      assert (z ∈ ids l) as Hzl by (by eapply subtrees_ids).
      apply up_Some in Hzl as [? ?]. congruence. }
    destruct (up l z) as [q|] eqn:Hl.
    + injection Hup as <-. by apply HL.
    + destruct (up r z) as [q|] eqn:Hr; [|done].
      injection Hup as <-. by apply HR.
Qed.

Lemma count_all_spec l path nodes nodes' :
  NoDup path → for_each (count_at l) path nodes = Ok nodes' →
  ∀ i, nodes' !! i = if decide (i ∈ path) then count_one l <$> nodes !! i
                     else nodes !! i.
Proof.
  revert nodes. induction path as [|c path IH]; intros nodes Hnd Hrun i.
  - simpl in Hrun. inv_res. by rewrite decide_False by apply not_elem_of_nil.
  - apply NoDup_cons in Hnd as [Hc Hnd]. simpl in Hrun. inv_res.
    unfold count_at in Hx. inv_res. rewrite (IH _ Hnd Hrun i).
    destruct (decide (i = c)) as [->|Hic].
    + rewrite decide_False by done. rewrite decide_True by (by left).
      by rewrite lookup_insert_eq, Hx0.
    + rewrite lookup_insert_ne by done.
      destruct (decide (i ∈ path)) as [Hin|Hin].
      * by rewrite decide_True by (by right).
      * rewrite decide_False; [done|]. by intros [?|?]%elem_of_cons.
Qed.

(** X12. In a tree, [update_counts(z_label, z_id, v_id)] for a node [z_id]
    below [v_id] counts the label once at each node from [z_id] up to
    [v_id], these are the nodes below [v_id] with [z_id] in their subtree:
    [num_revealed] and the count of the label go up by one there, a label
    not counted before starting at one, and the other counts and fields of
    the node stay.  Every other node is left as it was. *)
Theorem update_counts_counts_each_node_of_the_path_once fuel nodes t s z l :
  holds nodes t → height t < fuel → s ∈ subtrees t → z ∈ ids s → z ≠ tid t →
  ∃ nodes', update_counts fuel nodes l z (tid s) = Ok nodes' ∧
    (∀ i, above s i z →
       ∃ nd nd', nodes !! i = Some nd ∧ nodes' !! i = Some nd' ∧
         Node.num_revealed nd' = S (Node.num_revealed nd) ∧
         Node.class_to_instances nd' !! l
           = Some (S (default 0 (Node.class_to_instances nd !! l))) ∧
         (∀ l', l' ≠ l → Node.class_to_instances nd' !! l'
                         = Node.class_to_instances nd !! l') ∧
         Node.id nd' = Node.id nd ∧ Node.left nd' = Node.left nd ∧
         Node.right nd' = Node.right nd ∧ Node.parent nd' = Node.parent nd ∧
         Node.is_leaf nd' = Node.is_leaf nd ∧ Node.weight nd' = Node.weight nd ∧
         Node.subtree_leaves nd' = Node.subtree_leaves nd) ∧
    (∀ i, ¬ above s i z → nodes' !! i = nodes !! i).
Proof.
  intros Hholds Hfuel Hs Hz Hroot. pose proof Hholds as (Hnd & _).
  pose proof (subtrees_NoDup _ _ Hnd Hs) as Hnds.
  destruct (up_subtree _ _ _ Hnd Hs Hz) as (p & post & Hp & Hup).
  destruct (up_root_once _ _ _ Hnds Hp) as (pre & Hpre & Hnot & Hlen & Hin).
  assert (_get_upward_path fuel nodes z (tid s) = Ok p) as Hpath.
  { subst p. rewrite <- app_assoc in Hup. simpl in Hup.
    eapply _get_upward_path_ancestor; eauto.
    pose proof (subtrees_height _ _ Hs). lia. }
  destruct (count_all_total l nodes t p Hholds) as [nodes' Hrun].
  { intros c Hc. eapply subtrees_ids; eauto. }
  exists nodes'. unfold update_counts. rewrite Hpath. cbn [mbind res_bind].
  split; [done|].
  pose proof (count_all_spec l p nodes nodes' (up_NoDup _ _ _ Hnds Hp) Hrun) as Hspec.
  split; intros i Hi; rewrite Hspec.
  - rewrite decide_True by (by apply (up_above s z p i Hnds Hp)).
    assert (i ∈ ids t) as Hit.
    { destruct Hi as (s' & Hs' & <- & _).
      eapply subtrees_ids; [exact Hs|]. eapply subtrees_ids; [exact Hs'|].
      apply tid_in_ids. }
    apply (holds_dom nodes t i Hholds) in Hit as [nd Hndi].
    exists nd, (count_one l nd). rewrite Hndi. simpl.
    split_and!; [done|done|done|by rewrite lookup_insert_eq| |done..].
    intros l' Hl'. by rewrite lookup_insert_ne.
  - rewrite decide_False; [done|]. by rewrite (up_above s z p i Hnds Hp).
Qed.

End PathCounts.
(** * The labels of the pruning *)

Section PruningLabels.
Context {A : Arith}.
Implicit Types (self : HS.t A) (nodes : gmap nat (Node.t A)) (nd : Node.t A).

Lemma min_by_elem (key : Z → res F) best kbest ls b :
  min_by key best kbest ls = Ok b → b = best ∨ b ∈ ls.
Proof.
  revert best kbest. induction ls as [|l ls IH]; intros best kbest H; simpl in H.
  - inv_res. by left.
  - inv_res. destruct (x <? kbest)%py.
    + apply IH in H as [->|?]; right; [by left|by right].
    + apply IH in H as [->|?]; [by left|right; by right].
Qed.

Lemma py_min_key_elem (key : Z → res F) ls b : py_min_key key ls = Ok b → b ∈ ls.
Proof.
  destruct ls as [|l ls]; [done|]. simpl. intros H. inv_res.
  apply min_by_elem in H as [->|?]; [by left|by right].
Qed.

Lemma labelled_insert self s v sc P :
  labelled self s → (∀ w lab, P !! w = Some lab → lab ∈ HS.labels self) →
  labelled self (<[v := (sc, P)]> s).
Proof.
  intros Hs HP v' sc' P' w lab. rewrite lookup_insert. case_decide.
  - intros [= <- <-]. apply HP.
  - apply Hs.
Qed.

Lemma visit_scores_labelled fuel self p_vl node_id st st' :
  labelled self (s_v st) →
  visit_scores fuel self p_vl node_id st = Ok st' → labelled self (s_v st').
Proof.
  revert node_id st st'.
  induction fuel as [|fuel IH]; intros node_id st st' Hg H; [done|].
  simpl in H. inv_res. rename x into nd.
  assert (labelled self (s_v x0)) as Hg0.
  { destruct (Node.left nd); [|by inv_res].
    case_decide; [by inv_res|]. by eapply IH; [|exact Hx0]. }
  assert (labelled self (s_v x1)) as Hg1.
  { destruct (Node.right nd); [|by inv_res].
    case_decide; [by inv_res|]. by eapply IH; [|exact Hx1]. }
  destruct x2 as [has_admissible eps]. inv_res.
  rename x into best_label, x2 into best_score.
  assert (labelled self (<[node_id := (best_score, {[node_id := best_label]})]> (s_v x1)))
    as Hgs.
  { apply labelled_insert; [done|]. intros w lab [_ <-]%lookup_singleton_Some.
    apply py_min_key_elem in Hx3. set_solver. }
  destruct (has_admissible && negb (Node.is_leaf nd)) eqn:Hsplit; [|by inv_res].
  inv_res. destruct x2 as [children_score children_pruning].
  destruct (fltb children_score best_score); inv_res; [|exact Hgs]. simpl.
  apply labelled_insert; [done|]. intros w lab Hw.
  assert (∀ child acc acc',
            add_child self
              (<[node_id := (best_score, {[node_id := best_label]})]> (s_v x1))
              (Node.weight nd) child acc = Ok acc' →
            (∀ w lab, acc.2 !! w = Some lab → lab ∈ HS.labels self) →
            ∀ w lab, acc'.2 !! w = Some lab → lab ∈ HS.labels self) as Hchild.
  { intros child acc acc' Hadd Hacc w' lab' Hl.
    apply add_child_spec in Hadd. destruct child as [c|]; [|by subst; eauto].
    destruct Hadd as (sc & P & HP & Heq). rewrite Heq in Hl.
    apply lookup_union_Some_raw in Hl as [Hl|[_ Hl]]; [|by eauto].
    by eapply Hgs. }
  eapply (Hchild _ _ _ Hx6); [|exact Hw].
  eapply (Hchild _ _ _ Hx5). intros ?? Hempty. simpl in Hempty.
  by rewrite lookup_empty in Hempty.
Qed.

Lemma rewrite_labelled self (s : gmap nat (F * gmap nat Z)) ks pruning pruning' :
  labelled self s →
  (∀ k lab, pruning !! k = Some lab → lab ∈ HS.labels self ∨ k ∈ ks) →
  for_each (rewrite_entry s) ks pruning = Ok pruning' →
  ∀ k lab, pruning' !! k = Some lab → lab ∈ HS.labels self.
Proof.
  intros Hs. revert pruning. induction ks as [|v ks IH]; intros pruning Hold Hrun.
  - simpl in Hrun. inv_res. intros k lab Hk.
    destruct (Hold k lab Hk) as [?|?%elem_of_nil]; done.
  - simpl in Hrun. inv_res. unfold rewrite_entry in Hx. inv_res.
    destruct x0 as [score PL]. case_decide; inv_res.
    eapply IH; [|exact Hrun]. intros k lab Hk.
    apply lookup_union_Some_raw in Hk as [Hk|[_ Hk]]; [left; by eapply Hs|].
    apply lookup_delete_Some in Hk as [Hne Hk].
    destruct (Hold k lab Hk) as [?|[?|?]%elem_of_cons]; [by left|done|by right].
Qed.

(** X13. After a call of [_update] that returns, every key of the pruning
    is given a label of the problem: the [-1] that the first pruning gives
    the root is gone with the first call. *)
Theorem _update_gives_every_pruning_key_a_label_of_the_problem
    fuel self update_nodes update_labels self' :
  _update fuel self update_nodes update_labels = Ok self' →
  ∀ k lab, HS.pruning self' !! k = Some lab → lab ∈ HS.labels self'.
Proof.
  intros H. unfold _update in H. inv_res.
  destruct x as [p_vl delta lb ub]. inv_res. simpl.
  rename x into self1, x0 into st.
  assert (labelled self1 (s_v st)) as Hlab.
  { unfold bottom_up_compute in Hx1.
    eapply (for_each_inv (λ st, labelled self1 (s_v st))); [| |exact Hx1];
      [|intros ????? Hl; simpl in Hl; by rewrite lookup_empty in Hl].
    intros s v s' _ Hs Hbody. cbv beta in Hbody.
    case_decide; [by inv_res|]. by eapply visit_scores_labelled. }
  eapply rewrite_labelled; [exact Hlab| |exact Hx2].
  intros k lab Hk. right. apply elem_of_keys. by eexists.
Qed.

End PruningLabels.

(** * What sampling leaves of the tree *)

Section TreeKept.
Context {A : Arith}.
Implicit Types (self : HS.t A) (nodes : gmap nat (Node.t A)) (nd : Node.t A).

Lemma count_at_structure l nodes i nodes' :
  count_at l nodes i = Ok nodes' →
  (structure <$> nodes' = structure <$> nodes) ∧
  ∀ j nd, nodes !! j = Some nd → ∃ nd', nodes' !! j = Some nd' ∧
           Node.num_revealed nd ≤ Node.num_revealed nd'.
Proof.
  unfold count_at. intros H. inv_res. split.
  - rewrite fmap_insert. apply insert_id. by rewrite lookup_fmap, Hx.
  - intros j nd Hj. rewrite lookup_insert. case_decide.
    + subst j. eexists. split; [done|]. simpl.
      assert (nd = x) as -> by congruence. lia.
    + eauto.
Qed.

(** X14. A call of [sample] that returns changes no link, weight or list of
    leaves of the tree, adds and removes no node, and lowers no count of
    revealed points. *)
Theorem sample_keeps_the_tree fuel self tape self' r tape' :
  sample fuel self tape = Ok (self', r, tape') →
  (structure <$> HS.nodes self' = structure <$> HS.nodes self) ∧
  ∀ j nd, HS.nodes self !! j = Some nd → ∃ nd', HS.nodes self' !! j = Some nd' ∧
           Node.num_revealed nd ≤ Node.num_revealed nd'.
Proof.
  unfold sample. intros H. inv_res. destruct x as [[self1 z_id] tape1].
  assert (self1 = self') as ->.
  { destruct (HS.tuning_phase self1); inv_res; done. }
  clear H. apply sample_loop_spec in Hx
    as (d & v & self0 & z_label & nodes & path & skipped & _ & _ & Hpick & _ &
        Hcounts & _ & Hupd).
  apply _pick_sample_id_from_node_grows in Hpick as (_ & Hn0 & _).
  apply _update_spec in Hupd as (adm & pruning & -> & _). simpl.
  unfold update_counts in Hcounts. inv_res.
  pose (P := λ n : gmap nat (Node.t A),
          (structure <$> n = structure <$> HS.nodes self) ∧
          ∀ j nd, HS.nodes self !! j = Some nd → ∃ nd', n !! j = Some nd' ∧
                   Node.num_revealed nd ≤ Node.num_revealed nd').
  apply (for_each_inv P) in Hcounts; [done| |by split; eauto].
  intros n c n' _ [Hstr Hcnt] Hstep.
  apply count_at_structure in Hstep as [Hstr' Hcnt']. split; [congruence|].
  intros j nd Hj. destruct (Hcnt j nd Hj) as (nd1 & Hnd1 & Hle).
  destruct (Hcnt' j nd1 Hnd1) as (nd2 & Hnd2 & Hle'). exists nd2. split; [done|lia].
Qed.

End TreeKept.
Lemma _get_upward_path_from_the_root_raises_AttributeError_witness :
  _get_upward_path 5 (two_points (A:=float_arith)) 2 0 = Raise AttributeError ∧
  _get_upward_path 5 (two_points (A:=float_arith)) 2 2 = Raise AttributeError ∧
  _get_upward_path 5 (two_points (A:=float_arith)) 7 0 = Raise KeyError.
Proof.
  apply (_get_upward_path_from_the_root_raises_AttributeError
           (two_points (A:=float_arith)) (Br 2 (Leaf 0) (Leaf 1)) 0 7 5).
  - exact holds_two_points.
  - vm_compute. reflexivity.
Defined.

Lemma _get_upward_path_returns_a_chain_of_parents_witness :
  _get_upward_path 5 (two_points (A:=float_arith)) 0 2 = Ok [0; 2] ∧
  head [0; 2] = Some 0 ∧ last [0; 2] = Some 2 ∧
  ∀ i a b, [0; 2] !! i = Some a → [0; 2] !! S i = Some b →
           parent_id (two_points (A:=float_arith)) a = Ok b.
Proof.
  assert (_get_upward_path 5 (two_points (A:=float_arith)) 0 2 = Ok [0; 2]) as H
    by (vm_compute; reflexivity).
  split; [exact H|].
  exact (_get_upward_path_returns_a_chain_of_parents 5 _ 0 2 [0; 2] H).
Defined.

Lemma update_counts_counts_each_node_of_the_path_once_witness :
  ∃ nodes', update_counts 5 (two_points (A:=float_arith)) 10%Z 0 2 = Ok nodes' ∧
    (∀ i, above (Br 2 (Leaf 0) (Leaf 1)) i 0 →
       ∃ nd nd', two_points (A:=float_arith) !! i = Some nd ∧
         nodes' !! i = Some nd' ∧
         Node.num_revealed nd' = S (Node.num_revealed nd) ∧
         Node.class_to_instances nd' !! 10%Z
           = Some (S (default 0 (Node.class_to_instances nd !! 10%Z))) ∧
         (∀ l', l' ≠ 10%Z → Node.class_to_instances nd' !! l'
                            = Node.class_to_instances nd !! l') ∧
         Node.id nd' = Node.id nd ∧ Node.left nd' = Node.left nd ∧
         Node.right nd' = Node.right nd ∧ Node.parent nd' = Node.parent nd ∧
         Node.is_leaf nd' = Node.is_leaf nd ∧ Node.weight nd' = Node.weight nd ∧
         Node.subtree_leaves nd' = Node.subtree_leaves nd) ∧
    (∀ i, ¬ above (Br 2 (Leaf 0) (Leaf 1)) i 0 →
          nodes' !! i = two_points (A:=float_arith) !! i).
Proof.
  apply (update_counts_counts_each_node_of_the_path_once 5
           (two_points (A:=float_arith)) (Br 2 (Leaf 0) (Leaf 1))
           (Br 2 (Leaf 0) (Leaf 1)) 0 10%Z).
  - exact holds_two_points.
  - simpl. lia.
  - by left.
  - simpl. set_solver.
  - simpl. lia.
Defined.

Lemma _update_gives_every_pruning_key_a_label_of_the_problem_witness :
  _update 5 demo2 [0; 2] [10%Z] = Ok demo2_updated ∧
  ∀ k lab, HS.pruning demo2_updated !! k = Some lab →
           lab ∈ HS.labels demo2_updated.
Proof.
  assert (_update 5 demo2 [0; 2] [10%Z] = Ok demo2_updated) as H
    by (vm_compute; reflexivity).
  split; [exact H|].
  exact (_update_gives_every_pruning_key_a_label_of_the_problem _ _ _ _ _ H).
Defined.

Lemma sample_keeps_the_tree_witness :
  sample 5 demo2 [Draws 0 0 1] = Ok (demo2_sampled, Some ([1%float], 20%Z), []) ∧
  structure <$> HS.nodes demo2_sampled = structure <$> HS.nodes demo2.
Proof.
  assert (sample 5 demo2 [Draws 0 0 1]
          = Ok (demo2_sampled, Some ([1%float], 20%Z), [])) as H
    by (vm_compute; reflexivity).
  split; [exact H|].
  exact (proj1 (sample_keeps_the_tree _ _ _ _ _ _ H)).
Defined.

(** * The tree that [_construct_tree] builds *)

Section ConstructProps.
Context {A : Arith}.
Implicit Types (nodes : gmap nat (Node.t A)) (nd : Node.t A).

Lemma shape_ext nodes nodes' par t :
  (∀ w, w ∈ ids t → nodes' !! w = nodes !! w) →
  shape nodes par t → shape nodes' par t.
Proof.
  revert par. induction t as [i|i l IHl r IHr]; intros par Hsame.
  - intros (nd & Hnd & H). exists nd. split; [|done].
    rewrite Hsame; [done|by left].
  - intros (nd & Hnd & Hid & Hpar & Hl & Hr & Hleaf & Hsl & Hsr).
    exists nd. split_and!; [|done..| |].
    + rewrite Hsame; [done|by left].
    + apply IHl; [|done]. intros w Hw. apply Hsame. simpl. set_solver.
    + apply IHr; [|done]. intros w Hw. apply Hsame. simpl. set_solver.
Qed.

Lemma shape_reparent nodes nodes' par par' t nd :
  NoDup (ids t) → shape nodes par t →
  nodes !! tid t = Some nd → nodes' !! tid t = Some (Node.set_parent par' nd) →
  (∀ w, w ∈ ids t → w ≠ tid t → nodes' !! w = nodes !! w) →
  shape nodes' par' t.
Proof.
  intros Hnd Hsh Hold Hnew Hsame. destruct t as [i|i l r]; simpl in *.
  - destruct Hsh as (nd0 & Hnd0 & Hid & _ & Hl & Hr & Hleaf).
    assert (nd0 = nd) as -> by congruence.
    exists (Node.set_parent par' nd). by split_and!.
  - destruct Hsh as (nd0 & Hnd0 & Hid & _ & Hl & Hr & Hleaf & Hsl & Hsr).
    assert (nd0 = nd) as -> by congruence.
    apply NoDup_cons in Hnd as [Hi _].
    exists (Node.set_parent par' nd). split_and!; [done..| |].
    + eapply shape_ext; [|exact Hsl]. intros w Hw. apply Hsame; [set_solver|].
      intros ->. apply Hi. set_solver.
    + eapply shape_ext; [|exact Hsr]. intros w Hw. apply Hsame; [set_solver|].
      intros ->. apply Hi. set_solver.
Qed.

Lemma mark_leaf_set_parent par nd :
  mark_leaf (Node.set_parent par nd) = Node.set_parent par (mark_leaf nd).
Proof. unfold mark_leaf. simpl. by case_bool_decide. Qed.

Lemma mark_leaf_branch l r nd :
  mark_leaf (Node.set_right (Some r) (Node.set_left (Some l) nd))
  = Node.set_is_leaf false (Node.set_right (Some r) (Node.set_left (Some l) nd)).
Proof.
  unfold mark_leaf. rewrite bool_decide_eq_true_2; [done|]. left. by eexists.
Qed.

(** What the forest says of a child of a merge. *)
Lemma graft_child nodes f seen c :
  grown nodes f seen → (c ∈ seen → c ∈ dom f) →
  (∃ t nd, f !! c = Some t ∧ tid t = c ∧ c ∈ seen ∧ nodes !! c = Some nd ∧
           NoDup (ids t) ∧ shape (mark_leaf <$> nodes) None t ∧
           ∀ w, w ∈ ids t → w ∈ seen) ∨
  (f !! c = None ∧ c ∉ seen ∧ nodes !! c = None).
Proof.
  intros (Hdom & Htrees & Hapart & Hcover) Hc.
  destruct (f !! c) as [t|] eqn:Hf.
  - left. destruct (Htrees c t Hf) as (Hid & Hnd & Hsh & Hin).
    assert (c ∈ seen) as Hseen by (apply Hin; rewrite <- Hid; apply tid_in_ids).
    assert (is_Some (nodes !! c)) as [nd Hnode] by (apply elem_of_dom; by rewrite Hdom).
    by exists t, nd.
  - right. assert (c ∉ seen) as Hseen.
    { intros Hin. apply Hc, elem_of_dom in Hin as [? ?]. congruence. }
    split_and!; [done|done|]. apply not_elem_of_dom. by rewrite Hdom.
Qed.

(** The subtree of a child after the merge that makes [ii] its parent. *)
Lemma graft_child_shape nodes nodes' f seen c ii :
  grown nodes f seen → (c ∈ seen → c ∈ dom f) →
  nodes' !! c = Some (Node.set_parent (Some ii) (findNode nodes c)) →
  (∀ w, w ∈ seen → w ≠ c → w ∈ ids (default (Leaf c) (f !! c)) →
        nodes' !! w = nodes !! w) →
  tid (default (Leaf c) (f !! c)) = c ∧
  NoDup (ids (default (Leaf c) (f !! c))) ∧
  shape (mark_leaf <$> nodes') (Some ii) (default (Leaf c) (f !! c)).
Proof.
  intros Hg Hc Hnew Hsame.
  destruct (graft_child nodes f seen c Hg Hc)
    as [(t & nd & Hf & Hid & Hseen & Hnode & Hnd & Hsh & Hin)|(Hf & Hseen & Hnode)];
    rewrite Hf in *; simpl in *.
  - split_and!; [done..|].
    unfold findNode in Hnew. rewrite Hnode in Hnew. simpl in Hnew.
    eapply (shape_reparent _ _ None (Some ii) t (mark_leaf nd)); [done|done|..].
    + by rewrite Hid, lookup_fmap, Hnode.
    + rewrite Hid, lookup_fmap, Hnew. simpl. by rewrite mark_leaf_set_parent.
    + intros w Hw Hne. rewrite !lookup_fmap, Hsame; [done|by apply Hin|congruence|done].
  - split_and!; [done|apply NoDup_singleton|].
    unfold findNode in Hnew. rewrite Hnode in Hnew. simpl in Hnew.
    eexists. split; [by rewrite lookup_fmap, Hnew|]. by split_and!.
Qed.

Lemma graft_child_ids nodes f seen c w :
  grown nodes f seen → (c ∈ seen → c ∈ dom f) →
  w ∈ ids (default (Leaf c) (f !! c)) →
  (w = c ∧ c ∉ seen) ∨ (w ∈ seen ∧ ∃ t, f !! c = Some t ∧ w ∈ ids t).
Proof.
  intros Hg Hc Hw.
  destruct (graft_child nodes f seen c Hg Hc)
    as [(t & nd & Hf & Hid & Hseen & Hnode & Hnd & Hsh & Hin)|(Hf & Hseen & Hnode)];
    rewrite Hf in *; simpl in *.
  - right. split; [by apply Hin|by exists t].
  - left. apply list_elem_of_singleton in Hw. by subst.
Qed.

(** A merge keeps the arena and the forest together. *)
Lemma graft_grown nodes f seen ii c f' seen' :
  grown nodes f seen → graft f seen ii c = Some (f', seen') →
  grown (merge nodes ii c) f' seen'.
Proof.
  intros Hg. destruct c as [l r]. unfold graft.
  case_decide as HC; [|done]. intros [= <- <-].
  destruct HC as (Hlr & Hli & Hri & Hii & Hl & Hr).
  pose proof Hg as (Hdom & Htrees & Hapart & Hcover).
  set (tl := default (Leaf l) (f !! l)). set (tr := default (Leaf r) (f !! r)).
  set (nodes' := merge nodes ii (l, r)).
  assert (nodes !! ii = None) as Hnone by (apply not_elem_of_dom; by rewrite Hdom).
  assert (nodes' !! r = Some (Node.set_parent (Some ii) (findNode nodes r))) as Hnr.
  { subst nodes'. unfold merge. by rewrite lookup_insert_eq. }
  assert (nodes' !! l = Some (Node.set_parent (Some ii) (findNode nodes l))) as Hnl.
  { subst nodes'. unfold merge.
    rewrite lookup_insert_ne by done. by rewrite lookup_insert_eq. }
  assert (nodes' !! ii = Some (Node.set_right (Some r)
                                 (Node.set_left (Some l) (Node.new ii)))) as Hni.
  { subst nodes'. unfold merge. rewrite !lookup_insert_ne by done.
    rewrite lookup_insert_eq. unfold findNode. by rewrite Hnone. }
  assert (∀ w, w ≠ l → w ≠ r → w ≠ ii → nodes' !! w = nodes !! w) as Hno.
  { intros w ???. subst nodes'. unfold merge. by rewrite !lookup_insert_ne by done. }
  (* an id of a tree of the forest that is a child of the merge is its root *)
  assert (∀ c i t, (c ∈ seen → c ∈ dom f) → f !! i = Some t → c ∈ ids t → i = c)
    as Hchild.
  { intros c i t Hc Hi Hin.
    assert (c ∈ seen) as Hseen by (by eapply Htrees).
    apply Hc, elem_of_dom in Hseen as [t' Ht'].
    destruct (Htrees c t' Ht') as (Hid & _).
    eapply (Hapart i c t t' c); [done..|]. rewrite <- Hid. apply tid_in_ids. }
  assert (∀ i t w, f !! i = Some t → w ∈ ids t → w ≠ ii) as Hfresh.
  { intros i t w Hi Hw ->. apply Hii. by eapply Htrees. }
  assert (∀ w, w ∈ ids tl → w ≠ r) as Hlr'.
  { intros w Hw ->.
    destruct (graft_child_ids nodes f seen l r Hg Hl Hw) as [[? ?]|(Hs & t & Ht & Hin)];
      [done|]. by apply Hlr, (Hchild r l t). }
  assert (∀ w, w ∈ ids tr → w ≠ l) as Hrl'.
  { intros w Hw ->.
    destruct (graft_child_ids nodes f seen r l Hg Hr Hw) as [[? ?]|(Hs & t & Ht & Hin)];
      [done|]. by apply Hlr; symmetry; apply (Hchild l r t). }
  destruct (graft_child_shape nodes nodes' f seen l ii Hg Hl Hnl) as (Htl & Hndl & Hshl).
  { intros w Hw Hne Hin. apply Hno; [done|by apply Hlr'|]. by intros ->. }
  destruct (graft_child_shape nodes nodes' f seen r ii Hg Hr Hnr) as (Htr & Hndr & Hshr).
  { intros w Hw Hne Hin. apply Hno; [by apply Hrl'|done|]. by intros ->. }
  fold tl in Htl, Hndl, Hshl. fold tr in Htr, Hndr, Hshr.
  assert (∀ w, w ∈ ids tl → w ∈ seen ∪ {[l; r; ii]}) as Hinl.
  { intros w Hw.
    destruct (graft_child_ids nodes f seen l w Hg Hl Hw) as [[-> _]|[? _]]; set_solver. }
  assert (∀ w, w ∈ ids tr → w ∈ seen ∪ {[l; r; ii]}) as Hinr.
  { intros w Hw.
    destruct (graft_child_ids nodes f seen r w Hg Hr Hw) as [[-> _]|[? _]]; set_solver. }
  assert (∀ w, w ∈ ids tl → w ∉ ids tr) as Hdisj.
  { intros w Hw Hw'.
    destruct (graft_child_ids nodes f seen l w Hg Hl Hw) as [[-> Hn]|(Hs & t & Ht & Hin)];
      [by apply (Hrl' l)|].
    destruct (graft_child_ids nodes f seen r w Hg Hr Hw')
      as [[-> Hn]|(Hs' & t' & Ht' & Hin')]; [by apply (Hlr' r)|].
    by apply Hlr, (Hapart l r t t' w). }
  assert (∀ w, w ∈ ids tl ++ ids tr → w ≠ ii) as Hnew.
  { intros w [Hw|Hw]%elem_of_app ->.
    - destruct (graft_child_ids nodes f seen l ii Hg Hl Hw) as [[? _]|[? _]]; done.
    - destruct (graft_child_ids nodes f seen r ii Hg Hr Hw) as [[? _]|[? _]]; done. }
  (* the trees that the merge leaves alone *)
  assert (∀ i t, i ≠ l → i ≠ r → f !! i = Some t →
            ∀ w, w ∈ ids t → nodes' !! w = nodes !! w) as Hkept.
  { intros i t Hil Hir Hi w Hw. apply Hno.
    - intros ->. by apply Hil, (Hchild l i t).
    - intros ->. by apply Hir, (Hchild r i t).
    - by eapply Hfresh. }
  split_and!.
  - subst nodes'. unfold merge. rewrite !dom_insert_L, Hdom. set_solver.
  - intros i t [[<- <-]|[Hne Hi]]%lookup_insert_Some.
    + split_and!; [done| | |].
      * simpl. apply NoDup_cons. split; [by intros ?%Hnew|].
        apply NoDup_app. by split_and!.
      * simpl. eexists. rewrite lookup_fmap, Hni. simpl. split; [done|].
        rewrite Htl, Htr, mark_leaf_branch. by split_and!.
      * simpl. intros w [->|[?|?]%elem_of_app]%elem_of_cons; [set_solver|eauto..].
    + apply lookup_delete_Some in Hi as [Hir Hi].
      apply lookup_delete_Some in Hi as [Hil Hi].
      destruct (Htrees i t Hi) as (Hid & Hnd & Hsh & Hin).
      split_and!; [done|done| |set_solver].
      eapply shape_ext; [|exact Hsh]. intros w Hw.
      rewrite !lookup_fmap. f_equal. by eapply (Hkept i t).
  - assert (∀ j t w, (delete r (delete l f)) !! j = Some t → w ∈ ids t →
              w ∈ ids (Br ii tl tr) → False) as Hold.
    { intros j t w Hj Hw Hw'.
      apply lookup_delete_Some in Hj as [Hjr Hj].
      apply lookup_delete_Some in Hj as [Hjl Hj].
      simpl in Hw'. apply elem_of_cons in Hw' as [->|[Hw'|Hw']%elem_of_app].
      - by eapply Hfresh.
      - destruct (graft_child_ids nodes f seen l w Hg Hl Hw')
          as [[-> Hn]|(Hs & t' & Ht' & Hin')].
        + apply Hn. by eapply Htrees.
        + by apply Hjl, (Hapart l j t' t w).
      - destruct (graft_child_ids nodes f seen r w Hg Hr Hw')
          as [[-> Hn]|(Hs & t' & Ht' & Hin')].
        + apply Hn. by eapply Htrees.
        + by apply Hjr, (Hapart r j t' t w). }
    intros i j t t' w [[<- <-]|[Hne Hi]]%lookup_insert_Some
                      [[<- <-]|[Hne' Hj]]%lookup_insert_Some Hw Hw'; [done|..].
    + by destruct (Hold j t' w).
    + by destruct (Hold i t w).
    + apply lookup_delete_Some in Hi as [_ Hi]. apply lookup_delete_Some in Hi as [_ Hi].
      apply lookup_delete_Some in Hj as [_ Hj]. apply lookup_delete_Some in Hj as [_ Hj].
      by eapply Hapart.
  - assert (l ∈ ids tl) as Hlin by (rewrite <- Htl at 1; apply tid_in_ids).
    assert (r ∈ ids tr) as Hrin by (rewrite <- Htr at 1; apply tid_in_ids).
    intros w Hw. destruct (decide (w ∈ ids (Br ii tl tr))) as [Hin|Hnin].
    { exists ii, (Br ii tl tr). by rewrite lookup_insert_eq. }
    assert (w ∈ seen) as Hs.
    { simpl in Hnin. set_solver. }
    destruct (Hcover w Hs) as (i & t & Hi & Hwt).
    exists i, t. split; [|done].
    assert (i ≠ l) as Hil.
    { intros ->. apply Hnin. simpl. right. apply elem_of_app. left.
      subst tl. by rewrite Hi. }
    assert (i ≠ r) as Hir.
    { intros ->. apply Hnin. simpl. right. apply elem_of_app. right.
      subst tr. by rewrite Hi. }
    assert (ii ≠ i) as Hiii.
    { intros <-. apply (Hfresh ii t ii Hi); [|done].
      destruct (Htrees ii t Hi) as [Hid _]. rewrite <- Hid at 1. apply tid_in_ids. }
    rewrite lookup_insert_ne by done.
    by rewrite !lookup_delete_ne by done.
Qed.

Lemma grafts_grown nodes f seen ii children_ f' :
  grown nodes f seen → grafts f seen ii children_ = Some f' →
  ∃ seen', grown (merges nodes ii children_) f' seen'.
Proof.
  revert nodes f seen ii. induction children_ as [|c cs IH]; intros nodes f seen ii Hg.
  - intros [= <-]. by exists seen.
  - simpl. destruct (graft f seen ii c) as [[f1 seen1]|] eqn:Hstep; [|done].
    intros Hrest. eapply IH; [|exact Hrest]. by eapply graft_grown.
Qed.

Lemma grown_empty : grown (A:=A) ∅ ∅ ∅.
Proof.
  split_and!; [by rewrite dom_empty_L|..].
  - intros i t Hi. by rewrite lookup_empty in Hi.
  - intros i j t t' w Hi. by rewrite lookup_empty in Hi.
  - intros w Hw. by apply not_elem_of_empty in Hw.
Qed.

Lemma tree_of_holds n children_ t :
  tree_of n children_ = Some t → holds (constructed (A:=A) n children_) t.
Proof.
  unfold tree_of.
  destruct (grafts ∅ ∅ n children_) as [f|] eqn:Hf; [|done].
  destruct (map_to_list f) as [|[i t0] [|??]] eqn:Hlist; try done.
  intros [= ->].
  destruct (grafts_grown ∅ ∅ ∅ n children_ f grown_empty Hf)
    as (seen & Hdom & Htrees & Hapart & Hcover).
  assert (∀ j t', f !! j = Some t' ↔ j = i ∧ t' = t) as Honly.
  { intros j t'. rewrite <- elem_of_map_to_list, Hlist, list_elem_of_singleton.
    split; [by intros [= -> ->]|by intros [-> ->]]. }
  destruct (Htrees i t) as (Hid & Hnd & Hsh & Hin); [by apply Honly|].
  split_and!; [done|done|].
  unfold constructed. rewrite dom_fmap_L, Hdom. apply set_eq. intros w.
  rewrite elem_of_list_to_set. split; [|by apply Hin].
  intros Hw. destruct (Hcover w Hw) as (j & t' & Hj & Hwt).
  by apply Honly in Hj as [-> ->].
Qed.

(** X15. When the rows of [children_] describe one binary tree (each child
    a point not named before or the root of an earlier merge, one root
    left), [_construct_tree] returns its root, and [self.nodes] holds that
    tree and nothing else: ids, both children and the parent of each node
    as the rows say, [is_leaf] true at the points only, and every node
    without leaves or counts yet. *)
Theorem _construct_tree_builds_the_tree_of_the_merges n children_ t :
  tree_of n children_ = Some t →
  _construct_tree (A:=A) n children_ = Ok (tid t, constructed n children_) ∧
  holds (constructed (A:=A) n children_) t ∧
  ∀ v nd, constructed (A:=A) n children_ !! v = Some nd → pristine nd.
Proof.
  intros Ht. pose proof (tree_of_holds n children_ t Ht) as Hholds.
  split_and!; [|done|apply constructed_pristine].
  destruct (_construct_tree (A:=A) n children_) as [[root nodes]| |] eqn:Hrun.
  - by destruct (_construct_tree_root _ _ _ _ _ Hrun Hholds) as [-> ->].
  - exfalso. unfold _construct_tree in Hrun.
    destruct (List.find _ _) as [[k nd0]|] eqn:Hfind; [done|].
    destruct Hholds as (_ & Hsh & _).
    destruct (shape_root _ _ _ Hsh) as (nd & Hnd & Hpar).
    unfold constructed in Hnd. rewrite lookup_fmap in Hnd.
    destruct (merges ∅ n children_ !! tid t) as [nd0|] eqn:Hraw; [|done].
    injection Hnd as <-.
    apply elem_of_map_to_list, list_elem_of_In in Hraw.
    apply (find_none _ _ Hfind) in Hraw. simpl in Hraw.
    apply bool_decide_eq_false in Hraw. apply Hraw.
    unfold mark_leaf in Hpar. by case_bool_decide.
  - exfalso. unfold _construct_tree in Hrun.
    by destruct (List.find _ _) as [[k nd0]|].
Qed.

End ConstructProps.

Lemma _construct_tree_builds_the_tree_of_the_merges_witness :
  tree_of 4 [(0, 1); (2, 3); (4, 5)]
    = Some (Br 6 (Br 4 (Leaf 0) (Leaf 1)) (Br 5 (Leaf 2) (Leaf 3))) ∧
  _construct_tree (A:=float_arith) 4 [(0, 1); (2, 3); (4, 5)]
    = Ok (6, constructed 4 [(0, 1); (2, 3); (4, 5)]).
Proof.
  assert (tree_of 4 [(0, 1); (2, 3); (4, 5)]
          = Some (Br 6 (Br 4 (Leaf 0) (Leaf 1)) (Br 5 (Leaf 2) (Leaf 3)))) as H
    by (vm_compute; reflexivity).
  split; [exact H|].
  exact (proj1 (_construct_tree_builds_the_tree_of_the_merges
                  (A:=float_arith) 4 [(0, 1); (2, 3); (4, 5)] _ H)).
Defined.

(** * The margin sampler *)

Section MarginProps.
Context {A : Arith}.
Implicit Types (self : MarginSampler.t A).

(** X16. With every index of [sample_indices] that of a point, [k] calls of
    [sample] that the indices left allow return the points at the next [k]
    indices, in that order, and move [num_sampled] on by [k]; with the
    indices used up, the next call raises [IndexError]. *)
Theorem MarginSampler_samples_follow_sample_indices self k :
  MarginSampler.num_sampled self + k ≤ length (MarginSampler.sample_indices self) →
  (∀ i, i ∈ MarginSampler.sample_indices self →
        i < length (MarginSampler.X_unlabeled self) ∧
        i < length (MarginSampler.y_unlabeled self)) →
  ∃ self' out,
    MarginSampler.samples k self = Ok (self', out) ∧
    Forall2 (λ i xy, MarginSampler.X_unlabeled self !! i = Some xy.1 ∧
                     MarginSampler.y_unlabeled self !! i = Some xy.2)
            (take k (drop (MarginSampler.num_sampled self)
                          (MarginSampler.sample_indices self))) out ∧
    self' = MarginSampler.set_num_sampled (MarginSampler.num_sampled self + k) self ∧
    (MarginSampler.num_sampled self + k = length (MarginSampler.sample_indices self) →
     MarginSampler.sample self' = Raise IndexError).
Proof.
  revert self. induction k as [|k IH]; intros self Hk Hidx.
  - exists self, []. split_and!; [done|by rewrite take_0| |].
    + destruct self. unfold MarginSampler.set_num_sampled. simpl. f_equal. lia.
    + intros Hend. unfold MarginSampler.sample.
      rewrite lookup_ge_None_2 by lia. done.
  - destruct (lookup_lt_is_Some_2 (MarginSampler.sample_indices self)
                (MarginSampler.num_sampled self)) as [i Hi]; [lia|].
    destruct (Hidx i) as [HiX Hiy]; [by eapply list_elem_of_lookup_2|].
    destruct (lookup_lt_is_Some_2 _ _ HiX) as [x Hx].
    destruct (lookup_lt_is_Some_2 _ _ Hiy) as [y Hy].
    set (self1 := MarginSampler.set_num_sampled (S (MarginSampler.num_sampled self)) self).
    destruct (IH self1) as (self' & out & Hrun & Hout & Hself' & Hend).
    { simpl. lia. }
    { done. }
    exists self', ((x, y) :: out). split_and!.
    + cbn [MarginSampler.samples]. unfold MarginSampler.sample at 1.
      rewrite Hi. cbn [of_option mbind res_bind]. fold self1.
      change (MarginSampler.X_unlabeled self1) with (MarginSampler.X_unlabeled self).
      change (MarginSampler.y_unlabeled self1) with (MarginSampler.y_unlabeled self).
      rewrite Hx, Hy. cbn [of_option mbind res_bind]. by rewrite Hrun.
    + rewrite (drop_S _ i _ Hi). simpl. by constructor.
    + rewrite Hself'. subst self1. unfold MarginSampler.set_num_sampled. simpl.
      f_equal. lia.
    + intros Hlen. apply Hend. simpl. lia.
Qed.

End MarginProps.

Lemma MarginSampler_samples_follow_sample_indices_witness :
  ∃ self' out,
    MarginSampler.samples 3 margin3 = Ok (self', out) ∧
    Forall2 (λ i xy, MarginSampler.X_unlabeled margin3 !! i = Some xy.1 ∧
                     MarginSampler.y_unlabeled margin3 !! i = Some xy.2)
            (take 3 (drop (MarginSampler.num_sampled margin3)
                          (MarginSampler.sample_indices margin3))) out ∧
    self' = MarginSampler.set_num_sampled (MarginSampler.num_sampled margin3 + 3)
              margin3 ∧
    (MarginSampler.num_sampled margin3 + 3
       = length (MarginSampler.sample_indices margin3) →
     MarginSampler.sample self' = Raise IndexError).
Proof.
  apply (MarginSampler_samples_follow_sample_indices margin3 3).
  - simpl. lia.
  - intros i Hi. simpl in *. repeat (apply elem_of_cons in Hi as [->|Hi]; [lia|]).
    by apply elem_of_nil in Hi.
Defined.

(** * The leaves of the subtrees, and what the sets hold *)

Section LeavesAndSets.
Context {A : Arith}.
Implicit Types (self : HS.t A) (nodes : gmap nat (Node.t A)) (nd : Node.t A).

(** X17. On the arena that [_construct_tree] builds from rows that describe
    a tree, the first pass of [_compute_weights] returns when the depth of
    the tree is within the recursion limit: each node then lists the points
    of its subtree, from left to right, has their number as its weight, and
    is otherwise as it was. *)
Theorem reverse_topological_process_collects_the_leaves_of_each_subtree
    n children_ t fuel :
  tree_of n children_ = Some t → height t < fuel →
  ∃ nodes1,
    reverse_topological_process fuel (constructed (A:=A) n children_) = Ok nodes1 ∧
    holds nodes1 t ∧
    ∀ s, s ∈ subtrees t → ∃ nd, nodes1 !! tid s = Some nd ∧
      Node.subtree_leaves nd = leaves s ∧
      Node.weight nd = of_nat (length (leaves s)) ∧
      Node.class_to_instances nd = ∅ ∧ Node.num_revealed nd = 0.
Proof.
  intros Ht Hfuel. pose proof (tree_of_holds (A:=A) n children_ t Ht) as Hholds.
  destruct (reverse_topological_process_ok _ _ _ Hholds Hfuel)
    as (nodes1 & Hrun & Hframe & Hleaves).
  { intros v nd Hv. by destruct (constructed_pristine _ _ _ _ Hv). }
  pose proof (holds_links _ _ _ (frame_links _ _ Hframe) Hholds) as Hholds1.
  exists nodes1. split_and!; [done..|]. intros s Hs.
  destruct (node_of_subtree _ _ _ Hholds1 Hs) as (nd & Hnd & _).
  exists nd. destruct (Hleaves s nd Hs Hnd) as [Hl Hw].
  assert (frame <$> nodes1 !! tid s = frame <$> constructed n children_ !! tid s)
    as Hf by (by rewrite <- !lookup_fmap, Hframe).
  rewrite Hnd in Hf. simpl in Hf.
  destruct (constructed n children_ !! tid s) as [nd0|] eqn:Hnd0; [|done].
  simpl in Hf. assert (frame nd = frame nd0) as Hfr by congruence.
  destruct (constructed_pristine _ _ _ _ Hnd0) as (_ & Hc0 & Hn0).
  pose proof (f_equal (λ p, p.1.2) Hfr) as Hc. simpl in Hc.
  pose proof (f_equal (λ p, p.2) Hfr) as Hn. simpl in Hn.
  split_and!; [done..|congruence|congruence].
Qed.

(** X18. In every sampler that a run reaches, a revealed point is a leaf of
    the tree, and a pair of the admissible set is a node of the tree with a
    label of the problem. *)
Theorem revealed_points_and_admissible_pairs_belong_to_the_tree fuel t self :
  reachable fuel t self →
  (∀ z, z ∈ HS.revealed self → z ∈ leaves t) ∧
  (∀ v l, (v, l) ∈ HS.admissible_set self → v ∈ ids t ∧ l ∈ HS.labels self).
Proof.
  intros Hreach. split; [|by destruct (reachable_sound _ _ _ Hreach) as (_&_&_&_&_&_&?&_)].
  induction Hreach as [Xt yt Xu yu n cs self Hstart Hholds Hfuel
                      |self tape self' r tape' Hreach IH Hsample
                      |self Hreach IH Hall].
  - destruct (before_tuning_fresh _ _ _ _ _ _ _ _ Hstart) as (_ & -> & _).
    by intros z ?%not_elem_of_empty.
  - pose proof (reachable_sound _ _ _ Hreach)
      as (_ & Hholds & Hleaves & _ & Hcut & _).
    unfold sample in Hsample. inv_res. destruct x as [[self1 z_id] tape1].
    assert (self1 = self') as ->.
    { destruct (HS.tuning_phase self1); inv_res; done. }
    clear Hsample. apply sample_loop_spec in Hx
      as (d & v & self0 & z_label & nodes & path & skipped & _ & Hsel & Hpick & _ &
          _ & _ & Hupd).
    apply _update_spec in Hupd as (adm & pruning & -> & _). simpl.
    apply _pick_sample_id_from_node_spec in Hpick
      as (nd & Hnd & Hcase).
    assert (∀ u, u ∈ Node.subtree_leaves nd → u ∈ leaves t) as Hsub.
    { intros u Hu. destruct (holds_lookup _ _ _ _ Hholds Hnd) as (s & Hs & Hid & _).
      subst v. rewrite (Hleaves s nd Hs Hnd) in Hu. by eapply subtrees_leaves. }
    destruct Hcase as [(z0 & _ & -> & Hscan)|(ids & Hscan & Hcase)].
    + apply scan_leaves_inl in Hscan as (Hin & _).
      intros z Hz. simpl in Hz.
      apply elem_of_union in Hz as [Hz| ->%elem_of_singleton]; [by apply IH|by apply Hsub].
    + destruct Hcase as [(? & _)|(u & z1 & _ & Hu & _ & _ & ->)]; [done|].
      apply scan_leaves_inr in Hscan as [Hids _].
      apply choice_Some, Hids in Hu as [?%elem_of_nil|[Hin _]]; [done|].
      intros z Hz. simpl in Hz.
      apply elem_of_union in Hz as [Hz| ->%elem_of_singleton]; [by apply IH|by apply Hsub].
  - exact IH.
Qed.

End LeavesAndSets.

(** * A problem with one label *)

Section OneLabel.
#[local] Existing Instance real_arith.
Implicit Types (self : HS.t real_arith).

(** X19. In a problem with one label, in real arithmetic and with a
    positive [beta], [is_admissible] holds of every node with that label,
    whatever its bounds: no other label lowers [min_other], which stays
    infinite. *)
Theorem is_admissible_holds_of_every_node_in_a_one_label_problem
    self (lb ub : gmap (nat * Z) F) v l x b :
  HS.labels self = {[l]} → lb !! (v, l) = Some (Fin x : F) →
  HS.beta self = Fin b → (0 < b)%R →
  is_admissible self lb ub v l = Ok true.
Proof.
  intros Hl Hlb Hbeta Hb. unfold is_admissible.
  rewrite Hlb, Hl, elements_singleton, Hbeta. cbn [of_option mbind res_bind for_each].
  rewrite decide_False by (by intros ?). cbn [mbind res_bind]. f_equal.
  simpl. unfold emul, eltb, eadd, eneg. by rewrite Rsign_pos.
Qed.

End OneLabel.
Lemma reverse_topological_process_collects_the_leaves_of_each_subtree_witness :
  ∃ nodes1,
    reverse_topological_process 5
      (constructed (A:=float_arith) 4 [(0, 1); (2, 3); (4, 5)]) = Ok nodes1 ∧
    holds nodes1 (Br 6 (Br 4 (Leaf 0) (Leaf 1)) (Br 5 (Leaf 2) (Leaf 3))) ∧
    ∀ s, s ∈ subtrees (Br 6 (Br 4 (Leaf 0) (Leaf 1)) (Br 5 (Leaf 2) (Leaf 3))) →
      ∃ nd, nodes1 !! tid s = Some nd ∧
        Node.subtree_leaves nd = leaves s ∧
        Node.weight nd = float_of_nat (length (leaves s)) ∧
        Node.class_to_instances nd = ∅ ∧ Node.num_revealed nd = 0.
Proof.
  apply (reverse_topological_process_collects_the_leaves_of_each_subtree
           (A:=float_arith) 4 [(0, 1); (2, 3); (4, 5)]
           (Br 6 (Br 4 (Leaf 0) (Leaf 1)) (Br 5 (Leaf 2) (Leaf 3))) 5).
  - vm_compute. reflexivity.
  - simpl. lia.
Defined.

Lemma demo2_sampled_reachable : reachable 5 (Br 2 (Leaf 0) (Leaf 1)) demo2_sampled.
Proof.
  eapply (reach_sample 5 _ demo2 [Draws 0 0 1] demo2_sampled
            (Some ([1%float], 20%Z)) []); [exact demo2_reachable|].
  vm_compute. reflexivity.
Qed.

Lemma revealed_points_and_admissible_pairs_belong_to_the_tree_witness :
  (∀ z, z ∈ HS.revealed demo2_sampled → z ∈ leaves (Br 2 (Leaf 0) (Leaf 1))) ∧
  (∀ v l, (v, l) ∈ HS.admissible_set demo2_sampled →
          v ∈ ids (Br 2 (Leaf 0) (Leaf 1)) ∧ l ∈ HS.labels demo2_sampled).
Proof.
  exact (revealed_points_and_admissible_pairs_belong_to_the_tree 5 _ demo2_sampled
           demo2_sampled_reachable).
Defined.

Lemma is_admissible_holds_of_every_node_in_a_one_label_problem_witness :
  is_admissible one_label_real {[(2, 7%Z) := Fin 0]} ∅ 2 7%Z = Ok true.
Proof.
  apply (is_admissible_holds_of_every_node_in_a_one_label_problem
           one_label_real {[(2, 7%Z) := Fin 0]} ∅ 2 7%Z 0%R 2%R).
  - reflexivity.
  - apply lookup_singleton_eq.
  - reflexivity.
  - lra.
Defined.

(** * The run of the tuning phase *)

Section InitProps.
Context {A : Arith}.
Implicit Types (self : HS.t A) (nodes : gmap nat (Node.t A)) (nd : Node.t A).

Lemma before_tuning_fields fuel X_train y_train X_unlabeled y_unlabeled n children_ self :
  before_tuning fuel X_train y_train X_unlabeled y_unlabeled n children_ = Ok self →
  HS.X_train self = X_train ∧ HS.X_unlabeled self = X_unlabeled ∧
  HS.X_merged self = X_train ++ X_unlabeled ∧
  HS.y_merged self = y_train ++ y_unlabeled.
Proof.
  unfold before_tuning. case_decide as Hd; [|done]. intros H. inv_res.
  destruct x as [root nodes]. by inv_res.
Qed.

Lemma before_tuning_indexed
    fuel X_train y_train X_unlabeled y_unlabeled n children_ self t :
  before_tuning fuel X_train y_train X_unlabeled y_unlabeled n children_ = Ok self →
  length y_train = length X_train → length y_unlabeled = length X_unlabeled →
  (∀ z, z ∈ leaves t → z < length (X_train ++ X_unlabeled)) →
  indexed t self.
Proof.
  intros (HXt & HXu & HXm & Hym)%before_tuning_fields Hyt Hyu Hlt z Hz.
  apply Hlt in Hz. rewrite HXt, HXu, HXm, Hym. rewrite !length_app in *. lia.
Qed.

Lemma indexed_grows t self self' : grows self self' → indexed t self → indexed t self'.
Proof.
  intros (HXt & HXu & HXm & Hym & _) Hidx z Hz.
  rewrite HXt, HXu, HXm, Hym. by apply Hidx.
Qed.

(** On the arena of a tree [_construct_tree] finds the root. *)
Lemma _construct_tree_total n children_ t :
  holds (constructed (A:=A) n children_) t →
  _construct_tree (A:=A) n children_ = Ok (tid t, constructed n children_).
Proof.
  intros Hholds.
  destruct (_construct_tree (A:=A) n children_) as [[root nodes]| |] eqn:Hrun.
  - by destruct (_construct_tree_root _ _ _ _ _ Hrun Hholds) as [-> ->].
  - exfalso. unfold _construct_tree in Hrun.
    destruct (List.find _ _) as [[k nd0]|] eqn:Hfind; [done|].
    destruct Hholds as (_ & Hsh & _).
    destruct (shape_root _ _ _ Hsh) as (nd & Hnd & Hpar).
    unfold constructed in Hnd. rewrite lookup_fmap in Hnd.
    destruct (merges ∅ n children_ !! tid t) as [nd0|] eqn:Hraw; [|done].
    injection Hnd as <-.
    apply elem_of_map_to_list, list_elem_of_In in Hraw.
    apply (find_none _ _ Hfind) in Hraw. simpl in Hraw.
    apply bool_decide_eq_false in Hraw. apply Hraw.
    unfold mark_leaf in Hpar. by case_bool_decide.
  - exfalso. unfold _construct_tree in Hrun.
    by destruct (List.find _ _) as [[k nd0]|].
Qed.

(** [__init__] reaches its tuning cycles when the merges describe a tree
    within the recursion limit and the assertion of [_compute_weights]
    passes at each node. *)
Lemma before_tuning_total
    fuel X_train y_train X_unlabeled y_unlabeled n children_ t :
  n = length (X_train ++ X_unlabeled) → n ≠ 0 →
  tree_of n children_ = Some t → height t < fuel →
  (∀ s, s ∈ subtrees t →
     (of_nat (length (leaves s)) / (f1 * of_nat n) <? f1 * of_nat n)%py = true) →
  ∃ self,
    before_tuning fuel X_train y_train X_unlabeled y_unlabeled n children_ = Ok self.
Proof.
  intros Hn Hn0 Ht Hfuel Hw. subst n.
  pose proof (tree_of_holds (A:=A) _ _ _ Ht) as Hholds.
  unfold before_tuning. rewrite decide_True by done.
  rewrite (_construct_tree_total _ _ _ Hholds). cbn [mbind res_bind].
  assert (∀ v nd, constructed (A:=A) (length (X_train ++ X_unlabeled)) children_ !! v
                  = Some nd → Node.subtree_leaves nd = []) as Hfresh.
  { intros v nd Hv. by destruct (constructed_pristine _ _ _ _ Hv). }
  destruct (reverse_topological_process_ok _ _ _ Hholds Hfuel Hfresh)
    as (nodes1 & Hrtp & Hframe & Hleaves).
  unfold _compute_weights. rewrite Hrtp. cbn [mbind res_bind].
  destruct (normalize_total (length (X_train ++ X_unlabeled)) (keys nodes1) nodes1)
    as [nodes Hnorm]; [apply keys_NoDup|done| |].
  { intros k [nd Hk]%elem_of_keys. exists nd. split; [done|].
    pose proof (holds_links _ _ _ (frame_links _ _ Hframe) Hholds) as Hh.
    destruct (ids_subtree t k) as (s & Hs & <-).
    { apply (holds_dom _ _ _ Hh). eauto. }
    destruct (Hleaves s nd Hs Hk) as [_ ->]. by apply Hw. }
  rewrite Hnorm. cbn [mbind res_bind]. eauto.
Qed.

(** ** One turn of the loop of [sample] *)

(** What a turn that ends the loop returns does not depend on the draws
    that follow. *)
Lemma sample_loop_head fuel self d self' z tape :
  sample_loop fuel self [d] = Ok (self', z, []) →
  sample_loop fuel self (d :: tape) = Ok (self', z, tape).
Proof.
  cbn [sample_loop]. intros H. inv_res. rewrite Hx. cbn [mbind res_bind].
  rewrite Hx0. destruct x0 as [self1 [z1|]]; cbn [mbind res_bind] in *; [|done].
  inv_res. rewrite Hx1. cbn [of_option mbind res_bind].
  rewrite Hx2. cbn [mbind res_bind]. rewrite Hx3. cbn [mbind res_bind].
  by rewrite Hx4.
Qed.

Lemma sample_sound fuel t self tape self' r tape' :
  sound fuel t self → indexed t self →
  sample fuel self tape = Ok (self', r, tape') →
  sound fuel t self' ∧ indexed t self'.
Proof.
  intros Hsound Hidx H. pose proof (sample_grows _ _ _ _ _ _ H) as Hg.
  split; [|by eapply indexed_grows].
  unfold sample in H. inv_res. destruct x as [[s z] tp].
  apply sample_loop_sound with (t := t) in Hx; [|done].
  destruct (HS.tuning_phase s); by inv_res.
Qed.

(** A turn that draws a key with no eligible point below it is as if it had
    not taken place. *)
Lemma sample_retry fuel t self d v :
  sound fuel t self → indexed t self →
  choice (keys (HS.pruning self)) (d_select d) = Some v →
  (∀ z, covers t v z → ¬ eligible self z) →
  ∀ tape, sample fuel self (d :: tape) = sample fuel self tape.
Proof.
  intros Hsound Hidx Hv Hno tape.
  destruct (turn_select fuel t self d Hsound)
    as (v' & s & nd & Hv' & _ & Hs & Hid & Hnd & Hls).
  assert (v' = v) as -> by congruence.
  unfold sample. rewrite (sample_loop_retry fuel t self d tape v nd); [done..|].
  intros z Hz. apply Hno. exists s. by rewrite <- Hls.
Qed.

(** A turn that draws a key with an eligible point below it ends the call,
    whatever draws follow; in the tuning phase it reveals a labeled point
    and returns [None]. *)
Lemma sample_hit fuel t self d v z :
  sound fuel t self → indexed t self → 1 < length (leaves t) →
  choice (keys (HS.pruning self)) (d_select d) = Some v →
  covers t v z → eligible self z →
  ∃ self' r z',
    (∀ tape, sample fuel self (d :: tape) = Ok (self', r, tape)) ∧
    sound fuel t self' ∧ indexed t self' ∧ grows self self' ∧
    covers t v z' ∧ eligible self z' ∧
    (HS.tuning_phase self = true →
     r = None ∧ HS.revealed self' = HS.revealed self ∪ {[z']}).
Proof.
  intros Hsound Hidx Htwo Hv Hcov Hel.
  destruct (sample_loop_hit fuel t self d [] v z Hsound Hidx Htwo Hv Hcov Hel)
    as (self' & z' & Hloop & Hcov' & Hel').
  pose proof (sample_loop_grows _ _ _ _ _ _ Hloop) as Hg.
  pose proof (sample_loop_sound _ _ _ _ _ _ _ Hsound Hloop) as Hsound'.
  pose proof (indexed_grows _ _ _ Hg Hidx) as Hidx'.
  assert (z' ∈ leaves t) as Hzt.
  { destruct Hcov' as (s & Hs & _ & Hz'). by eapply subtrees_leaves. }
  destruct (Hidx' z' Hzt) as (_ & HltX & Hlty).
  destruct (lookup_lt_is_Some_2 _ _ HltX) as [x Hx].
  destruct (lookup_lt_is_Some_2 _ _ Hlty) as [y Hy].
  pose proof Hg as (_ & _ & _ & _ & _ & _ & _ & _ & Ht & _).
  destruct (HS.tuning_phase self) eqn:Htun.
  - exists self', None, z'. split_and!; [|done..|].
    + intros tape. unfold sample. rewrite (sample_loop_head _ _ _ _ _ tape Hloop).
      cbn [mbind res_bind]. by rewrite Ht.
    + intros _. split; [done|].
      by destruct (sample_loop_tuning _ _ _ _ _ _ Htun Hloop) as (_ & _ & ?).
  - exists self', (Some (x, y)), z'. split_and!; [|done..].
    intros tape. unfold sample. rewrite (sample_loop_head _ _ _ _ _ tape Hloop).
    cbn [mbind res_bind]. rewrite Ht, Hx, Hy. done.
Qed.

(** Each turn is of one kind or the other. *)
Lemma sample_turn fuel t self d :
  sound fuel t self → indexed t self → 1 < length (leaves t) →
  (∀ tape, sample fuel self (d :: tape) = sample fuel self tape) ∨
  ∃ self' r, (∀ tape, sample fuel self (d :: tape) = Ok (self', r, tape)) ∧
             sound fuel t self' ∧ indexed t self'.
Proof.
  intros Hsound Hidx Htwo.
  pose proof Hsound as (Hfuel & Hholds & Hleaves & Hcnt & Hcut & Hlab & Hadm & Hact).
  destruct (turn_select fuel t self d Hsound)
    as (v & s & nd & Hv & _ & Hs & Hid & Hnd & Hls).
  assert (∀ z, z ∈ Node.subtree_leaves nd →
               z < length (HS.X_train self) + length (HS.X_unlabeled self)) as Hlt.
  { intros z Hz. rewrite Hls in Hz. apply Hidx. by eapply subtrees_leaves. }
  destruct (_pick_sample_id_from_node_total self v nd d Hnd Hlt Hact)
    as (self1 & [z|] & _ & Hoz).
  - destruct Hoz as [Hz Hel]. right.
    destruct (sample_hit fuel t self d v z) as (self' & r & z' & Hrun & ? & ? & _);
      [done..|exists s; by rewrite <- Hls|done|eauto].
  - destruct Hoz as [_ Hno]. left. eapply sample_retry; [done..|].
    intros z (s' & Hs' & Hid' & Hz). apply Hno. rewrite Hls.
    assert (s' = s) as -> by (apply (subtrees_unique t); [by destruct Hholds|done..|congruence]).
    done.
Qed.

(** [sample] never fails on a sampler that a run reaches: it returns, or it
    is still drawing when the tape ends. *)
Lemma sample_safe fuel t self tape :
  sound fuel t self → indexed t self → 1 < length (leaves t) →
  sample fuel self tape = Diverge ∨
  ∃ self' r tape', sample fuel self tape = Ok (self', r, tape').
Proof.
  intros Hsound Hidx Htwo. induction tape as [|d tape IH]; [by left|].
  destruct (sample_turn fuel t self d Hsound Hidx Htwo) as [->|(s & r & -> & _)];
    [done|eauto].
Qed.

Lemma sample_times_safe fuel t k self tape :
  sound fuel t self → indexed t self → 1 < length (leaves t) →
  sample_times fuel k self tape = Diverge ∨
  ∃ self' tape', sample_times fuel k self tape = Ok (self', tape').
Proof.
  intros Hsound Hidx Htwo. revert self tape Hsound Hidx.
  induction k as [|k IH]; intros self tape Hsound Hidx; [right; simpl; eauto|].
  cbn [sample_times].
  destruct (sample_safe fuel t self tape Hsound Hidx Htwo)
    as [->|(s & r & tp & Hrun)]; [by left|].
  rewrite Hrun. cbn [mbind res_bind].
  destruct (sample_sound _ _ _ _ _ _ _ Hsound Hidx Hrun). by apply IH.
Qed.

(** ** The cycles of the tuning phase *)

(** With a labeled point not revealed yet, some draw reveals one. *)
Lemma tuning_hit_exists fuel t self :
  sound fuel t self → indexed t self → 1 < length (leaves t) →
  HS.tuning_phase self = true →
  (∀ z, z < length (HS.X_train self) → z ∈ leaves t) →
  size (HS.revealed self) < length (HS.X_train self) →
  ∃ d self' z,
    (∀ tape, sample fuel self (d :: tape) = Ok (self', None, tape)) ∧
    sound fuel t self' ∧ indexed t self' ∧ grows self self' ∧
    z ∉ HS.revealed self ∧ z < length (HS.X_train self) ∧
    HS.revealed self' = HS.revealed self ∪ {[z]}.
Proof.
  intros Hsound Hidx Htwo Htun Hlab Hsize.
  pose proof Hsound as (Hfuel & Hholds & Hleaves & Hcnt & Hcut & _).
  assert (∃ z, z < length (HS.X_train self) ∧ z ∉ HS.revealed self) as (z & Hz & Hrev).
  { destruct (decide (Forall (λ z, z ∈ HS.revealed self)
                              (seq 0 (length (HS.X_train self))))) as [Hall|Hnot].
    - assert (set_seq (C:=gset nat) 0 (length (HS.X_train self)) ⊆ HS.revealed self)
        as Hsub.
      { intros z Hz. apply elem_of_set_seq in Hz.
        rewrite Forall_forall in Hall. apply Hall, elem_of_seq. lia. }
      apply subseteq_size in Hsub. rewrite size_set_seq in Hsub. lia.
    - apply not_Forall_Exists in Hnot; [|apply _].
      apply Exists_exists in Hnot as (z & Hz & Hrev). exists z. split; [|done].
      apply elem_of_seq in Hz. lia. }
  assert (eligible self z) as Hel.
  { split_and!; [done|lia|by rewrite Htun]. }
  destruct Hholds as (Hnd & _).
  destruct (cut_partitions _ _ Hnd Hcut) as (_ & _ & Hcov).
  destruct (Hcov z (Hlab z Hz)) as (v & Hv & Hvz & _).
  apply elem_of_dom, elem_of_keys, choice_elem in Hv as [d0 Hd0].
  destruct (sample_hit fuel t self (Draws d0 0 0) v z)
    as (self' & r & z' & Hrun & Hs' & Hi' & Hg & _ & (Hr' & _ & Hlt') & Htuned);
    [done..|].
  destruct (Htuned Htun) as [-> Hrev'']. rewrite Htun in Hlt'.
  exists (Draws d0 0 0), self', z'. by split_and!.
Qed.

(** In the tuning phase, whatever was drawn so far, the cycles still to run
    can end: there are draws with which they return. *)
Lemma sample_times_tuning_ends fuel t k self tape :
  sound fuel t self → indexed t self → 1 < length (leaves t) →
  HS.tuning_phase self = true →
  (∀ z, z < length (HS.X_train self) → z ∈ leaves t) →
  size (HS.revealed self) + k ≤ length (HS.X_train self) →
  ∃ more self' tape', sample_times fuel k self (tape ++ more) = Ok (self', tape').
Proof.
  intros Hsound Hidx Htwo. revert self tape Hsound Hidx.
  induction k as [|k IH]; intros self tape Hsound Hidx Htun Hlab Hsize.
  { exists [], self, (tape ++ []). done. }
  assert (∀ self' tape0, sound fuel t self' → indexed t self' → grows self self' →
            size (HS.revealed self') = S (size (HS.revealed self)) →
            ∃ more self'' tape', sample_times fuel k self' (tape0 ++ more)
                                 = Ok (self'', tape')) as Hnext.
  { intros self' tape0 Hs' Hi' Hg Hsz.
    pose proof Hg as (HX & _ & _ & _ & _ & _ & _ & _ & Ht & _).
    apply IH; [done|done|congruence|by rewrite HX|rewrite HX; lia]. }
  induction tape as [|d tape IHtape].
  - destruct (tuning_hit_exists fuel t self Hsound Hidx Htwo Htun Hlab)
      as (d & self' & z & Hrun & Hs' & Hi' & Hg & Hz & _ & Hrev); [lia|].
    destruct (Hnext self' [] Hs' Hi' Hg) as (more & self'' & tape' & Hk).
    { rewrite Hrev, size_union, size_singleton by set_solver. lia. }
    exists (d :: more), self'', tape'. simpl. rewrite Hrun. exact Hk.
  - destruct (sample_turn fuel t self d Hsound Hidx Htwo)
      as [Hskip|(self' & r & Hrun & Hs' & Hi')].
    + destruct IHtape as (more & self'' & tape' & Hk).
      exists more, self'', tape'. cbn [sample_times app] in *. by rewrite Hskip.
    + pose proof (Hrun []) as Hone.
      pose proof (sample_grows _ _ _ _ _ _ Hone) as Hg.
      unfold sample in Hone. inv_res. destruct x as [[s0 z0] tp0].
      pose proof (sample_loop_grows _ _ _ _ _ _ Hx)
        as (_ & _ & _ & _ & _ & _ & _ & _ & Ht0 & _).
      destruct (sample_loop_tuning _ _ _ _ _ _ Htun Hx) as (Hz0 & _ & Hrev0).
      rewrite Ht0, Htun in Hone. inv_res.
      destruct (Hnext self' tape Hs' Hi' Hg) as (more & self'' & tape' & Hk).
      { rewrite Hrev0, size_union, size_singleton by set_solver. lia. }
      exists more, self'', tape'. cbn [sample_times app]. rewrite Hrun. exact Hk.
Qed.

End InitProps.

Section InitReach.
Context {A : Arith}.
Implicit Types (self : HS.t A) (nodes : gmap nat (Node.t A)) (nd : Node.t A).

Lemma sample_times_reachable fuel t k self tape self' tape' :
  reachable fuel t self → sample_times fuel k self tape = Ok (self', tape') →
  reachable fuel t self'.
Proof.
  revert self tape. induction k as [|k IH]; simpl; intros self tape Hreach H.
  - by inv_res.
  - inv_res. destruct x as [[s r] tp]. eapply IH; [|exact H].
    by eapply reach_sample.
Qed.

(** The sampler that [__init__] returns is one that a run reaches. *)
Lemma init_reachable
    fuel X_train y_train X_unlabeled y_unlabeled n_leaves_ children_ tape self tape' t :
  tree_of (length (X_train ++ X_unlabeled)) children_ = Some t → height t < fuel →
  __init__ fuel X_train y_train X_unlabeled y_unlabeled n_leaves_ children_ tape
    = Ok (self, tape') →
  reachable fuel t self.
Proof.
  intros Ht Hfuel H.
  destruct (tuning_cycles_reveal_labeled_points _ _ _ _ _ _ _ _ _ _ H)
    as (_ & Hrev & _).
  unfold __init__ in H. inv_res. destruct x0 as [s tp]. inv_res.
  pose proof (before_tuning_fields _ _ _ _ _ _ _ _ Hx) as (HX & _).
  pose proof (sample_times_grows _ _ _ _ _ _ Hx0) as (HX' & _).
  apply reach_active.
  - eapply sample_times_reachable; [|exact Hx0].
    eapply reach_start; [exact Hx|by apply tree_of_holds|done].
  - intros i Hi. apply (Hrev i). congruence.
Qed.

(** A tree whose leaves are the [n] points has [n] leaves or more. *)
Lemma leaves_length_ge t n : (∀ z, z < n → z ∈ leaves t) → n ≤ length (leaves t).
Proof.
  intros Hall. transitivity (length (seq 0 n)); [by rewrite length_seq|].
  apply submseteq_length.
  apply NoDup_submseteq; [apply NoDup_seq|].
  intros z Hz. apply elem_of_seq in Hz. apply Hall. lia.
Qed.

(** C6.  Take labeled and unlabeled points, each with its label, and a
    clustering of at least two points whose merges describe a tree over
    them, within the recursion limit, on which the assertion of
    [_compute_weights] passes.  Then [__init__] runs its [k] tuning cycles
    to their end, [k] the number of labeled points: whatever was drawn so
    far there are draws with which it returns, and it never fails (it
    returns, or is still drawing when the draws are used up).  When it
    returns it has left the tuning state and the revealed set is exactly
    the set of the labeled points; and after any number of the cycles, each
    of which revealed one point, the revealed points are all labeled
    ones. *)
Theorem tuning_reveals_exactly_the_labeled_points
    fuel X_train y_train X_unlabeled y_unlabeled n_leaves_ children_ t :
  n_leaves_ = length (X_train ++ X_unlabeled) → 1 < n_leaves_ →
  length y_train = length X_train → length y_unlabeled = length X_unlabeled →
  tree_of n_leaves_ children_ = Some t → height t < fuel →
  (∀ z, z ∈ leaves t ↔ z < n_leaves_) →
  (∀ s, s ∈ subtrees t →
     (of_nat (length (leaves s)) / (f1 * of_nat n_leaves_)
        <? f1 * of_nat n_leaves_)%py = true) →
  (∀ tape, ∃ more self tape',
     __init__ fuel X_train y_train X_unlabeled y_unlabeled n_leaves_ children_
       (tape ++ more) = Ok (self, tape')) ∧
  (∀ tape,
     __init__ fuel X_train y_train X_unlabeled y_unlabeled n_leaves_ children_ tape
       = Diverge ∨
     ∃ self tape',
       __init__ fuel X_train y_train X_unlabeled y_unlabeled n_leaves_ children_ tape
         = Ok (self, tape')) ∧
  (∀ tape self tape',
     __init__ fuel X_train y_train X_unlabeled y_unlabeled n_leaves_ children_ tape
       = Ok (self, tape') →
     HS.tuning_phase self = false ∧
     (∀ i, i ∈ HS.revealed self ↔ i < length X_train) ∧
     ∃ self0,
       before_tuning fuel X_train y_train X_unlabeled y_unlabeled n_leaves_ children_
         = Ok self0 ∧
       HS.tuning_phase self0 = true ∧ HS.revealed self0 = ∅ ∧
       ∀ j selfj tapej, sample_times fuel j self0 tape = Ok (selfj, tapej) →
         HS.tuning_phase selfj = true ∧
         size (HS.revealed selfj) = j ∧
         ∀ i, i ∈ HS.revealed selfj → i < length X_train).
Proof.
  intros Hn Htwo Hyt Hyu Ht Hfuel Hleaves Hw.
  assert (1 < length (leaves t)) as Hlen.
  { pose proof (leaves_length_ge t n_leaves_ (λ z Hz, proj2 (Hleaves z) Hz)). lia. }
  destruct (before_tuning_total fuel X_train y_train X_unlabeled y_unlabeled
              n_leaves_ children_ t Hn ltac:(lia) Ht Hfuel Hw) as [self0 Hb].
  pose proof (before_tuning_fresh _ _ _ _ _ _ _ _ Hb) as (Htun & Hrev & HX).
  assert (sound fuel t self0) as Hsound.
  { eapply before_tuning_sound; [exact Hb| |done]. rewrite <- Hn. by apply tree_of_holds. }
  assert (indexed t self0) as Hidx.
  { eapply before_tuning_indexed; [exact Hb|done..|].
    intros z Hz. rewrite <- Hn. by apply Hleaves. }
  split_and!.
  - intros tape.
    destruct (sample_times_tuning_ends fuel t (length X_train) self0 tape)
      as (more & s & tp & Hrun); [done..| | |].
    { intros z Hz. apply Hleaves. rewrite HX in Hz. rewrite Hn, length_app. lia. }
    { rewrite Hrev, size_empty, HX. lia. }
    exists more, (HS.set_tuning_phase false s), tp.
    unfold __init__. rewrite Hb. cbn [mbind res_bind]. by rewrite Hrun.
  - intros tape. unfold __init__. rewrite Hb. cbn [mbind res_bind].
    destruct (sample_times_safe fuel t (length X_train) self0 tape Hsound Hidx Hlen)
      as [->|(s & tp & ->)]; [by left|right; simpl; eauto].
  - intros tape self tape' Hrun.
    destruct (tuning_cycles_reveal_labeled_points _ _ _ _ _ _ _ _ _ _ Hrun)
      as (Hout & Hall & self0' & Hb' & Hcycles).
    assert (self0' = self0) as -> by congruence.
    split; [done|]. split; [done|]. exists self0. split_and!; [done..|].
    intros j selfj tapej Hj. destruct (Hcycles j selfj tapej Hj) as [Hsize Hin].
    split_and!; [|done..].
    pose proof (sample_times_grows _ _ _ _ _ _ Hj)
      as (_ & _ & _ & _ & _ & _ & _ & _ & Htj & _). congruence.
Qed.

End InitReach.






Lemma tuning_reveals_exactly_the_labeled_points_witness :
  (∀ tape, ∃ more self tape',
     __init__ (A:=float_arith) 5 [[0%float]; [1%float]] [0%Z; 0%Z]
       [[2%float]; [3%float]] [1%Z; 1%Z] 4 [(0, 1); (2, 3); (4, 5)]
       (tape ++ more) = Ok (self, tape')) ∧
  ∃ self,
    __init__ (A:=float_arith) 5 [[0%float]; [1%float]] [0%Z; 0%Z]
      [[2%float]; [3%float]] [1%Z; 1%Z] 4 [(0, 1); (2, 3); (4, 5)] demo4_tape
      = Ok (self, []) ∧
    HS.tuning_phase self = false ∧
    (∀ i, i ∈ HS.revealed self ↔ i < 2).
Proof.
  destruct (tuning_reveals_exactly_the_labeled_points (A:=float_arith) 5
              [[0%float]; [1%float]] [0%Z; 0%Z] [[2%float]; [3%float]] [1%Z; 1%Z]
              4 [(0, 1); (2, 3); (4, 5)]
              (Br 6 (Br 4 (Leaf 0) (Leaf 1)) (Br 5 (Leaf 2) (Leaf 3))))
    as (Hends & _ & Hret).
  - reflexivity.
  - lia.
  - reflexivity.
  - reflexivity.
  - vm_compute. reflexivity.
  - simpl. lia.
  - intros z. simpl. rewrite !elem_of_cons, elem_of_nil. lia.
  - intros s Hs. simpl in Hs.
    repeat (apply elem_of_cons in Hs as [->|Hs]; [vm_compute; reflexivity|]).
    by apply elem_of_nil in Hs.
  - assert (__init__ (A:=float_arith) 5 [[0%float]; [1%float]] [0%Z; 0%Z]
              [[2%float]; [3%float]] [1%Z; 1%Z] 4 [(0, 1); (2, 3); (4, 5)] demo4_tape
            = Ok (demo4, [])) as Hrun by (vm_compute; reflexivity).
    destruct (Hret _ _ _ Hrun) as (Hout & Hall & _).
    split; [exact Hends|]. exists demo4. split_and!; [exact Hrun|exact Hout|exact Hall].
Defined.

(** * When a call of [sample] ends *)

Section SampleEnds.
Context {A : Arith}.
Implicit Types (self : HS.t A) (nodes : gmap nat (Node.t A)) (nd : Node.t A).



(** The nodes of the arena of two points are as [Node(node_id)] makes them. *)
Lemma two_points_pristine v nd : two_points !! v = Some nd → pristine nd.
Proof. apply (constructed_pristine 2 [(0, 1)]). Qed.

End SampleEnds.

Lemma demo4_reachable : reachable 5 demo4_tree demo4.
Proof.
  eapply (init_reachable (A:=float_arith) 5 [[0%float]; [1%float]] [0%Z; 0%Z]
            [[2%float]; [3%float]] [1%Z; 1%Z] 4 [(0, 1); (2, 3); (4, 5)]
            demo4_tape demo4 []).
  - vm_compute. reflexivity.
  - simpl. lia.
  - vm_compute. reflexivity.
Qed.

Lemma demo4_split_reachable : reachable 5 demo4_tree demo4_split.
Proof.
  eapply (sample_times_reachable 5 demo4_tree 2 demo4 [Draws 0 0 0; Draws 0 0 0]
            demo4_split []); [exact demo4_reachable|].
  vm_compute. reflexivity.
Qed.



Lemma pruning_partitions_the_leaves_witness :
  keys (HS.pruning demo4_split) = [4; 5] ∧
  partitions demo4_tree (dom (HS.pruning demo4_split)) ∧
  ∀ (self1 : HS.t float_arith) p_vl st v_ids pruning,
    holds (HS.nodes self1) demo4_tree →
    bottom_up_compute 5 self1 p_vl = Ok st →
    for_each (rewrite_entry (s_v st)) v_ids (HS.pruning demo4_split) = Ok pruning →
    partitions demo4_tree (dom pruning).
Proof.
  split; [vm_compute; reflexivity|].
  apply (pruning_partitions_the_leaves 5 demo4_tree demo4_split).
  exact demo4_split_reachable.
Defined.

Lemma num_revealed_is_sum_of_counts_witness :
  ∃ nodes',
    update_counts_seq 5 (two_points (A:=float_arith))
      [(10%Z, 0, 2); (20%Z, 1, 2); (10%Z, 0, 2)] = Ok nodes' ∧
    (@Node.num_revealed float_arith <$> nodes' !! 2) = Some 3 ∧
    ∀ i (nd : Node.t float_arith), nodes' !! i = Some nd →
      Node.num_revealed nd = sum_values (Node.class_to_instances nd).
Proof.
  destruct (update_counts_seq 5 (two_points (A:=float_arith))
              [(10%Z, 0, 2); (20%Z, 1, 2); (10%Z, 0, 2)]) as [nodes'| |] eqn:Hrun;
    [|by vm_compute in Hrun..].
  exists nodes'. split; [done|]. split.
  - vm_compute in Hrun. injection Hrun as <-. vm_compute. reflexivity.
  - apply (num_revealed_is_sum_of_counts 5 (two_points (A:=float_arith))
             [(10%Z, 0, 2); (20%Z, 1, 2); (10%Z, 0, 2)] nodes'); [|exact Hrun].
    intros i nd Hi. by destruct (two_points_pristine i nd Hi) as (_ & ? & ?).
Defined.

Lemma weights_are_leaf_fractions_witness :
  ∃ nodes, _compute_weights 5 (length (leaves (Br 2 (Leaf 0) (Leaf 1))))
             (two_points (A:=real_arith)) = Ok nodes ∧
    ∀ s, s ∈ subtrees (Br 2 (Leaf 0) (Leaf 1)) →
      ∃ nd, nodes !! tid s = Some nd ∧
        Node.weight nd
          = Fin (INR (length (leaves s)) / INR (length (leaves (Br 2 (Leaf 0) (Leaf 1))))) ∧
        (s = Br 2 (Leaf 0) (Leaf 1) → Node.weight nd = f1 (A:=real_arith)) ∧
        (s ≠ Br 2 (Leaf 0) (Leaf 1) →
         fltb (Arith:=real_arith) (Node.weight nd) f1 = true).
Proof.
  apply (weights_are_leaf_fractions (two_points (A:=real_arith))
           (Br 2 (Leaf 0) (Leaf 1)) 5).
  - exact holds_two_points.
  - intros v nd Hv. by destruct (two_points_pristine v nd Hv).
  - simpl. lia.
  - simpl. lia.
Defined.

Lemma estimates_follow_the_formulas_witness :
  ∃ e, estimate counted_real = Ok e ∧
    e_p_vl e !! (0, 10%Z) = Some (Fin (2 / 3)) ∧
    e_p_vl_UB e !! (0, 20%Z) = Some (Fin (upper_bound counted_node 20%Z)) ∧
    ∀ v nd l, HS.nodes counted_real !! v = Some nd → l ∈ HS.labels counted_real →
      e_p_vl e !! (v, l) = Some (Fin (estimate_p nd l)) ∧
      e_delta e !! (v, l) = Some (Fin (radius nd l)) ∧
      e_p_vl_LB e !! (v, l) = Some (Fin (lower_bound nd l)) ∧
      e_p_vl_UB e !! (v, l) = Some (Fin (upper_bound nd l)).
Proof.
  destruct (estimates_follow_the_formulas counted_real) as (e & He & Hall).
  - intros i nd Hi. unfold counted_real in Hi. simpl in Hi.
    apply lookup_singleton_Some in Hi as [_ <-]. split.
    + vm_compute. reflexivity.
    + intros l c Hl. unfold counted_node in Hl. simpl in Hl.
      apply lookup_insert_Some in Hl as [[_ <-]|[_ Hl]]; [lia|].
      apply lookup_singleton_Some in Hl as [_ <-]. lia.
  - exists e. split; [exact He|].
    assert (HS.nodes counted_real !! 0 = Some counted_node) as H0
      by apply lookup_singleton_eq.
    split_and!; [| |exact Hall].
    + destruct (Hall 0 counted_node 10%Z H0) as (Hp & _); [set_solver|].
      rewrite Hp. do 2 f_equal. unfold estimate_p, count_of.
      change (Node.class_to_instances counted_node)
        with ({[10%Z := 2; 20%Z := 1]} : gmap Z nat).
      rewrite lookup_insert_eq. simpl. lra.
    + destruct (Hall 0 counted_node 20%Z H0) as (_ & _ & _ & Hub); [set_solver|].
      exact Hub.
Defined.
